(** * QwikRead: the extractive summarizer of the popup script

    A shallow embedding of [extractiveSummarize] (the function the popup
    script runs on the text it receives from the content script) and the
    properties stated about it.

    Conventions.
    - A JavaScript string is the list of its UTF-16 code units
      ([jsstring := list N]); every regular expression of the function is
      written without the [u] flag and so works on code units.
    - [\w] is [A-Za-z0-9_], [\d] is [0-9], [\s] is the ECMAScript
      WhiteSpace and LineTerminator code points, [.] is every code unit
      that is not a LineTerminator.
    - Each [String.prototype.replace] / [match] call with a global regular
      expression is written as the left-to-right scanner that the regular
      expression denotes; the examples at the head of the properties show
      each scanner on small inputs.
    - Numbers are IEEE doubles in the program.  Counts and indices are
      small naturals and are kept as [nat]; the five sub-scores and the
      composite score are idealised as real numbers extended with [NaN]
      (rounding is outside the model).  Which sentences the sort by score
      puts first can depend on the rounding and, with a [NaN] score, on
      the algorithm of the engine: [summarizeSorting] takes that sort as a
      parameter, and the click handler is stated over it.

    The development also covers the click handler of the popup script,
    which calls the summarizer, and the content script's [cleanText],
    [extractMainContent] and the interval check of
    [waitForContentStabilization]; the page is given by the results of
    the DOM queries the code makes.  The handler is an [async] function:
    it is modelled by the parts between its [await]s, which the event
    loop runs in any order for the calls that are under way.  The score
    of a block in [extractMainContent] is computed in the arithmetic of
    doubles, rounding included. *)

From Stdlib Require Import Reals Lra Floats.
From stdpp Require Import base list sorting strings gmap.

Open Scope N_scope.

(** ** Strings *)

Definition jsstring := list N.

(** A string literal of the source, as code units. *)
Definition js (s : string) : jsstring :=
  map Ascii.N_of_ascii (String.list_ascii_of_string s).

Definition in_range (lo hi c : N) : bool := (lo <=? c) && (c <=? hi).

(** [\d] *)
Definition is_digit (c : N) : bool := in_range 48 57 c.

(** [\w] *)
Definition is_word (c : N) : bool :=
  in_range 48 57 c || in_range 65 90 c || (c =? 95) || in_range 97 122 c.

(** LineTerminator: LF, CR, LS, PS. *)
Definition is_line_terminator (c : N) : bool :=
  (c =? 10) || (c =? 13) || (c =? 8232) || (c =? 8233).

(** [\s]: TAB, LF, VT, FF, CR, SP, NBSP, U+1680, U+2000..U+200A, LS, PS,
    U+202F, U+205F, U+3000, U+FEFF. *)
Definition is_space (c : N) : bool :=
  in_range 9 13 c || (c =? 32) || (c =? 160) || (c =? 5760)
  || in_range 8192 8202 c || (c =? 8232) || (c =? 8233) || (c =? 8239)
  || (c =? 8287) || (c =? 12288) || (c =? 65279).

(** The sentence terminators [. ! ?] *)
Definition is_terminator (c : N) : bool :=
  (c =? 46) || (c =? 33) || (c =? 63).

(** The closing quotes of the sentence regular expression: code units 34
    (double quote) and 39 (single quote). *)
Definition is_quote (c : N) : bool := (c =? 34) || (c =? 39).

Definition SPACE : N := 32.

(** [s.startsWith(p)] *)
Fixpoint startsWith (s p : jsstring) {struct p} : bool :=
  match p, s with
  | [], _ => true
  | _ :: _, [] => false
  | a :: p', b :: s' => (a =? b) && startsWith s' p'
  end.

(** [s.includes(p)] *)
Fixpoint includes (s p : jsstring) : bool :=
  startsWith s p ||
  match s with
  | [] => false
  | _ :: s' => includes s' p
  end.

(** [s.toLowerCase()].  The function lower-cases only strings over the
    alphabet that cleaning leaves (word characters, spaces and [. ! ?]); on
    that alphabet [toLowerCase] is the map A-Z to a-z. *)
Definition lower (c : N) : N := if in_range 65 90 c then c + 32 else c.
Definition toLowerCase (s : jsstring) : jsstring := map lower s.

(** [s.trim()] *)
Fixpoint trimStart (s : jsstring) : jsstring :=
  match s with
  | [] => []
  | c :: s' => if is_space c then trimStart s' else s
  end.

Definition trimEnd (s : jsstring) : jsstring := rev (trimStart (rev s)).

Definition trim (s : jsstring) : jsstring := trimEnd (trimStart s).

(** [parts.join(' ')] *)
Fixpoint join (parts : list jsstring) : jsstring :=
  match parts with
  | [] => []
  | [p] => p
  | p :: rest => p ++ SPACE :: join rest
  end.

(** ** Cleaning (lines 13-20) *)

(** [.replace(/\[[^\]]*\]/g, '')]: a [[] that has a []] somewhere after it
    is removed together with everything up to the first such []]. *)
Fixpoint removeCitations_from (skipping : bool) (s : jsstring) : jsstring :=
  match s with
  | [] => []
  | c :: s' =>
      if skipping then
        if c =? 93 then removeCitations_from false s'
        else removeCitations_from true s'
      else if (c =? 91) && existsb (N.eqb 93) s' then
        removeCitations_from true s'
      else c :: removeCitations_from false s'
  end.

Definition removeCitations : jsstring -> jsstring :=
  removeCitations_from false.

(** [.replace(/\^.*$/gm, '')]: from a [^] to the end of its line (the line
    terminator stays). *)
Fixpoint removeCarets_from (skipping : bool) (s : jsstring) : jsstring :=
  match s with
  | [] => []
  | c :: s' =>
      if is_line_terminator c then c :: removeCarets_from false s'
      else if skipping || (c =? 94) then removeCarets_from true s'
      else c :: removeCarets_from false s'
  end.

Definition removeCarets : jsstring -> jsstring := removeCarets_from false.

(** [/https?:\/\/\S+/] matches here: [http://] or [https://] and at least
    one more character that is not white space. *)
Definition nonspace_follows (s : jsstring) : bool :=
  match s with
  | c :: _ => negb (is_space c)
  | [] => false
  end.

Definition url_at (s : jsstring) : bool :=
  (startsWith s (js "http://") && nonspace_follows (drop 7 s))
  || (startsWith s (js "https://") && nonspace_follows (drop 8 s)).

(** [.replace(/https?:\/\/\S+/g, '')]: a match runs to the next white
    space. *)
Fixpoint removeUrls_from (skipping : bool) (s : jsstring) : jsstring :=
  match s with
  | [] => []
  | c :: s' =>
      if skipping then
        if is_space c then c :: removeUrls_from false s'
        else removeUrls_from true s'
      else if url_at s then removeUrls_from true s'
      else c :: removeUrls_from false s'
  end.

Definition removeUrls : jsstring -> jsstring := removeUrls_from false.

(** [/\(.*?\)/] matches at a [(]: a [)] comes before the end of the
    line. *)
Fixpoint closes_on_line (s : jsstring) : bool :=
  match s with
  | [] => false
  | c :: s' =>
      if c =? 41 then true
      else if is_line_terminator c then false
      else closes_on_line s'
  end.

(** [.replace(/\(.*?\)/g, '')] *)
Fixpoint removeParens_from (skipping : bool) (s : jsstring) : jsstring :=
  match s with
  | [] => []
  | c :: s' =>
      if skipping then
        if c =? 41 then removeParens_from false s'
        else removeParens_from true s'
      else if (c =? 40) && closes_on_line s' then removeParens_from true s'
      else c :: removeParens_from false s'
  end.

Definition removeParens : jsstring -> jsstring := removeParens_from false.

(** [.replace(/\s+/g, ' ')] *)
Fixpoint collapseSpaces_from (in_run : bool) (s : jsstring) : jsstring :=
  match s with
  | [] => []
  | c :: s' =>
      if is_space c then
        if in_run then collapseSpaces_from true s'
        else SPACE :: collapseSpaces_from true s'
      else c :: collapseSpaces_from false s'
  end.

Definition collapseSpaces : jsstring -> jsstring := collapseSpaces_from false.

(** The characters [/[^\w\s.!?]/] does not match. *)
Definition is_kept (c : N) : bool :=
  is_word c || is_space c || is_terminator c.

(** [.replace(/[^\w\s.!?]/g, '')] *)
Definition removeSpecial (s : jsstring) : jsstring := List.filter is_kept s.

(** The constant [cleaned] of the function. *)
Definition cleanText (text : jsstring) : jsstring :=
  trim (removeSpecial (collapseSpaces (removeParens (removeUrls
    (removeCarets (removeCitations text)))))).

(** ** Sentences (lines 23-43) *)

(** [cleaned.match(sentenceRegex) || []], where [sentenceRegex] is
    [[^.!?]+] followed by either [[.!?]+] and an optional closing quote
    (double or single), or the end of the text.  A match starts at
    the first character that is not a terminator, takes the characters up
    to the next terminator, then the run of terminators and one closing
    quote if there is one; without a terminator it runs to the end of the
    text.  [cur] is the match being read. *)
Inductive segment_state := Outside | InBody | InTerminators.

Fixpoint segment_from (st : segment_state) (cur s : jsstring)
  : list jsstring :=
  match s with
  | [] => match st with Outside => [] | _ => [cur] end
  | c :: s' =>
      match st with
      | Outside =>
          if is_terminator c then segment_from Outside [] s'
          else segment_from InBody [c] s'
      | InBody =>
          if is_terminator c then segment_from InTerminators (cur ++ [c]) s'
          else segment_from InBody (cur ++ [c]) s'
      | InTerminators =>
          if is_terminator c then segment_from InTerminators (cur ++ [c]) s'
          else if is_quote c then (cur ++ [c]) :: segment_from Outside [] s'
          else cur :: segment_from InBody [c] s'
      end
  end.

Definition segment (s : jsstring) : list jsstring := segment_from Outside [] s.

(** [s.split(/\s+/)]: the pieces between the runs of white space; a run at
    either end leaves an empty piece there. *)
Fixpoint split_from (in_run : bool) (cur s : jsstring) : list jsstring :=
  match s with
  | [] => [cur]
  | c :: s' =>
      if is_space c then
        if in_run then split_from true [] s'
        else cur :: split_from true [] s'
      else split_from false (cur ++ [c]) s'
  end.

Definition splitSpaces (s : jsstring) : list jsstring := split_from false [] s.

Fixpoint skipDigits (s : jsstring) : jsstring :=
  match s with
  | [] => []
  | c :: s' => if is_digit c then skipDigits s' else s
  end.

(** [/^\s*\d+\.\s*/.test(s)] *)
Definition numbered (s : jsstring) : bool :=
  match trimStart s with
  | c :: t =>
      is_digit c &&
      match skipDigits t with
      | d :: _ => d =? 46
      | [] => false
      end
  | [] => false
  end.

(** The predicate given to [filter] (lines 29-43). *)
Definition sentenceFilter (s : jsstring) : bool :=
  if (length (splitSpaces s) <? 4)%nat || (length s <? 20)%nat then false
  else if includes s (js "import ") || includes s (js "def ")
          || includes s (js "= ") || includes s (js "{")
          || includes s (js "}") then false
  else if startsWith s (js "^") || startsWith s (js "http") || numbered s
       then false
  else if includes (toLowerCase s) (js "click here")
          || includes (toLowerCase s) (js "next page") then false
  else true.

(** The constant [validSentences] of the function. *)
Definition validSentences (text : jsstring) : list jsstring :=
  List.filter sentenceFilter (map trim (segment (cleanText text))).

Close Scope N_scope.

(** ** Values, objects and numbers *)

(** The values the two frequency tables hold or hand out: a number (a
    count), a string, or a function or object inherited from
    [Object.prototype].  The strings that arise are never empty and never
    numeric (see [jsplus]), so only their kind is recorded. *)
Inductive jsvalue := VNumber (n : nat) | VString | VObject.

(** [a + b]: the sum of two numbers; with an operand that is not a number
    both operands are converted to strings and concatenated (a function
    gives its source text, a plain object gives [[object Object]], a number
    its digits). *)
Definition jsplus (a b : jsvalue) : jsvalue :=
  match a, b with
  | VNumber m, VNumber n => VNumber (m + n)
  | _, _ => VString
  end.

(** The property names of [Object.prototype], which every object made by
    [{}] inherits. *)
Definition objectPrototype : list jsstring :=
  map js ["constructor"; "__defineGetter__"; "__defineSetter__";
          "hasOwnProperty"; "__lookupGetter__"; "__lookupSetter__";
          "isPrototypeOf"; "propertyIsEnumerable"; "toString"; "valueOf";
          "__proto__"; "toLocaleString"]%string.

(** [obj[key]] for an object made by [{}] whose own properties are [obj]:
    the own property, else the inherited one, else [undefined] ([None]). *)
Definition getProperty (obj : gmap jsstring jsvalue) (key : jsstring)
  : option jsvalue :=
  match obj !! key with
  | Some v => Some v
  | None => if bool_decide (key ∈ objectPrototype) then Some VObject else None
  end.

(** [x || 0]: [undefined] and [0] are falsy; the other values are truthy. *)
Definition orZero (x : option jsvalue) : jsvalue :=
  match x with
  | Some v => v
  | None => VNumber 0
  end.

(** [n || 1] for a length [n] *)
Definition orOne (n : nat) : nat :=
  match n with
  | O => 1
  | _ => n
  end.

(** [obj[key] = v] for a number or string [v]: an own property is created
    or updated, except under the key [__proto__], whose inherited setter
    ignores a value that is neither an object nor [null]. *)
Definition setProperty (obj : gmap jsstring jsvalue) (key : jsstring)
  (v : jsvalue) : gmap jsstring jsvalue :=
  if bool_decide (key = js "__proto__") then obj else <[key := v]> obj.

(** [obj[key] = (obj[key] || 0) + 1] *)
Definition increment (obj : gmap jsstring jsvalue) (key : jsstring)
  : gmap jsstring jsvalue :=
  setProperty obj key (jsplus (orZero (getProperty obj key)) (VNumber 1)).

(** A number of the program: a real, or [NaN]. *)
Inductive number := NaN | Fin (r : R).

(** The conversion a division applies to its left operand: a string that
    is not a numeric literal gives [NaN]. *)
Definition toNumber (v : jsvalue) : number :=
  match v with
  | VNumber n => Fin (INR n)
  | _ => NaN
  end.

Definition lift2 (f : R -> R -> R) (a b : number) : number :=
  match a, b with
  | Fin x, Fin y => Fin (f x y)
  | _, _ => NaN
  end.

Definition lift1 (f : R -> R) (a : number) : number :=
  match a with
  | Fin x => Fin (f x)
  | NaN => NaN
  end.

Definition nadd := lift2 Rplus.
Definition nsub := lift2 Rminus.
Definition nmul := lift2 Rmult.
Definition nneg := lift1 Ropp.
Definition nabs := lift1 Rabs.
Definition nexp := lift1 exp.

(** [a / b].  [0 / 0] is [NaN]; a division of a non-zero number by zero
    gives an infinity in the program, which no division of this function
    can produce: its divisors are [20], a length times [0.2] inside the
    callback of a non-empty array, a length guarded by [|| 1], and in the
    diversity score a length that is zero only when the dividend is. *)
Definition ndiv (a b : number) : number :=
  match a, b with
  | Fin x, Fin y => if Req_dec_T y 0 then NaN else Fin (x / y)
  | _, _ => NaN
  end.

(** [a < b]: false when an operand is [NaN]. *)
Definition nlt (a b : number) : bool :=
  match a, b with
  | Fin x, Fin y => if Rlt_dec x y then true else false
  | _, _ => false
  end.

Definition ofNat (n : nat) : number := Fin (INR n).

Declare Scope js_scope.
Delimit Scope js_scope with js.
Bind Scope js_scope with number.
Infix "+" := nadd : js_scope.
Infix "-" := nsub : js_scope.
Infix "*" := nmul : js_scope.
Infix "/" := ndiv : js_scope.
Infix "<" := nlt : js_scope.

(** ** Frequency tables (lines 47-76) *)

Definition stopWords : gset jsstring :=
  list_to_set (map js
    ["a"; "an"; "the"; "and"; "or"; "but"; "is"; "are"; "was"; "were";
     "to"; "of"; "in"; "for"; "with"; "on"; "at"; "by"; "this"; "that";
     "there"; "here"; "what"; "where"; "when"; "how"; "all"; "any";
     "both"; "each"; "few"; "more"; "most"; "other"; "some"; "such";
     "no"; "nor"; "not"; "only"; "own"; "same"; "so"; "than"; "too";
     "very"; "can"; "will"; "just"; "should"; "now"; "click"; "page"]%string).

(** [stopWords.has(word)] *)
Definition isStopWord (word : jsstring) : bool :=
  bool_decide (word ∈ stopWords).

(** [s.match(/\b\w+\b/g) || []]: the maximal runs of word characters. *)
Fixpoint words_from (cur s : jsstring) : list jsstring :=
  match s with
  | [] => match cur with [] => [] | _ => [cur] end
  | c :: s' =>
      if is_word c then words_from (cur ++ [c]) s'
      else match cur with
           | [] => words_from [] s'
           | _ => cur :: words_from [] s'
           end
  end.

(** The constant [words] of both callbacks:
    [sentence.toLowerCase().match(/\b\w+\b/g) || []]. *)
Definition wordsOf (sentence : jsstring) : list jsstring :=
  words_from [] (toLowerCase sentence).

(** [words.slice(i, i + 2).join(' ')] for [i] from [0] to
    [words.length - 2]. *)
Fixpoint phrasesOf (words : list jsstring) : list (jsstring * jsstring) :=
  match words with
  | w1 :: (w2 :: _) as rest => (w1, w2) :: phrasesOf rest
  | _ => []
  end.

Definition phraseKey (p : jsstring * jsstring) : jsstring :=
  p.1 ++ SPACE :: p.2.

(** The body of [words.forEach] (lines 63-67). *)
Definition countWord (wordFreq : gmap jsstring jsvalue) (word : jsstring)
  : gmap jsstring jsvalue :=
  if negb (isStopWord word) && (2 <? length word)%nat
  then increment wordFreq word else wordFreq.

(** The body of the [for] loop (lines 70-75). *)
Definition countPhrase (phraseFreq : gmap jsstring jsvalue)
  (p : jsstring * jsstring) : gmap jsstring jsvalue :=
  if negb (isStopWord p.1) && negb (isStopWord p.2)
  then increment phraseFreq (phraseKey p) else phraseFreq.

(** The tables after [validSentences.forEach] (lines 58-76). *)
Definition wordFreqOf (sentences : list jsstring) : gmap jsstring jsvalue :=
  fold_left (λ wordFreq sentence,
               fold_left countWord (wordsOf sentence) wordFreq)
            sentences ∅.

Definition phraseFreqOf (sentences : list jsstring)
  : gmap jsstring jsvalue :=
  fold_left (λ phraseFreq sentence,
               fold_left countPhrase (phrasesOf (wordsOf sentence)) phraseFreq)
            sentences ∅.

(** ** Scores (lines 79-123) *)

Section Scoring.
Variables wordFreq phraseFreq : gmap jsstring jsvalue.

Definition notStop (words : list jsstring) : list jsstring :=
  List.filter (λ word, negb (isStopWord word)) words.

(** [.reduce((score, word) => score + (table[word] || 0), 0)] *)
Definition sumOver (table : gmap jsstring jsvalue) (keys : list jsstring)
  : jsvalue :=
  fold_left (λ score key, jsplus score (orZero (getProperty table key)))
            keys (VNumber 0).

Definition frequencyScore (words : list jsstring) : number :=
  (toNumber (sumOver wordFreq (notStop words))
   / ofNat (orOne (length (notStop words))))%js.

Definition phraseScore (words : list jsstring) : number :=
  (toNumber (sumOver phraseFreq (map phraseKey (phrasesOf words)))
   / ofNat (orOne (length words)))%js.

Definition positionScore (index total : nat) : number :=
  (if ofNat index < ofNat total * Fin 0.2
   then Fin 1 - ofNat index / (ofNat total * Fin 0.2)
   else if ofNat total * Fin 0.8 < ofNat index
        then (ofNat index - ofNat total * Fin 0.8) / (ofNat total * Fin 0.2)
        else Fin 0.2)%js.

Definition lengthScore (words : list jsstring) : number :=
  nexp (nneg (nabs (ofNat (length words) - Fin 20) / Fin 20))%js.

(** [new Set(words.filter(word => !stopWords.has(word))).size] *)
Definition uniqueWords (words : list jsstring) : nat :=
  size (list_to_set (notStop words) : gset jsstring).

Definition diversityScore (words : list jsstring) : number :=
  (ofNat (uniqueWords words) / ofNat (length words))%js.

Definition finalScore (sentence : jsstring) (index total : nat) : number :=
  let words := wordsOf sentence in
  (frequencyScore words * Fin 0.3
   + phraseScore words * Fin 0.2
   + positionScore index total * Fin 0.2
   + lengthScore words * Fin 0.15
   + diversityScore words * Fin 0.15)%js.
End Scoring.

Record ScoredSentence := {
  sentence : jsstring;
  originalIndex : nat;
  score : number
}.

(** The constant [sentenceScores] (lines 79-123). *)
Definition sentenceScores (valid : list jsstring) : list ScoredSentence :=
  imap (λ index s,
          {| sentence := trim s;
             originalIndex := index;
             score := finalScore (wordFreqOf valid) (phraseFreqOf valid)
                                 s index (length valid) |})
       valid.

(** ** Selection (lines 126-132) *)

Section Sort.
Context {A : Type}.
(** [after a b]: the comparison function gives a positive number on
    [(a, b)], so [a] is to come after [b].  A [NaN] result counts as
    zero. *)
Variable after : A -> A -> bool.

Fixpoint insertSorted (x : A) (l : list A) : list A :=
  match l with
  | [] => [x]
  | y :: l' => if after x y then y :: insertSorted x l' else x :: l
  end.

(** [l.sort(comparefn)], a stable sort: an element stays before the
    later elements that the comparison does not put before it. *)
Fixpoint sortBy (l : list A) : list A :=
  match l with
  | [] => []
  | x :: l' => insertSorted x (sortBy l')
  end.
End Sort.

(** [(a, b) => b.score - a.score] is positive.  With a [NaN] score the
    comparison function is not consistent, and two scores that are equal
    as real numbers can differ as doubles: the order the engine gives can
    then differ from the order of [sortBy afterByScore] (see
    [summarySentencesSorting]). *)
Definition afterByScore (a b : ScoredSentence) : bool :=
  (Fin 0 < score b - score a)%js.

(** [(a, b) => a.originalIndex - b.originalIndex] is positive *)
Definition afterByIndex (a b : ScoredSentence) : bool :=
  (originalIndex b <? originalIndex a)%nat.

(** [l.slice(0, n)]: a negative [n] counts from the end. *)
Definition slice0 {A} (l : list A) (n : Z) : list A :=
  take (Z.to_nat (if (n <? 0)%Z then Z.max (Z.of_nat (length l) + n) 0
                  else Z.min n (Z.of_nat (length l)))) l.

(** The array before [.map(item => item.sentence)] (lines 126-129). *)
Definition selection (valid : list jsstring) (numSentences : Z)
  : list ScoredSentence :=
  sortBy afterByIndex
         (slice0 (sortBy afterByScore (sentenceScores valid)) numSentences).

(** The constant [topSentences]. *)
Definition topSentences (valid : list jsstring) (numSentences : Z)
  : list jsstring :=
  map sentence (selection valid numSentences).

(** The sentences the function joins: all of them on line 45, the selected
    ones on line 132. *)
Definition summarySentences (text : jsstring) (numSentences : Z)
  : list jsstring :=
  let valid := validSentences text in
  if (Z.of_nat (length valid) <=? numSentences)%Z then valid
  else topSentences valid numSentences.

(** [extractiveSummarize(text, numSentences)] *)
Definition extractiveSummarize (text : jsstring) (numSentences : Z)
  : jsstring :=
  let valid := validSentences text in
  if (Z.of_nat (length valid) <=? numSentences)%Z then join valid
  else join (topSentences valid numSentences).

(** The default value of the parameter, [numSentences = 5]. *)
Definition extractiveSummarizeDefault (text : jsstring) : jsstring :=
  extractiveSummarize text 5.

(** The call site (line 220):
    [parseInt(value) || 5], where [parseInt] gives an integer or [NaN]
    ([None]). *)
Definition sentenceCountOr5 (parsed : option Z) : Z :=
  match parsed with
  | Some 0%Z | None => 5%Z
  | Some n => n
  end.

(** The function with lines 47-123 (stop words, tables and scores)
    replaced by an arbitrary computation [scoring] of the scored sentences:
    what the function returns as a function of that phase. *)
Definition summarizeWith (scoring : list jsstring → list ScoredSentence)
  (text : jsstring) (numSentences : Z) : jsstring :=
  let valid := validSentences text in
  if (Z.of_nat (length valid) <=? numSentences)%Z then join valid
  else join (map sentence
               (sortBy afterByIndex
                  (slice0 (sortBy afterByScore (scoring valid))
                          numSentences))).

(** The function with the first sort (line 127) given by [byScore].  The
    scores are doubles in the program and real numbers here: two scores
    that differ in the last place as doubles can be equal as real numbers,
    and with a [NaN] score the comparison function is not consistent, so
    that the order is the one the engine's algorithm happens to give.
    [byScore] stands for the sort as the engine computes it; of it the
    properties use at most that its result is a permutation of the
    array. *)
Definition summarySentencesSorting
  (byScore : list ScoredSentence → list ScoredSentence)
  (text : jsstring) (numSentences : Z) : list jsstring :=
  let valid := validSentences text in
  if (Z.of_nat (length valid) <=? numSentences)%Z then valid
  else map sentence
           (sortBy afterByIndex
              (slice0 (byScore (sentenceScores valid)) numSentences)).

Definition summarizeSorting
  (byScore : list ScoredSentence → list ScoredSentence)
  (text : jsstring) (numSentences : Z) : jsstring :=
  join (summarySentencesSorting byScore text numSentences).

(** ** Sums of table reads *)

(** The number that a read [table[key] || 0] of the code adds to a sum. *)
Definition tableValue (table : gmap jsstring jsvalue) (key : jsstring)
  : number :=
  toNumber (orZero (getProperty table key)).

Definition nsum (l : list number) : number := fold_left nadd l (Fin 0).

(** ** The score as a real number *)

(** The value of [positionScore] when the array is not empty. *)
Definition positionR (index total : nat) : R :=
  if Rlt_dec (INR index) (INR total * 0.2)
  then 1 - INR index / (INR total * 0.2)
  else if Rlt_dec (INR total * 0.8) (INR index)
       then (INR index - INR total * 0.8) / (INR total * 0.2)
       else 0.2.

(** The value of [finalScore] for a sentence with [nw] words, of which
    [na] are not stop words and [u] of those distinct, whose table values
    sum to the numbers [a] (words) and [b] (phrases). *)
Definition scoreR (a na b nw u index total : nat) : R :=
  INR a / INR (orOne na) * 0.3
  + INR b / INR (orOne nw) * 0.2
  + positionR index total * 0.2
  + exp (- (Rabs (INR nw - 20) / 20)) * 0.15
  + INR u / INR nw * 0.15.

Definition scored (s : jsstring) (index : nat) (sc : number)
  : ScoredSentence :=
  {| sentence := s; originalIndex := index; score := sc |}.

(** ** The frequency model in the words of the specification *)

(** The tokens of the sentences that are not stop words and are longer
    than 2. *)
Definition eligibleWords (sentences : list jsstring) : list jsstring :=
  List.filter (λ w, negb (isStopWord w) && (2 <? length w))
              (concat (map wordsOf sentences)).

(** The keys of the adjacent pairs of tokens of the sentences neither
    member of which is a stop word. *)
Definition eligiblePhrases (sentences : list jsstring) : list jsstring :=
  map phraseKey
      (List.filter (λ p, negb (isStopWord p.1) && negb (isStopWord p.2))
                   (concat (map (λ s, phrasesOf (wordsOf s)) sentences))).

(** How often [key] occurs in [keys]. *)
Definition countOf (key : jsstring) (keys : list jsstring) : nat :=
  length (List.filter (λ k, bool_decide (k = key)) keys).

(** The table that holds exactly the counts of [keys]. *)
Definition countsOf (keys : list jsstring) (key : jsstring)
  : option jsvalue :=
  match countOf key keys with
  | O => None
  | n => Some (VNumber n)
  end.

(** ** The composite score in the words of the specification *)

(** Token (section 3): a lower-cased word, that is, a maximal run of word
    characters of the lower-cased sentence. *)
Definition spec_starts (s : jsstring) : bool :=
  match s with
  | c :: _ => is_word c
  | [] => false
  end.

Fixpoint spec_runs (s : jsstring) : list jsstring :=
  match s with
  | [] => []
  | c :: s' =>
      if is_word c then
        match spec_runs s' with
        | run :: runs =>
            if spec_starts s' then (c :: run) :: runs else [c] :: run :: runs
        | [] => [[c]]
        end
      else spec_runs s'
  end.

Definition spec_tokens (sentence : jsstring) : list jsstring :=
  spec_runs (toLowerCase sentence).

Definition spec_stop (token : jsstring) : bool :=
  bool_decide (token ∈ stopWords).

(** The adjacent token pairs, and the key of a pair: the two words joined
    by a space. *)
Definition spec_bigrams (tokens : list jsstring)
  : list (jsstring * jsstring) :=
  zip tokens (tail tokens).

Definition spec_key (p : jsstring * jsstring) : jsstring :=
  p.1 ++ js " " ++ p.2.

(** FrequencyModel (sections 3 and 4.3): [wordFreq] maps a word to the
    number of tokens of the sentences equal to it that are not stop words
    and are longer than 2; [phraseFreq] maps a key to the number of
    adjacent token pairs with that key neither member of which is a stop
    word. *)
Definition spec_wordFreq (sentences : list jsstring) (word : jsstring)
  : nat :=
  countOf word
    (List.filter (λ t, negb (spec_stop t) && (2 <? length t))
                 (concat (map spec_tokens sentences))).

Definition spec_phraseFreq (sentences : list jsstring) (key : jsstring)
  : nat :=
  countOf key
    (map spec_key
       (List.filter (λ p, negb (spec_stop p.1) && negb (spec_stop p.2))
          (concat (map (λ s, spec_bigrams (spec_tokens s)) sentences)))).

Section SpecScore.
(** The two mappings of the frequency model, from a word or a key to a
    count. *)
Variables wordFreq phraseFreq : jsstring → nat.

(** Mean of [wordFreq] over the tokens that are not stop words, 0 if there
    are none. *)
Definition spec_frequency (tokens : list jsstring) : number :=
  match List.filter (λ t, negb (spec_stop t)) tokens with
  | [] => Fin 0
  | ws => (nsum (map (λ w, ofNat (wordFreq w)) ws) / ofNat (length ws))%js
  end.

(** Sum of [phraseFreq] over the adjacent pairs of tokens, divided by the
    token count. *)
Definition spec_phrase (tokens : list jsstring) : number :=
  (nsum (map (λ p, ofNat (phraseFreq (spec_key p))) (spec_bigrams tokens))
   / ofNat (length tokens))%js.

(** The positional rule on [p = index / total]. *)
Definition spec_position (index total : nat) : number :=
  let p := (ofNat index / ofNat total)%js in
  (if p < Fin 0.2
   then Fin 1 - ofNat index / (ofNat total * Fin 0.2)
   else if Fin 0.8 < p
        then (ofNat index - ofNat total * Fin 0.8) / (ofNat total * Fin 0.2)
        else Fin 0.2)%js.

(** [exp(-abs(tokenCount - 20) / 20)] *)
Definition spec_length (tokens : list jsstring) : number :=
  nexp (nneg (nabs (ofNat (length tokens) - Fin 20)) / Fin 20)%js.

(** Distinct tokens that are not stop words, divided by the token count. *)
Definition spec_diversity (tokens : list jsstring) : number :=
  (ofNat (length (remove_dups (List.filter (λ t, negb (spec_stop t)) tokens)))
   / ofNat (length tokens))%js.

Definition spec_score (sentence : jsstring) (index total : nat) : number :=
  let tokens := spec_tokens sentence in
  (Fin 0.30 * spec_frequency tokens
   + Fin 0.20 * spec_phrase tokens
   + Fin 0.20 * spec_position index total
   + Fin 0.15 * spec_length tokens
   + Fin 0.15 * spec_diversity tokens)%js.
End SpecScore.

(** ** The alphabet of a cleaned text *)

(** What cleaning leaves: word characters, the space and [. ! ?]. *)
Definition is_clean (c : N) : bool :=
  is_word c || (c =? SPACE)%N || is_terminator c.

(** No white space other than single spaces, none right after a white space
    when [after_space] is set. *)
Fixpoint single_spaced (after_space : bool) (s : jsstring) : bool :=
  match s with
  | [] => true
  | c :: s' =>
      if is_space c
      then (c =? SPACE)%N && negb after_space && single_spaced true s'
      else single_spaced false s'
  end.

(** ** The shape of a match of the sentence regular expression *)

(** A run without terminators, then characters without white space (the
    terminators and the closing quote). *)
Definition segment_shape (seg : jsstring) : Prop :=
  ∃ body tail, seg = body ++ tail
    ∧ Forall (λ c, is_terminator c = false) body
    ∧ Forall (λ c, is_space c = false) tail.

(** What the scanner has read of the current match in each state. *)
Definition segment_inv (st : segment_state) (cur : jsstring) : Prop :=
  match st with
  | Outside => True
  | InBody => Forall (λ c, is_terminator c = false) cur
  | InTerminators =>
      ∃ body terms, cur = body ++ terms
        ∧ Forall (λ c, is_terminator c = false) body
        ∧ Forall (λ c, is_terminator c = true) terms
  end.

(** ** Inputs used below *)

Definition catText : jsstring :=
  js "The cat sat on the mat. [1] A much longer sentence about cats and their habits in urban environments follows here. http://example.com Another long descriptive sentence about feline behavior and city life continues the narrative.".

Definition catFirst : jsstring := js "The cat sat on the mat.".
Definition catSecond : jsstring :=
  js "A much longer sentence about cats and their habits in urban environments follows here.".
Definition catThird : jsstring :=
  js "Another long descriptive sentence about feline behavior and city life continues the narrative.".

(** The cleaned cat text: without the citation and the link. *)
Definition catCleaned : jsstring :=
  js "The cat sat on the mat. A much longer sentence about cats and their habits in urban environments follows here. Another long descriptive sentence about feline behavior and city life continues the narrative.".

Definition foxText : jsstring :=
  js "The quick brown fox jumps over the lazy dog.".

Definition dashText : jsstring := js "a - b".

Definition constructorText : jsstring :=
  js "The constructor sets every field of the object. Another sentence follows the first one here.".
Definition constructorFirst : jsstring :=
  js "The constructor sets every field of the object.".
Definition constructorSecond : jsstring :=
  js "Another sentence follows the first one here.".

(** ** The content script: [cleanText] (src/content.js, lines 43-54) *)

Module Content.

(** [/@\w+/] matches at [s]: an [@] and at least one word character. *)
Definition mention_at (s : jsstring) : bool :=
  match s with
  | c :: d :: _ => (c =? 64)%N && is_word d
  | _ => false
  end.

(** [.replace(/@\w+/g, '')]: a match takes the [@] and the whole run of
    word characters after it; the character that ends the run is looked at
    afresh, so a second mention right after the first is removed too. *)
Fixpoint removeMentions_from (skipping : bool) (s : jsstring) : jsstring :=
  match s with
  | [] => []
  | c :: s' =>
      if skipping && is_word c then removeMentions_from true s'
      else if mention_at s then removeMentions_from true s'
      else c :: removeMentions_from false s'
  end.

Definition removeMentions : jsstring → jsstring := removeMentions_from false.

(** [.replace(/\.+/g, '.')] *)
Fixpoint collapsePeriods_from (in_run : bool) (s : jsstring) : jsstring :=
  match s with
  | [] => []
  | c :: s' =>
      if (c =? 46)%N then
        if in_run then collapsePeriods_from true s'
        else c :: collapsePeriods_from true s'
      else c :: collapsePeriods_from false s'
  end.

Definition collapsePeriods : jsstring → jsstring :=
  collapsePeriods_from false.

(** [cleanText(text)] of the content script. *)
Definition cleanText (text : jsstring) : jsstring :=
  trim (collapsePeriods (collapseSpaces (removeMentions
    (removeCitations text)))).

End Content.

(** An opening bracket with a closing bracket somewhere after it: what
    [/\[[^\]]*\]/] matches. *)
Fixpoint has_citation (s : jsstring) : bool :=
  match s with
  | [] => false
  | c :: s' => ((c =? 91)%N && existsb (N.eqb 93) s') || has_citation s'
  end.

(** No two adjacent characters are a [bad] pair. *)
Fixpoint no_pair (bad : N → N → bool) (s : jsstring) : bool :=
  match s with
  | c :: (d :: _) as s' => negb (bad c d) && no_pair bad s'
  | _ => true
  end.

Definition mention_pair (c d : N) : bool := (c =? 64)%N && is_word d.
Definition space_pair (c d : N) : bool := is_space c && is_space d.
Definition period_pair (c d : N) : bool := (c =? 46)%N && (d =? 46)%N.

(** The head of the text is a word character. *)
Definition word_head (s : jsstring) : bool :=
  match s with
  | c :: _ => is_word c
  | [] => false
  end.

(** The form [Content.cleanText] leaves a text in. *)
Definition content_normal (s : jsstring) : Prop :=
  has_citation s = false
  ∧ no_pair mention_pair s = true
  ∧ Forall (λ c, is_space c = true → c = SPACE) s
  ∧ no_pair space_pair s = true
  ∧ no_pair period_pair s = true
  ∧ trim s = s.

(** ** The click handler of the popup (lines 172-259) *)

(** [parseInt(s)] without a radix: leading white space is skipped, then
    an optional sign, then [0x] or [0X] selects radix 16, then the longest
    run of digits is read; without a digit the result is [NaN] ([None]).
    The result is kept as the exact integer: the rounding to a double
    changes neither whether it is zero nor any comparison with an array
    length nor the end of a [slice]. *)
Definition digitValue (radix c : N) : option N :=
  let v := if in_range 48 57 c then Some (c - 48)%N
           else if in_range 97 122 c then Some (c - 87)%N
           else if in_range 65 90 c then Some (c - 55)%N
           else None in
  match v with
  | Some d => if (d <? radix)%N then Some d else None
  | None => None
  end.

Fixpoint parseDigits (radix : N) (acc : option N) (s : jsstring)
  : option N :=
  match s with
  | [] => acc
  | c :: s' =>
      match digitValue radix c with
      | Some d => parseDigits radix (Some (radix * default 0 acc + d)%N) s'
      | None => acc
      end
  end.

Definition parseInt (s : jsstring) : option Z :=
  let s1 := trimStart s in
  let negative := match s1 with 45%N :: _ => true | _ => false end in
  let s2 := match s1 with
            | 45%N :: r | 43%N :: r => r
            | _ => s1
            end in
  let radix := match s2 with
               | 48%N :: (120%N | 88%N) :: _ => 16%N
               | _ => 10%N
               end in
  let s3 := match s2 with
            | 48%N :: (120%N | 88%N) :: r => r
            | _ => s2
            end in
  match parseDigits radix None s3 with
  | Some m => Some (if negative then - Z.of_N m else Z.of_N m)%Z
  | None => None
  end.

(** The decimal digits of a count, as the template literal prints it. *)
Fixpoint uintChars (d : Decimal.uint) : jsstring :=
  match d with
  | Decimal.Nil => []
  | Decimal.D0 r => 48%N :: uintChars r
  | Decimal.D1 r => 49%N :: uintChars r
  | Decimal.D2 r => 50%N :: uintChars r
  | Decimal.D3 r => 51%N :: uintChars r
  | Decimal.D4 r => 52%N :: uintChars r
  | Decimal.D5 r => 53%N :: uintChars r
  | Decimal.D6 r => 54%N :: uintChars r
  | Decimal.D7 r => 55%N :: uintChars r
  | Decimal.D8 r => 56%N :: uintChars r
  | Decimal.D9 r => 57%N :: uintChars r
  end.

Definition numberToString (n : nat) : jsstring := uintChars (Nat.to_uint n).

(** What the handler reads of the popup and writes to it: the [hidden]
    class of the loader, the summary container and the error box, the texts
    of the summary, the word count and the error paragraph, and the status
    indicator when the page has one. *)
Record statusIndicator := {
  statusText : jsstring;
  statusHidden : bool;
  statusSuccess : bool
}.

Record popup := {
  loaderHidden : bool;
  summaryHidden : bool;
  errorHidden : bool;
  summaryText : jsstring;
  wordCountText : jsstring;
  errorText : jsstring;
  status : option statusIndicator
}.

(** What a call of the listener awaits and reads from outside: the result
    of [chrome.tabs.query] (the first tab of the array, if any, with its
    [url]), the result of [sendMessageWithTimeout] (the response, if any,
    with its [content]) and the value the select element has when line 220
    reads it.  A promise is fulfilled or rejected with an error that has a
    message; the rejection of [sendMessageWithTimeout] after five seconds
    is one of the replies. *)
Inductive settled (A : Type) :=
  | Fulfilled (a : A)
  | Rejected (message : jsstring).
Arguments Fulfilled {A} a.
Arguments Rejected {A} message.

Record tabInfo := { tabUrl : option jsstring }.
Record response := { content : option jsstring }.

Record surroundings := {
  queried : settled (option tabInfo);
  replied : settled (option response);
  selectValue : jsstring
}.

(** A step of the handler: it changes the popup and either throws an error
    with a message or goes on with a value. *)
Definition step (A : Type) : Type := popup → popup * (jsstring + A).

Definition ret {A} (a : A) : step A := λ ui, (ui, inr a).
Definition throw {A} (message : jsstring) : step A := λ ui, (ui, inl message).
Definition bind {A B} (m : step A) (k : A → step B) : step B :=
  λ ui, match m ui with
        | (ui', inr a) => k a ui'
        | (ui', inl message) => (ui', inl message)
        end.
Definition change (f : popup → popup) : step () := λ ui, (f ui, inr ()).
Definition await {A} (p : settled A) : step A :=
  match p with
  | Fulfilled a => ret a
  | Rejected message => throw message
  end.

Declare Scope step_scope.
Delimit Scope step_scope with step.
Notation "x <- m ;; k" := (bind m (λ x, k))
  (at level 100, m at next level, right associativity) : step_scope.
Notation "m ;; k" := (bind m (λ _, k))
  (at level 100, right associativity) : step_scope.

Definition setLoaderHidden (b : bool) (ui : popup) : popup :=
  {| loaderHidden := b; summaryHidden := summaryHidden ui;
     errorHidden := errorHidden ui; summaryText := summaryText ui;
     wordCountText := wordCountText ui; errorText := errorText ui;
     status := status ui |}.
Definition setSummaryHidden (b : bool) (ui : popup) : popup :=
  {| loaderHidden := loaderHidden ui; summaryHidden := b;
     errorHidden := errorHidden ui; summaryText := summaryText ui;
     wordCountText := wordCountText ui; errorText := errorText ui;
     status := status ui |}.
Definition setErrorHidden (b : bool) (ui : popup) : popup :=
  {| loaderHidden := loaderHidden ui; summaryHidden := summaryHidden ui;
     errorHidden := b; summaryText := summaryText ui;
     wordCountText := wordCountText ui; errorText := errorText ui;
     status := status ui |}.
Definition setSummaryText (t : jsstring) (ui : popup) : popup :=
  {| loaderHidden := loaderHidden ui; summaryHidden := summaryHidden ui;
     errorHidden := errorHidden ui; summaryText := t;
     wordCountText := wordCountText ui; errorText := errorText ui;
     status := status ui |}.
Definition setWordCountText (t : jsstring) (ui : popup) : popup :=
  {| loaderHidden := loaderHidden ui; summaryHidden := summaryHidden ui;
     errorHidden := errorHidden ui; summaryText := summaryText ui;
     wordCountText := t; errorText := errorText ui;
     status := status ui |}.
Definition setErrorText (t : jsstring) (ui : popup) : popup :=
  {| loaderHidden := loaderHidden ui; summaryHidden := summaryHidden ui;
     errorHidden := errorHidden ui; summaryText := summaryText ui;
     wordCountText := wordCountText ui; errorText := t;
     status := status ui |}.
(** Lines 212-217: only when the element exists. *)
Definition showExtracted (ui : popup) : popup :=
  {| loaderHidden := loaderHidden ui; summaryHidden := summaryHidden ui;
     errorHidden := errorHidden ui; summaryText := summaryText ui;
     wordCountText := wordCountText ui; errorText := errorText ui;
     status := match status ui with
               | Some _ => Some {| statusText := js "Content extracted!";
                                   statusHidden := false;
                                   statusSuccess := true |}
               | None => None
               end |}.

(** [!s] for a value that is a string or missing. *)
Definition missing (s : option jsstring) : bool :=
  match s with
  | Some (_ :: _) => false
  | _ => true
  end.

(** The string itself, for a string that is not missing. *)
Definition present (s : option jsstring) : jsstring :=
  match s with
  | Some s => s
  | None => []
  end.

(** The message the [catch] block shows (lines 245-255). *)
Definition errorMessageFor (message : jsstring) : jsstring :=
  if includes message (js "Cannot access contents of url")
  then js "Cannot access this page. Try opening a regular webpage."
  else if includes message (js "Message timeout")
  then js "Page took too long to respond. Please refresh and try again."
  else if includes message (js "Receiving end does not exist")
  then js "Please refresh the page and try again."
  else match message with
       | [] => js "An unexpected error occurred. Please try again."
       | _ => message
       end.

(** Where a call of the listener stands: at one of its four [await]s
    (lines 180, 192, 198 and 201), or at its end. *)
Inductive stage :=
  | AwaitTabs
  | AwaitScripts
  | AwaitDelay
  | AwaitReply
  | Finished.

(** The popup, and the calls of the listener in the order of the clicks.
    The listener is [async] and the button stays enabled, so a click can
    come while earlier calls are at an [await]. *)
Record world := {
  shown : popup;
  calls : list stage
}.

(** What the event loop runs: the listener at a click, or call [i] from
    the [await] whose promise has settled.  Between two [await]s a call
    runs without interruption. *)
Inductive event :=
  | Click
  | TabsQueried (i : nat) (tabs : settled (option tabInfo))
  | ScriptsInjected (i : nat)
  | DelayOver (i : nat)
  | Replied (i : nat) (reply : settled (option response))
            (selected : jsstring).

Definition isClick (e : event) : bool :=
  match e with
  | Click => true
  | _ => false
  end.

Definition clicks (events : list event) : nat :=
  length (List.filter isClick events).

Definition isFinished (c : stage) : bool :=
  match c with
  | Finished => true
  | _ => false
  end.

(** No call is at an [await]. *)
Definition idle (w : world) : bool := forallb isFinished (calls w).

Section Handler.
(** The sort of line 127 as the engine computes it (see
    [summarizeSorting]). *)
Variable byScore : list ScoredSentence → list ScoredSentence.

(** Lines 174-176: from the click to the first [await]. *)
Definition clickStarted (ui : popup) : popup :=
  setErrorHidden true (setSummaryHidden true (setLoaderHidden false ui)).

(** Lines 180-192: from the result of [chrome.tabs.query] to the call of
    [injectContentScripts]. *)
Definition afterQuery (tabs : settled (option tabInfo)) : step () :=
  (tab <- await tabs ;;
   match tab with
   | None => throw (js "No active tab found")
   | Some tab =>
       if missing (tabUrl tab)
          || negb (startsWith (present (tabUrl tab)) (js "http"))
       then throw (js "Cannot summarize this page. Extension only works on web pages.")
       else ret ()
   end)%step.

(** Lines 201-238: from the result of [sendMessageWithTimeout] to the end
    of the [try] block. *)
Definition afterReply (reply : settled (option response))
  (selected : jsstring) : step () :=
  (reply <- await reply ;;
   match reply with
   | None =>
       throw (js "Failed to get response from page. Please refresh and try again.")
   | Some reply =>
       if missing (content reply)
          || (length (present (content reply)) <? 50)
       then throw (js "Could not extract meaningful content from this page. The page might be empty or still loading.")
       else
         change showExtracted ;;
         let sentenceCount := sentenceCountOr5 (parseInt selected) in
         let summary :=
           summarizeSorting byScore (present (content reply))
                            sentenceCount in
         change (setLoaderHidden true) ;;
         if missing (Some summary) || (length (trim summary) =? 0)
         then throw (js "No meaningful summary could be generated. The content might be too short or not in a readable format.")
         else
           change (setSummaryText summary) ;;
           let words := length (splitSpaces summary) in
           change (setWordCountText
                     (numberToString words ++ js " words")) ;;
           change (setSummaryHidden false)
   end)%step.

(** The [catch] block (lines 240-258). *)
Definition catchBlock (message : jsstring) (ui : popup) : popup :=
  setErrorText (errorMessageFor message)
    (setErrorHidden false (setLoaderHidden true ui)).

(** Call [i] has run a part of the [try] block: it stands at its next
    [await], or the [catch] block has run and it has ended. *)
Definition resumed (i : nat) (next : stage)
  (result : popup * (jsstring + ())) (w : world) : world :=
  match result with
  | (ui, inr _) => {| shown := ui; calls := <[i := next]> (calls w) |}
  | (ui, inl message) =>
      {| shown := catchBlock message ui;
         calls := <[i := Finished]> (calls w) |}
  end.

Definition moved (i : nat) (next : stage) (w : world) : world :=
  {| shown := shown w; calls := <[i := next]> (calls w) |}.

(** One turn of the event loop; [None] when call [i] does not stand at
    the [await] of the event. *)
Definition deliver (e : event) (w : world) : option world :=
  match e with
  | Click =>
      Some {| shown := clickStarted (shown w);
              calls := calls w ++ [AwaitTabs] |}
  | TabsQueried i tabs =>
      match calls w !! i with
      | Some AwaitTabs =>
          Some (resumed i AwaitScripts (afterQuery tabs (shown w)) w)
      | _ => None
      end
  | ScriptsInjected i =>
      match calls w !! i with
      | Some AwaitScripts => Some (moved i AwaitDelay w)
      | _ => None
      end
  | DelayOver i =>
      match calls w !! i with
      | Some AwaitDelay => Some (moved i AwaitReply w)
      | _ => None
      end
  | Replied i reply selected =>
      match calls w !! i with
      | Some AwaitReply =>
          Some (resumed i Finished (afterReply reply selected (shown w)) w)
      | _ => None
      end
  end.

Fixpoint run (events : list event) (w : world) : option world :=
  match events with
  | [] => Some w
  | e :: events' =>
      match deliver e w with
      | Some w' => run events' w'
      | None => None
      end
  end.

(** The [try] block (lines 178-238) of a call that no other call
    interrupts. *)
Definition tryBlock (env : surroundings) : step () :=
  (afterQuery (queried env) ;;
   afterReply (replied env) (selectValue env))%step.

(** The popup after such a call, from the popup before the click. *)
Definition onSummarizeClick (env : surroundings) (ui : popup) : popup :=
  match tryBlock env (clickStarted ui) with
  | (ui', inr _) => ui'
  | (ui', inl message) => catchBlock message ui'
  end.

End Handler.

(** The events of the [i]-th click when the tab is a web page and nothing
    comes in between. *)
Definition aloneClick (i : nat) (env : surroundings) : list event :=
  [Click; TabsQueried i (queried env); ScriptsInjected i; DelayOver i;
   Replied i (replied env) (selectValue env)].

(** Call [i] has got a tab whose URL starts with [http]. *)
Definition passedQuery (events : list event) (i : nat) : Prop :=
  ∃ url, TabsQueried i (Fulfilled (Some {| tabUrl := Some url |})) ∈ events
         ∧ startsWith url (js "http") = true.

(** The summary text and the word count of the popup come from a reply
    among the events: a call that had got a web page has been answered
    with a content of at least 50 characters, the text is the summary of
    that content for the count selected then, it is not blank, and the
    word count is the number of pieces it splits into at white space. *)
Definition summaryFrom (byScore : list ScoredSentence → list ScoredSentence)
  (events : list event) (ui : popup) : Prop :=
  ∃ i text selected,
    passedQuery events i
    ∧ Replied i (Fulfilled (Some {| content := Some text |})) selected
      ∈ events
    ∧ 50 ≤ length text
    ∧ summaryText ui
      = summarizeSorting byScore text (sentenceCountOr5 (parseInt selected))
    ∧ trim (summaryText ui) ≠ []
    ∧ wordCountText ui
      = numberToString (length (splitSpaces (summaryText ui))) ++ js " words".

(** ** Doubles in the score of a block (src/content.js, lines 174-179)

    The counts of that score are whole numbers and its other numbers are
    finite, not negative and multiples of [2^-53]: such a double [d] is
    kept as the integer [d * 2^53].  Each operation of the arithmetic of
    doubles returns its exact result rounded to the nearest number with 53
    significant bits, to the even one of two nearest.  (Overflow would
    need a text of more than [2^900] characters.) *)

Module Double.
Import PrimFloat.

(** The nearest number with 53 significant bits, the even one of two
    nearest. *)
Definition round53 (x : Z) : Z :=
  let bits := (Z.log2 x + 1)%Z in
  if (bits <=? 53)%Z then x
  else let k := (bits - 53)%Z in
       let q := (x / 2 ^ k)%Z in
       let r := (x mod 2 ^ k)%Z in
       let half := (2 ^ (k - 1))%Z in
       ((if (half <? r)%Z || ((r =? half)%Z && Z.odd q) then q + 1 else q)
        * 2 ^ k)%Z.

(** The literal [0.6] is the double [5404319552844595 * 2^-53]. *)
Definition six_tenths : Z := 5404319552844595.
Definition whole (n : Z) : Z := (n * 2 ^ 53)%Z.

(** [n * x] for a count [n]. *)
Definition times (n : nat) (x : Z) : Z :=
  round53 (round53 (Z.of_nat n) * x).

(** [x + y] *)
Definition plus (x y : Z) : Z := round53 (x + y).

(** [x - y], which may be negative. *)
Definition minus (x y : Z) : Z :=
  (Z.sgn (x - y) * round53 (Z.abs (x - y)))%Z.

(** [(length * 0.6) + (paragraphs * 100) + (images * 50)] *)
Definition blockScore (length paragraphs images : nat) : Z :=
  plus (plus (times length six_tenths) (times paragraphs (whole 100)))
       (times images (whole 50)).

(** The same expression in the binary64 arithmetic of the kernel, and the
    integer that stands for a double. *)
Definition count (n : nat) : float := of_uint63 (Uint63.of_Z (Z.of_nat n)).

Definition binary64 (length paragraphs images : nat) : float :=
  (count length * 0x1.3333333333333p-1 + count paragraphs * 100
   + count images * 50)%float.

Definition scaled (d : float) : option Z :=
  match Prim2SF d with
  | S754_zero _ => Some 0%Z
  | S754_finite false m e =>
      if (0 <=? e + 53)%Z then Some (Z.pos m * 2 ^ (e + 53))%Z else None
  | _ => None
  end.

End Double.

(** ** The content script: [extractMainContent] (src/content.js, lines
    16-37 and 60-208) *)

Module Page.

(** What the script reads of an element: three properties of its computed
    style ([opacity] after [parseFloat]), its box, its text, the text of its
    clone without the script and style elements, its class name and id (a
    missing one is the empty string), and the numbers of [p] and [img]
    elements in it. *)
Record element := {
  display : jsstring;
  visibility : jsstring;
  opacity : number;
  offsetWidth : Z;
  offsetHeight : Z;
  textContent : jsstring;
  strippedText : jsstring;
  className : jsstring;
  elementId : jsstring;
  paragraphCount : nat;
  imageCount : nat
}.

(** [isVisible(element)] for an element that exists. *)
Definition isVisible (el : element) : bool :=
  negb (bool_decide (display el = js "none"))
  && negb (bool_decide (visibility el = js "hidden"))
  && (Fin 0 < opacity el)%js
  && (0 <? offsetWidth el)%Z
  && (0 <? offsetHeight el)%Z.

(** [getTextContent(element)] *)
Definition getTextContent (el : element) : jsstring := trim (strippedText el).

(** The article [reader.parse()] returns. *)
Record article := {
  articleTitle : jsstring;
  articleText : option jsstring;
  excerpt : option jsstring;
  byline : option jsstring;
  siteName : option jsstring
}.

(** What the script reads of the document: its title; the article of the
    [try] block ([None] when the library is missing, or when parsing throws
    or returns [null]); for each selector of [mainSelectors], in order, the
    elements [querySelectorAll] gives; the [div], [section] and [article]
    elements; the [p] elements; and the inner text of the body. *)
Record document := {
  title : jsstring;
  readable : option article;
  selected : list (list element);
  blocks : list element;
  paragraphs : list element;
  bodyText : jsstring
}.

(** The object the function returns; [details] is the article on the
    first path, whose [excerpt], [byline] and [siteName] it carries. *)
Record extraction := {
  extractedTitle : jsstring;
  content : jsstring;
  details : option article
}.

(** Lines 85-94. *)
Definition fromReadability (doc : document) : option extraction :=
  match readable doc with
  | Some a =>
      match articleText a with
      | Some (c :: t) =>
          if (300 <? length (trim (c :: t)))
          then Some {| extractedTitle := articleTitle a;
                       content := Content.cleanText (c :: t);
                       details := Some a |}
          else None
      | _ => None
      end
  | None => None
  end.

(** The test of the inner loop (lines 139-142). *)
Definition largeEnough (el : element) : bool :=
  negb (offsetHeight el <? 200)%Z && (300 <? length (getTextContent el)).

(** Lines 133-150: the first element, over the selectors in order, that is
    visible and large enough. *)
Definition fromSelectors (doc : document) : option extraction :=
  match List.find largeEnough
                  (concat (map (List.filter isVisible) (selected doc))) with
  | Some el => Some {| extractedTitle := title doc;
                       content := Content.cleanText (getTextContent el);
                       details := None |}
  | None => None
  end.

(** The words of [skipPatterns].  Class names and ids are lower-cased over
    A-Z; the code units outside A-Z whose lower case holds a letter a-z
    cannot complete one of these words. *)
Definition skipPatterns : list jsstring :=
  map js ["header"; "footer"; "nav"; "menu"; "comment"; "sidebar";
          "related"; "share"; "meta"; "promo"; "ad"; "banner"]%string.

(** [skipPatterns.test(s)] *)
Definition skipped (s : jsstring) : bool :=
  existsb (includes s) skipPatterns.

(** The predicate of the filter (lines 154-166). *)
Definition isCandidate (el : element) : bool :=
  isVisible el
  && negb (skipped (toLowerCase (className el))
           || skipped (toLowerCase (elementId el)))
  && (300 <? length (getTextContent el))
  && (2 <? paragraphCount el).

Record candidate := {
  candidateElement : element;
  candidateText : jsstring;
  candidateParagraphs : nat;
  candidateImages : nat
}.

(** Lines 153-172. *)
Definition candidates (doc : document) : list candidate :=
  map (λ el, {| candidateElement := el;
                candidateText := getTextContent el;
                candidateParagraphs := paragraphCount el;
                candidateImages := imageCount el |})
      (List.filter isCandidate (blocks doc)).

(** [(a.text.length * 0.6) + (a.paragraphs * 100) + (a.images * 50)], as
    a double. *)
Definition blockScore (a : candidate) : Z :=
  Double.blockScore (length (candidateText a)) (candidateParagraphs a)
                    (candidateImages a).

(** The comparison function of line 174 gives a positive number. *)
Definition afterByBlockScore (a b : candidate) : bool :=
  (0 <? Double.minus (blockScore b) (blockScore a))%Z.

(** Lines 174-187. *)
Definition fromLargestBlock (doc : document) : option extraction :=
  match sortBy afterByBlockScore (candidates doc) with
  | best :: _ => Some {| extractedTitle := title doc;
                         content := Content.cleanText (candidateText best);
                         details := None |}
  | [] => None
  end.

(** Lines 190-200. *)
Definition paragraphTexts (doc : document) : list jsstring :=
  map (λ p, trim (textContent p))
      (List.filter (λ p, isVisible p && (40 <? length (trim (textContent p))))
                   (paragraphs doc)).

Definition fromParagraphs (doc : document) : option extraction :=
  match paragraphTexts doc with
  | [] => None
  | texts => Some {| extractedTitle := title doc;
                     content := Content.cleanText (join texts);
                     details := None |}
  end.

(** Lines 204-207. *)
Definition fromBody (doc : document) : extraction :=
  {| extractedTitle := title doc;
     content := Content.cleanText (bodyText doc);
     details := None |}.

(** [extractMainContent()] *)
Definition extractMainContent (doc : document) : extraction :=
  match fromReadability doc with
  | Some r => r
  | None =>
      match fromSelectors doc with
      | Some r => r
      | None =>
          match fromLargestBlock doc with
          | Some r => r
          | None =>
              match fromParagraphs doc with
              | Some r => r
              | None => fromBody doc
              end
          end
      end
  end.

(** The body of the interval callback of [waitForContentStabilization]
    (lines 266-275): whether the wait ends at this check.  [now1] and
    [now2] are the two readings of the clock, in milliseconds. *)
Definition waitEnds (lastChangeTime maxWaitTime now1 now2 : Z) : bool :=
  if (1000 <? now1 - lastChangeTime)%Z then true
  else if (maxWaitTime <? now2 - lastChangeTime)%Z then true
  else false.

End Page.

(** A visible block whose text is [size] times the letter x, and a
    document with two blocks: one of 551 characters with three paragraphs,
    then one of 301 characters with three paragraphs and three images.
    Their scores are [551 * 0.6 + 300] and [301 * 0.6 + 450 + 150]. *)
Definition plainBlock (size paragraphs images : nat) : Page.element :=
  {| Page.display := js "block"; Page.visibility := js "visible";
     Page.opacity := Fin 1; Page.offsetWidth := 800; Page.offsetHeight := 600;
     Page.textContent := replicate size 120%N;
     Page.strippedText := replicate size 120%N;
     Page.className := js "post-body"; Page.elementId := [];
     Page.paragraphCount := paragraphs; Page.imageCount := images |}.

Definition twoBlocks : Page.document :=
  {| Page.title := js "A page"; Page.readable := None; Page.selected := [];
     Page.blocks := [plainBlock 551 3 0; plainBlock 301 3 3];
     Page.paragraphs := []; Page.bodyText := [] |}.

(** The filter without the tests for [= ], braces, a leading caret and a
    leading number: the tests that can still reject a sentence of a cleaned
    text. *)
Definition liveFilter (s : jsstring) : bool :=
  if (length (splitSpaces s) <? 4) || (length s <? 20) then false
  else if includes s (js "import ") || includes s (js "def ") then false
  else if startsWith s (js "http") then false
  else if includes (toLowerCase s) (js "click here")
          || includes (toLowerCase s) (js "next page") then false
  else true.

(** A page that answers with the cleaned cat text, and a popup with
    everything hidden. *)
Definition catPage : surroundings :=
  {| queried := Fulfilled (Some {| tabUrl := Some (js "https://a.b") |});
     replied := Fulfilled (Some {| content := Some catCleaned |});
     selectValue := js "7" |}.

Definition silentPage : surroundings :=
  {| queried := Fulfilled (Some {| tabUrl := Some (js "https://a.b") |});
     replied := Rejected (js "Message timeout: No response received");
     selectValue := js "7" |}.

Definition blankPopup : popup :=
  {| loaderHidden := true; summaryHidden := true; errorHidden := true;
     summaryText := []; wordCountText := []; errorText := [];
     status := None |}.

Definition blankWorld : world := {| shown := blankPopup; calls := [] |}.

(** The popup after a click on [catPage] alone, and after a click on
    [silentPage] alone. *)
Definition catShown : popup :=
  {| loaderHidden := true; summaryHidden := false; errorHidden := true;
     summaryText := catCleaned; wordCountText := js "33 words";
     errorText := []; status := None |}.

Definition silentShown : popup :=
  {| loaderHidden := true; summaryHidden := true; errorHidden := false;
     summaryText := []; wordCountText := [];
     errorText := js "Page took too long to respond. Please refresh and try again.";
     status := None |}.

(** Two clicks one after the other before any promise settles; then the
    second call runs to its end on [catPage], and then the first on
    [silentPage]; and the world after these events. *)
Definition overlapped : world :=
  {| shown := {| loaderHidden := true; summaryHidden := false;
                 errorHidden := false; summaryText := catCleaned;
                 wordCountText := js "33 words";
                 errorText := errorText silentShown; status := None |};
     calls := [Finished; Finished] |}.

Definition overlappingClicks : list event :=
  [Click; Click;
   TabsQueried 1 (queried catPage); ScriptsInjected 1; DelayOver 1;
   Replied 1 (replied catPage) (selectValue catPage);
   TabsQueried 0 (queried silentPage); ScriptsInjected 0; DelayOver 0;
   Replied 0 (replied silentPage) (selectValue silentPage)].

(** ** Properties *)

(** *** The scanners on small inputs *)

Example removeCitations_examples :
  removeCitations (js "a[1]b[c") = js "ab[c"
  ∧ removeCitations (js "x[a[b]c]y") = js "xc]y"
  ∧ removeCitations (js "[a" ++ [10%N] ++ js "b]c") = js "c".
Proof. vm_compute. repeat split; reflexivity. Qed.

Example removeCarets_examples :
  removeCarets (js "ab^cd" ++ [10%N] ++ js "e^") = js "ab" ++ [10%N] ++ js "e"
  ∧ removeCarets (js "^^") = [].
Proof. vm_compute. repeat split; reflexivity. Qed.

Example removeUrls_examples :
  removeUrls (js "see https://a.b/c?d now") = js "see  now"
  ∧ removeUrls (js "xhttp://a") = js "x"
  ∧ removeUrls (js "http:// a https://") = js "http:// a https://"
  ∧ removeUrls (js "https:/a") = js "https:/a".
Proof. vm_compute. repeat split; reflexivity. Qed.

Example removeParens_examples :
  removeParens (js "a (b) c (d") = js "a  c (d"
  ∧ removeParens (js "((a) b)") = js " b)"
  ∧ removeParens (js "(a" ++ [10%N] ++ js "b) (c)")
    = js "(a" ++ [10%N] ++ js "b) ".
Proof. vm_compute. repeat split; reflexivity. Qed.

Example collapseSpaces_examples :
  collapseSpaces ([9%N; 32%N] ++ js "a" ++ [10%N; 13%N; 160%N] ++ js "b ")
  = js " a b ".
Proof. vm_compute. reflexivity. Qed.

Example trim_examples :
  trim (js "  a b " ++ [10%N]) = js "a b" ∧ trim (js "   ") = [].
Proof. vm_compute. repeat split; reflexivity. Qed.

Example segment_examples :
  segment (js "...a b.c!?'d e." ++ [34%N] ++ js "f ! g")
  = [js "a b."; js "c!?'"; js "d e." ++ [34%N]; js "f !"; js " g"]
  ∧ segment [] = []
  ∧ segment (js "?!") = [].
Proof. vm_compute. repeat split; reflexivity. Qed.

Example splitSpaces_examples :
  splitSpaces (js " a  b ") = [[]; js "a"; js "b"; []]
  ∧ splitSpaces [] = [[]]
  ∧ splitSpaces (js "a.b") = [js "a.b"].
Proof. vm_compute. repeat split; reflexivity. Qed.

Example numbered_examples :
  map numbered [js "12. a"; js " 1.a"; js "a 1."; js "12 ."; js "1"]
  = [true; true; false; false; false].
Proof. vm_compute. reflexivity. Qed.

Example wordsOf_examples :
  wordsOf (js "The cat's_9 Mat.") = [js "the"; js "cat"; js "s_9"; js "mat"]
  ∧ phrasesOf [js "a"; js "b"; js "c"] = [(js "a", js "b"); (js "b", js "c")]
  ∧ phrasesOf [js "a"] = []
  ∧ phraseKey (js "cat", js "sat") = js "cat sat".
Proof. vm_compute. repeat split; reflexivity. Qed.

Example slice0_examples :
  slice0 [1; 2; 3] 2 = [1; 2] ∧ slice0 [1; 2; 3] 5 = [1; 2; 3]
  ∧ slice0 [1; 2; 3] 0 = [] ∧ slice0 [1; 2; 3] (-1) = [1; 2]
  ∧ slice0 [1; 2; 3] (-4) = [].
Proof. vm_compute. repeat split; reflexivity. Qed.

(** The sort keeps the order of elements the comparison does not
    separate. *)
Example sortBy_examples :
  sortBy (λ a b : nat * nat, a.1 <? b.1) [(1, 0); (2, 1); (1, 2); (2, 3)]
  = [(2, 1); (2, 3); (1, 0); (1, 2)].
Proof. vm_compute. reflexivity. Qed.

Example increment_examples :
  increment ∅ (js "cat") !! js "cat" = Some (VNumber 1)
  ∧ increment (increment ∅ (js "cat")) (js "cat") !! js "cat"
    = Some (VNumber 2)
  ∧ getProperty ∅ (js "constructor") = Some VObject
  ∧ increment ∅ (js "constructor") !! js "constructor" = Some VString
  ∧ increment ∅ (js "__proto__") = ∅
  ∧ getProperty ∅ (js "tostring") = None.
Proof. vm_compute. repeat split; reflexivity. Qed.

(** The empty text and a text of code-like sentences give the empty
    summary. *)
Example empty_summaries :
  extractiveSummarize [] 5 = []
  ∧ extractiveSummarize
      (js "import foo" ++ [10%N] ++ js "def bar(): x = 1 {}") 5 = [].
Proof. vm_compute. repeat split; reflexivity. Qed.

(** *** Strings *)


Lemma trimStart_id (s : jsstring) :
  (∀ c, head s = Some c → is_space c = false) → trimStart s = s.
Proof.
  destruct s as [|c s]; simpl; [done|]. intros H. by rewrite (H c).
Qed.

Lemma trimStart_head (s : jsstring) (c : N) :
  head (trimStart s) = Some c → is_space c = false.
Proof.
  induction s as [|d s IH]; simpl; [done|].
  destruct (is_space d) eqn:E; [done|]. simpl. by intros [= <-].
Qed.

Lemma trimStart_idem (s : jsstring) : trimStart (trimStart s) = trimStart s.
Proof. apply trimStart_id, trimStart_head. Qed.

Lemma trimStart_suffix (s : jsstring) : trimStart s `suffix_of` s.
Proof.
  induction s as [|c s IH]; simpl; [done|].
  destruct (is_space c); [by apply suffix_cons_r|done].
Qed.

Lemma trimEnd_prefix (s : jsstring) : trimEnd s `prefix_of` s.
Proof.
  unfold trimEnd. destruct (trimStart_suffix (rev s)) as [k Hk].
  exists (rev k). apply (f_equal (@rev N)) in Hk.
  by rewrite rev_app_distr, rev_involutive in Hk.
Qed.

Lemma trimEnd_idem (s : jsstring) : trimEnd (trimEnd s) = trimEnd s.
Proof. unfold trimEnd. by rewrite rev_involutive, trimStart_idem. Qed.


Lemma trim_head (s : jsstring) (c : N) :
  head (trim s) = Some c → is_space c = false.
Proof.
  unfold trim. intros H. destruct (trimEnd_prefix (trimStart s)) as [k Hk].
  apply (trimStart_head s). rewrite Hk.
  destruct (trimEnd (trimStart s)); [done|]. done.
Qed.

Lemma trim_idem (s : jsstring) : trim (trim s) = trim s.
Proof.
  unfold trim at 1. rewrite trimStart_id by apply trim_head.
  unfold trim. apply trimEnd_idem.
Qed.

(** *** Sorting and slicing *)

Section SortFacts.
Context {A : Type} (after : A → A → bool).

Lemma insertSorted_perm (x : A) (l : list A) :
  insertSorted after x l ≡ₚ x :: l.
Proof.
  induction l as [|y l IH]; simpl; [done|].
  destruct (after x y); [|done].
  rewrite IH. apply Permutation_swap.
Qed.

Lemma sortBy_perm (l : list A) : sortBy after l ≡ₚ l.
Proof.
  induction l as [|x l IH]; simpl; [done|].
  by rewrite insertSorted_perm, IH.
Qed.

Lemma sortBy_length (l : list A) : length (sortBy after l) = length l.
Proof. by rewrite sortBy_perm. Qed.

(** When the comparison decides a total preorder [le], the result is
    sorted by it. *)
Context (le : A → A → Prop) `{!Transitive le}.
Hypothesis after_false : ∀ x y, after x y = false → le x y.
Hypothesis after_true : ∀ x y, after x y = true → le y x.

Lemma insertSorted_sorted (x : A) (l : list A) :
  StronglySorted le l → StronglySorted le (insertSorted after x l).
Proof.
  induction 1 as [|y l Hl IH Hy]; simpl.
  - repeat constructor.
  - destruct (after x y) eqn:E.
    + constructor; [done|].
      rewrite insertSorted_perm. constructor; [by apply after_true|done].
    + apply after_false in E. constructor; [by constructor|].
      constructor; [done|].
      eapply Forall_impl; [exact Hy|]. intros z Hz. by etrans.
Qed.

Lemma sortBy_sorted (l : list A) : StronglySorted le (sortBy after l).
Proof.
  induction l as [|x l IH]; simpl; [constructor|].
  by apply insertSorted_sorted.
Qed.
End SortFacts.

Lemma seq_sorted (j n : nat) : StronglySorted lt (seq j n).
Proof.
  revert j. induction n as [|n IH]; intros j; simpl; constructor; [done|].
  apply Forall_forall. intros i [? _]%elem_of_seq. lia.
Qed.

Lemma slice0_sublist {A} (l : list A) (n : Z) : slice0 l n `sublist_of` l.
Proof. apply sublist_take. Qed.

Lemma slice0_length {A} (l : list A) (n : Z) :
  Z.of_nat (length (slice0 l n)) =
  if (n <? 0)%Z then Z.max (Z.of_nat (length l) + n) 0
  else Z.min n (Z.of_nat (length l)).
Proof.
  unfold slice0. rewrite length_take. destruct (n <? 0)%Z eqn:E; lia.
Qed.

(** *** The pipeline *)

Lemma extractiveSummarize_join (text : jsstring) (n : Z) :
  extractiveSummarize text n = join (summarySentences text n).
Proof.
  unfold extractiveSummarize, summarySentences.
  by destruct (_ <=? _)%Z.
Qed.

Lemma extractiveSummarize_summarizeWith (text : jsstring) (n : Z) :
  extractiveSummarize text n = summarizeWith sentenceScores text n.
Proof. reflexivity. Qed.

Lemma validSentences_filter (text s : jsstring) :
  s ∈ validSentences text → sentenceFilter s = true.
Proof.
  unfold validSentences. rewrite list_elem_of_In, filter_In. tauto.
Qed.

Lemma validSentences_trimmed (text s : jsstring) :
  s ∈ validSentences text → trim s = s.
Proof.
  unfold validSentences. rewrite list_elem_of_In, filter_In, in_map_iff.
  intros [(t & <- & _) _]. apply trim_idem.
Qed.

Lemma sentenceScores_index (valid : list jsstring) :
  originalIndex <$> sentenceScores valid = seq 0 (length valid).
Proof.
  unfold sentenceScores. rewrite fmap_imap.
  etrans; [|etrans; [apply (imap_seq_0 valid (λ i : nat, i))|apply list_fmap_id]].
  by apply imap_ext.
Qed.

Lemma sentenceScores_sentence (valid : list jsstring) (e : ScoredSentence) :
  e ∈ sentenceScores valid →
  ∃ s, valid !! originalIndex e = Some s ∧ sentence e = trim s.
Proof.
  unfold sentenceScores. intros (i & s & -> & Hs)%elem_of_lookup_imap.
  by exists s.
Qed.

Lemma selection_submseteq (valid : list jsstring) (n : Z) :
  selection valid n ⊆+ sentenceScores valid.
Proof.
  unfold selection. rewrite sortBy_perm.
  etrans; [apply sublist_submseteq, slice0_sublist|].
  by rewrite sortBy_perm.
Qed.

Lemma selection_length (valid : list jsstring) (n : Z) :
  Z.of_nat (length (selection valid n)) =
  if (n <? 0)%Z then Z.max (Z.of_nat (length valid) + n) 0
  else Z.min n (Z.of_nat (length valid)).
Proof.
  unfold selection. rewrite sortBy_length, slice0_length, sortBy_length.
  unfold sentenceScores. by rewrite length_imap.
Qed.

Lemma selection_sorted (valid : list jsstring) (n : Z) :
  StronglySorted lt (originalIndex <$> selection valid n).
Proof.
  assert (NoDup (originalIndex <$> selection valid n)) as Hnd.
  { pose proof (selection_submseteq valid n) as Hsub.
    apply (fmap_submseteq originalIndex) in Hsub.
    rewrite sentenceScores_index in Hsub.
    apply submseteq_Permutation in Hsub as [k Hk].
    pose proof (NoDup_seq 0 (length valid)) as Hseq.
    rewrite Hk in Hseq. by apply NoDup_app in Hseq as [? _]. }
  assert (StronglySorted le (originalIndex <$> selection valid n)) as Hle.
  { apply StronglySorted_fmap with (R1 := λ a b, originalIndex a ≤ originalIndex b);
      [done|].
    unfold selection, afterByIndex. apply sortBy_sorted.
    - intros x y z. lia.
    - intros x y H%Nat.ltb_ge. lia.
    - intros x y H%Nat.ltb_lt. lia. }
  induction Hle as [|i l Hl IH Hi]; [constructor|].
  apply NoDup_cons in Hnd as [Hnotin Hnd].
  constructor; [by apply IH|].
  apply Forall_forall. intros j Hj.
  rewrite Forall_forall in Hi. specialize (Hi j Hj).
  assert (i ≠ j) by (intros ->; done). lia.
Qed.

Lemma selection_lookup (text : jsstring) (n : Z) (e : ScoredSentence) :
  e ∈ selection (validSentences text) n →
  validSentences text !! originalIndex e = Some (sentence e).
Proof.
  intros He. eapply elem_of_submseteq in He; [|apply selection_submseteq].
  apply sentenceScores_sentence in He as (s & Hs & ->).
  rewrite Hs. f_equal. symmetry. apply (validSentences_trimmed text).
  by eapply list_elem_of_lookup_2.
Qed.

Lemma summarySentences_valid (text : jsstring) (n : Z) (s : jsstring) :
  s ∈ summarySentences text n → s ∈ validSentences text.
Proof.
  unfold summarySentences. destruct (_ <=? _)%Z; [done|].
  unfold topSentences. intros (e & -> & He)%list_elem_of_fmap.
  eapply list_elem_of_lookup_2, selection_lookup, He.
Qed.

Lemma includes_single (s : jsstring) (c : N) :
  includes s [c] = false → c ∉ s.
Proof.
  induction s as [|d s IH]; [intros _; apply not_elem_of_nil|].
  cbn [includes startsWith]. destruct (N.eqb_spec c d) as [->|Hne].
  - by destruct s.
  - intros Hs. apply not_elem_of_cons. split; [done|]. by apply IH.
Qed.

Lemma sentenceFilter_long (s : jsstring) :
  sentenceFilter s = true → 20 ≤ length s.
Proof.
  unfold sentenceFilter.
  destruct (length (splitSpaces s) <? 4); simpl; [done|].
  destruct (length s <? 20) eqn:E; [done|]. by apply Nat.ltb_ge in E.
Qed.

Lemma sentenceFilter_braces (s : jsstring) :
  sentenceFilter s = true → (123%N ∉ s) ∧ (125%N ∉ s).
Proof.
  unfold sentenceFilter. destruct (_ || _); [done|].
  destruct (includes s (js "import ") || includes s (js "def ")
            || includes s (js "= ")) eqn:E1; simpl; [done|].
  destruct (includes s (js "{")) eqn:E2; simpl; [done|].
  destruct (includes s (js "}")) eqn:E3; simpl; [done|].
  intros _. split; by apply includes_single.
Qed.

Lemma catText_valid : validSentences catText = [catFirst; catSecond; catThird].
Proof. vm_compute. reflexivity. Qed.

Lemma foxText_valid : validSentences foxText = [foxText].
Proof. vm_compute. reflexivity. Qed.

(** *** The claims about selection *)

(** C4.  When the surviving sentences number at most the requested count,
    the function returns all of them joined by single spaces in their
    original order, whatever the table and scoring phase would compute (it
    is not consulted); in particular three surviving sentences and a count
    of five give the three sentences. *)
Theorem short_circuit (text : jsstring) (n : Z) :
  (Z.of_nat (length (validSentences text)) ≤ n)%Z →
  extractiveSummarize text n = join (validSentences text)
  ∧ (∀ scoring, summarizeWith scoring text n = join (validSentences text))
  ∧ (length (validSentences text) = 3 → n = 5%Z →
     ∃ s1 s2 s3, validSentences text = [s1; s2; s3]
       ∧ extractiveSummarize text n = s1 ++ SPACE :: s2 ++ SPACE :: s3).
Proof.
  intros Hle. apply Z.leb_le in Hle.
  unfold extractiveSummarize, summarizeWith. simpl. rewrite Hle.
  split; [done|]. split; [done|].
  intros Hlen _. destruct (validSentences text) as [|s1 [|s2 [|s3 [|? ?]]]];
    try done.
  by exists s1, s2, s3.
Qed.

Lemma short_circuit_witness :
  (Z.of_nat (length (validSentences catText)) ≤ 5)%Z
  ∧ extractiveSummarize catText 5 = join (validSentences catText).
Proof.
  assert (Z.of_nat (length (validSentences catText)) ≤ 5)%Z as H
    by (rewrite catText_valid; simpl; lia).
  split; [exact H|]. exact (proj1 (short_circuit catText 5 H)).
Defined.

(** C9.  No sentence of the summary contains a brace (code units 123 and
    125), and none is shorter than 20 characters. *)
Theorem summary_filter_correct (text : jsstring) (n : Z) (s : jsstring) :
  s ∈ summarySentences text n →
  (123%N ∉ s) ∧ (125%N ∉ s) ∧ 20 ≤ length s.
Proof.
  intros Hs%summarySentences_valid%validSentences_filter.
  destruct (sentenceFilter_braces s Hs). split; [done|]. split; [done|].
  by apply sentenceFilter_long.
Qed.

Lemma summary_filter_correct_witness :
  catSecond ∈ summarySentences catText 3
  ∧ (123%N ∉ catSecond) ∧ (125%N ∉ catSecond) ∧ 20 ≤ length catSecond.
Proof.
  assert (catSecond ∈ summarySentences catText 3) as H.
  { unfold summarySentences. rewrite catText_valid. simpl.
    apply list_elem_of_further, list_elem_of_here. }
  split; [exact H|]. exact (summary_filter_correct catText 3 catSecond H).
Defined.

(** C3.  The sentences of the summary are surviving sentences taken at
    strictly increasing original indices, for every text and every
    count. *)
Theorem order_preserved (text : jsstring) (n : Z) :
  ∃ indices : list nat,
    StronglySorted lt indices
    ∧ Forall2 (λ i s, validSentences text !! i = Some s)
              indices (summarySentences text n)
    ∧ extractiveSummarize text n = join (summarySentences text n).
Proof.
  pose proof (extractiveSummarize_join text n) as Hjoin.
  unfold summarySentences in *. simpl in *.
  destruct (_ <=? _)%Z.
  - exists (seq 0 (length (validSentences text))).
    split; [|split; [|done]].
    + apply seq_sorted.
    + apply Forall2_same_length_lookup. split; [by rewrite length_seq|].
      intros i j s Hi Hs. apply lookup_seq in Hi as [-> _]. done.
  - exists (originalIndex <$> selection (validSentences text) n).
    split; [apply selection_sorted|]. split; [|done].
    unfold topSentences. apply Forall2_fmap.
    apply Forall_Forall2_diag, Forall_forall. intros e He. simpl.
    by apply selection_lookup with n.
Qed.

Lemma summarySentences_length (text : jsstring) (n : Z) :
  Z.of_nat (length (summarySentences text n)) =
  if (Z.of_nat (length (validSentences text)) <=? n)%Z
  then Z.of_nat (length (validSentences text))
  else if (n <? 0)%Z
       then Z.max (Z.of_nat (length (validSentences text)) + n) 0
       else Z.min n (Z.of_nat (length (validSentences text))).
Proof.
  unfold summarySentences. cbv zeta. destruct (_ <=? _)%Z; [done|].
  unfold topSentences. by rewrite length_map, selection_length.
Qed.

Lemma catText_valid_length : length (validSentences catText) = 3.
Proof. by rewrite catText_valid. Qed.

Lemma foxText_valid_length : length (validSentences foxText) = 1.
Proof. by rewrite foxText_valid. Qed.

(** C5, as stated, fails for a negative count: with three surviving
    sentences and a count of -1 the summary has two sentences, and the
    minimum of the two numbers is -1. *)
Lemma bounded_output_size_counterexample :
  length (validSentences catText) = 3
  ∧ length (summarySentences catText (-1)) = 2
  ∧ Z.of_nat (length (summarySentences catText (-1)))
    ≠ Z.min (-1) (Z.of_nat (length (validSentences catText))).
Proof.
  pose proof (summarySentences_length catText (-1)) as H.
  rewrite catText_valid_length in *.
  change (Z.of_nat (length (summarySentences catText (-1))) = 2%Z) in H.
  split; [done|]. split; lia.
Qed.

(** C5, amended.  For a count that is not negative the summary has
    min(count, number of surviving sentences) sentences: all of them when
    they number at most the count, exactly the count otherwise. *)
Theorem bounded_output_size (text : jsstring) (n : Z) :
  (0 ≤ n)%Z →
  Z.of_nat (length (summarySentences text n))
  = Z.min n (Z.of_nat (length (validSentences text)))
  ∧ ((Z.of_nat (length (validSentences text)) ≤ n)%Z →
     summarySentences text n = validSentences text)
  ∧ ((n < Z.of_nat (length (validSentences text)))%Z →
     Z.of_nat (length (summarySentences text n)) = n).
Proof.
  intros Hn. pose proof (summarySentences_length text n) as H.
  split; [|split].
  - destruct (Z.leb_spec (Z.of_nat (length (validSentences text))) n);
      destruct (Z.ltb_spec n 0); lia.
  - intros Hle%Z.leb_le. unfold summarySentences. cbv zeta. by rewrite Hle.
  - intros Hlt. destruct (Z.leb_spec (Z.of_nat (length (validSentences text))) n);
      destruct (Z.ltb_spec n 0); lia.
Qed.

Lemma bounded_output_size_witness :
  (0 ≤ 2)%Z
  ∧ Z.of_nat (length (summarySentences catText 2))
    = Z.min 2 (Z.of_nat (length (validSentences catText))).
Proof.
  assert (0 ≤ 2)%Z as H by lia.
  split; [exact H|]. exact (proj1 (bounded_output_size catText 2 H)).
Defined.

(** C1, as stated, fails: for the one-sentence text and a count of 0 the
    result is the empty string, which is neither the result for the count 5
    nor the result for the count 1 (both are the sentence). *)
Lemma nonpositive_count_counterexample :
  validSentences foxText = [foxText]
  ∧ extractiveSummarize foxText 0 = []
  ∧ extractiveSummarize foxText 5 = foxText
  ∧ extractiveSummarize foxText 1 = foxText
  ∧ extractiveSummarize foxText 0 ≠ extractiveSummarize foxText 5
  ∧ extractiveSummarize foxText 0 ≠ extractiveSummarize foxText 1.
Proof.
  assert (extractiveSummarize foxText 0 = []) as H0.
  { rewrite extractiveSummarize_join.
    pose proof (summarySentences_length foxText 0) as H.
    rewrite foxText_valid_length in H.
    change (Z.of_nat (length (summarySentences foxText 0)) = 0%Z) in H.
    apply Nat2Z.inj_iff with (m := 0), nil_length_inv in H. by rewrite H. }
  assert (extractiveSummarize foxText 5 = foxText) as H5.
  { unfold extractiveSummarize. cbv zeta. rewrite foxText_valid. reflexivity. }
  assert (extractiveSummarize foxText 1 = foxText) as H1.
  { unfold extractiveSummarize. cbv zeta. rewrite foxText_valid. reflexivity. }
  rewrite H0, H5, H1.
  split; [apply foxText_valid|]. do 3 (split; [reflexivity|]).
  split; discriminate.
Qed.

(** C1, amended.  For a count that is zero or negative the function
    returns without a fault and substitutes no default: for 0 the result
    is the empty string; for a negative count -k it is made of
    max(m - k, 0) of the m surviving sentences.  The fallback to 5 is at
    the call site and covers a count of 0 and a count that is not a
    number; a negative count passes through. *)
Theorem nonpositive_count (text : jsstring) (n : Z) :
  (n ≤ 0)%Z →
  extractiveSummarize text n = join (summarySentences text n)
  ∧ (n = 0%Z → extractiveSummarize text n = [])
  ∧ ((n < 0)%Z →
     Z.of_nat (length (summarySentences text n))
     = Z.max (Z.of_nat (length (validSentences text)) + n) 0)
  ∧ sentenceCountOr5 (Some 0%Z) = 5%Z
  ∧ sentenceCountOr5 None = 5%Z
  ∧ ((n < 0)%Z → sentenceCountOr5 (Some n) = n).
Proof.
  intros Hn. pose proof (summarySentences_length text n) as H.
  split; [apply extractiveSummarize_join|]. split; [|split].
  - intros ->. rewrite extractiveSummarize_join.
    destruct (summarySentences text 0) as [|s l]; [reflexivity|].
    cbn [length] in H.
    destruct (Z.leb_spec (Z.of_nat (length (validSentences text))) 0);
      cbn [Z.ltb Z.compare] in H; lia.
  - intros Hlt.
    destruct (Z.leb_spec (Z.of_nat (length (validSentences text))) n);
      destruct (Z.ltb_spec n 0); lia.
  - split; [reflexivity|]. split; [reflexivity|]. intros Hlt.
    destruct n; [lia|lia|reflexivity].
Qed.

Lemma nonpositive_count_witness :
  (-1 ≤ 0)%Z
  ∧ Z.of_nat (length (summarySentences catText (-1))) = 2%Z.
Proof.
  assert (-1 ≤ 0)%Z as H by lia. split; [exact H|].
  destruct (nonpositive_count catText (-1) H) as (_ & _ & Hlen & _).
  rewrite Hlen by lia. rewrite catText_valid_length. reflexivity.
Defined.

(** *** Cleaning *)

Ltac chars :=
  intros;
  unfold is_clean, is_kept, is_word, is_digit, is_space, is_terminator,
    is_line_terminator, is_quote, in_range, SPACE in *;
  repeat match goal with
         | |- _ = false => apply not_true_is_false; intros ?
         | H : _ = false |- _ => apply not_true_iff_false in H
         end;
  rewrite ?orb_true_iff, ?andb_true_iff, ?N.leb_le, ?N.eqb_eq in *;
  try lia.

Lemma clean_kept (c : N) : is_clean c = true → is_kept c = true.
Proof. chars. Qed.

Lemma clean_space (c : N) :
  is_clean c = true → is_space c = true → c = SPACE.
Proof. chars. Qed.

Lemma clean_not_line_terminator (c : N) :
  is_clean c = true → is_line_terminator c = false.
Proof. chars. Qed.

Lemma clean_not_special (c : N) :
  is_clean c = true →
  c ≠ 91%N ∧ c ≠ 94%N ∧ c ≠ 40%N ∧ c ≠ 58%N.
Proof. chars. Qed.

Lemma kept_space_clean (c : N) :
  is_kept c = true → (is_space c = true → c = SPACE) → is_clean c = true.
Proof.
  intros Hk Hs. destruct (is_space c) eqn:E.
  - rewrite Hs by done. reflexivity.
  - revert Hk. unfold is_kept, is_clean. rewrite E.
    destruct (is_word c), (is_terminator c); simpl; try done.
    by rewrite orb_true_r.
Qed.

Lemma collapseSpaces_from_spaces (b : bool) (s : jsstring) :
  Forall (λ c, is_space c = true → c = SPACE) (collapseSpaces_from b s).
Proof.
  revert b. induction s as [|c s IH]; intros b; simpl; [constructor|].
  destruct (is_space c) eqn:E.
  - destruct b; [apply IH|]. constructor; [done|apply IH].
  - constructor; [|apply IH]. by rewrite E.
Qed.

Lemma trim_infix (s : jsstring) : ∃ k1 k2, s = k1 ++ trim s ++ k2.
Proof.
  destruct (trimStart_suffix s) as [k1 Hk1].
  destruct (trimEnd_prefix (trimStart s)) as [k2 Hk2].
  exists k1, k2. unfold trim. by rewrite <- Hk2.
Qed.

Lemma Forall_trim (P : N → Prop) (s : jsstring) :
  Forall P s → Forall P (trim s).
Proof.
  destruct (trim_infix s) as (k1 & k2 & Hk). rewrite Hk at 1.
  by intros [_ [? _]%Forall_app]%Forall_app.
Qed.

Lemma cleanText_clean (text : jsstring) :
  Forall (λ c, is_clean c = true) (cleanText text).
Proof.
  unfold cleanText. apply Forall_trim. unfold removeSpecial.
  apply Forall_forall. intros c [Hc Hk]%list_elem_of_In%filter_In.
  apply kept_space_clean; [done|].
  pose proof (collapseSpaces_from_spaces false
    (removeParens (removeUrls (removeCarets (removeCitations text))))) as H.
  rewrite Forall_forall in H. apply H. by apply list_elem_of_In.
Qed.

Section CleanIsFixed.
Variable s : jsstring.
Hypothesis Hclean : Forall (λ c, is_clean c = true) s.

Lemma removeCitations_clean : removeCitations s = s.
Proof.
  unfold removeCitations. induction Hclean as [|c t Hc Ht IH]; simpl; [done|].
  destruct (clean_not_special c Hc) as (H91 & _).
  apply N.eqb_neq in H91. rewrite H91. simpl. by rewrite IH.
Qed.

Lemma removeCarets_clean : removeCarets s = s.
Proof.
  unfold removeCarets. induction Hclean as [|c t Hc Ht IH]; simpl; [done|].
  rewrite (clean_not_line_terminator c Hc).
  destruct (clean_not_special c Hc) as (_ & H94 & _).
  apply N.eqb_neq in H94. rewrite H94. by rewrite IH.
Qed.

Lemma removeParens_clean : removeParens s = s.
Proof.
  unfold removeParens. induction Hclean as [|c t Hc Ht IH]; simpl; [done|].
  destruct (clean_not_special c Hc) as (_ & _ & H40 & _).
  apply N.eqb_neq in H40. rewrite H40. simpl. by rewrite IH.
Qed.

Lemma removeSpecial_clean : removeSpecial s = s.
Proof.
  unfold removeSpecial. induction Hclean as [|c t Hc Ht IH]; simpl; [done|].
  by rewrite (clean_kept c Hc), IH.
Qed.
End CleanIsFixed.

Lemma startsWith_prefix (s p : jsstring) :
  startsWith s p = true → p `prefix_of` s.
Proof.
  revert s. induction p as [|a p IH]; intros s; [intros _; apply prefix_nil|].
  destruct s as [|b s]; simpl; [done|].
  intros [->%N.eqb_eq Hp]%andb_true_iff. by apply prefix_cons, IH.
Qed.

Lemma url_at_colon (s : jsstring) : url_at s = true → 58%N ∈ s.
Proof.
  unfold url_at.
  intros [[[k ->]%startsWith_prefix _]%andb_true_iff
         |[[k ->]%startsWith_prefix _]%andb_true_iff]%orb_true_iff;
    apply elem_of_app; left; apply list_elem_of_In; vm_compute; tauto.
Qed.

Lemma removeUrls_clean (s : jsstring) :
  Forall (λ c, is_clean c = true) s → removeUrls s = s.
Proof.
  unfold removeUrls. induction 1 as [|c t Hc Ht IH]; [done|].
  cbn [removeUrls_from]. destruct (url_at (c :: t)) eqn:E; [|by rewrite IH].
  apply url_at_colon in E.
  assert (is_clean 58 = true) as Habs; [|done].
  assert (Forall (λ c, is_clean c = true) (c :: t)) as Hall by by constructor.
  rewrite Forall_forall in Hall. by apply Hall.
Qed.

Lemma collapseSpaces_from_fixed (b : bool) (s : jsstring) :
  single_spaced b s = true → collapseSpaces_from b s = s.
Proof.
  revert b. induction s as [|c s IH]; intros b; simpl; [done|].
  destruct (is_space c).
  - intros [[->%N.eqb_eq Hb%negb_true_iff]%andb_true_iff Hs]%andb_true_iff.
    rewrite Hb. by rewrite IH.
  - intros Hs. by rewrite IH.
Qed.

Lemma collapseSpaces_from_single_spaced (b : bool) (s : jsstring) :
  single_spaced b (collapseSpaces_from b s) = true.
Proof.
  revert b. induction s as [|c s IH]; intros b; simpl; [done|].
  destruct (is_space c) eqn:E.
  - destruct b; [apply IH|]. simpl. apply IH.
  - simpl. rewrite E. apply IH.
Qed.

Lemma collapseSpaces_idem (s : jsstring) :
  collapseSpaces (collapseSpaces s) = collapseSpaces s.
Proof.
  apply collapseSpaces_from_fixed, collapseSpaces_from_single_spaced.
Qed.

Lemma collapseSpaces_from_clean (b : bool) (s : jsstring) :
  Forall (λ c, is_clean c = true) s →
  Forall (λ c, is_clean c = true) (collapseSpaces_from b s).
Proof.
  intros H. revert b. induction H as [|c t Hc Ht IH]; intros b; simpl;
    [constructor|].
  destruct (is_space c); [destruct b|]; try constructor; auto.
Qed.

(** A clean text without two adjacent spaces is single-spaced. *)
Lemma clean_single_spaced (s : jsstring) :
  Forall (λ c, is_clean c = true) s →
  includes s [SPACE; SPACE] = false →
  single_spaced false s = true
  ∧ (head s ≠ Some SPACE → single_spaced true s = true).
Proof.
  induction 1 as [|c t Hc Ht IH]; [done|].
  cbn [includes startsWith single_spaced head].
  intros [Hst Hin]%orb_false_iff. destruct (IH Hin) as [IH1 IH2].
  destruct (is_space c) eqn:E.
  - pose proof (clean_space c Hc E) as ->.
    assert (head t ≠ Some SPACE) as Hhd.
    { destruct t as [|d t]; [done|]. intros [= ->]. by vm_compute in Hst. }
    split; [by rewrite IH2|]. done.
  - split; [done|]. by intros _.
Qed.


Lemma head_rev (s : jsstring) : head (rev s) = last s.
Proof.
  destruct s as [|c s] using rev_ind; [done|].
  by rewrite rev_app_distr, last_snoc.
Qed.

Lemma trimmed_ends (s : jsstring) :
  trim s = s ↔
  (∀ c, head s = Some c → is_space c = false)
  ∧ (∀ c, last s = Some c → is_space c = false).
Proof.
  unfold trim, trimEnd. split.
  - intros H.
    assert (∀ c, head s = Some c → is_space c = false) as Hhd.
    { intros c. rewrite <- H. apply (trim_head s). }
    split; [done|]. intros c Hc.
    rewrite (trimStart_id s) in H by done.
    apply (trimStart_head (rev s)).
    apply (f_equal (@rev N)) in H. rewrite rev_involutive in H. rewrite H.
    by rewrite head_rev.
  - intros [Hhd Hlast]. rewrite (trimStart_id s) by done.
    rewrite trimStart_id; [apply rev_involutive|].
    intros c. rewrite head_rev. apply Hlast.
Qed.

Lemma collapseSpaces_from_last (b : bool) (s : jsstring) (c : N) :
  is_space c = false → last s = Some c →
  last (collapseSpaces_from b s) = Some c.
Proof.
  intros Hc. revert b. induction s as [|d s IH]; intros b; [done|].
  destruct s as [|e s].
  - intros [= ->]. simpl. by rewrite Hc.
  - intros Hl. change (last (e :: s) = Some c) in Hl.
    specialize (IH true Hl) as IHt. specialize (IH false Hl) as IHf.
    cbn [collapseSpaces_from] in *.
    destruct (is_space d); [destruct b|].
    + exact IHt.
    + destruct (is_space e); rewrite last_cons; by rewrite IHt.
    + destruct (is_space e); rewrite last_cons; by rewrite IHf.
Qed.

Lemma collapseSpaces_last_inv (b : bool) (s : jsstring) (c : N) :
  last (collapseSpaces_from b s) = Some c → is_space c = true →
  ∃ d, last s = Some d ∧ is_space d = true.
Proof.
  revert b. induction s as [|d s IH]; intros b; [done|].
  intros Hl Hc. destruct (last s) as [e|] eqn:El.
  - destruct (is_space e) eqn:Ee.
    + exists e. split; [|done]. rewrite last_cons. by rewrite El.
    + pose proof (collapseSpaces_from_last b (d :: s) e Ee) as H.
      rewrite last_cons, El in H. specialize (H eq_refl).
      rewrite H in Hl. injection Hl as ->. congruence.
  - apply last_None in El as ->. exists d. split; [done|].
    simpl in Hl. destruct (is_space d) eqn:Ed; [done|].
    injection Hl as ->. congruence.
Qed.

Lemma collapseSpaces_trimmed (s : jsstring) :
  trim s = s → trim (collapseSpaces s) = collapseSpaces s.
Proof.
  rewrite !trimmed_ends. intros [Hhd Hlast]. split.
  - destruct s as [|d s]; [done|]. unfold collapseSpaces. simpl.
    rewrite (Hhd d eq_refl). simpl. by intros c [= <-]; apply Hhd.
  - intros c Hc. destruct (is_space c) eqn:E; [|done].
    destruct (collapseSpaces_last_inv false s c Hc E) as (d & Hd & Hsp).
    by rewrite (Hlast d Hd) in Hsp.
Qed.

Lemma cleanText_trimmed (text : jsstring) :
  trim (cleanText text) = cleanText text.
Proof. apply trim_idem. Qed.

Lemma cleanText_of_clean (s : jsstring) :
  Forall (λ c, is_clean c = true) s → trim s = s →
  cleanText s = collapseSpaces s.
Proof.
  intros Hc Ht. unfold cleanText.
  rewrite (removeCitations_clean s Hc), (removeCarets_clean s Hc),
    (removeUrls_clean s Hc), (removeParens_clean s Hc).
  rewrite removeSpecial_clean by by apply collapseSpaces_from_clean.
  by apply collapseSpaces_trimmed.
Qed.

(** C8, as stated, fails: cleaning [a - b] gives [a], two spaces, [b]
    (the dash is stripped after the white space was collapsed), and
    cleaning that gives [a b]. *)
Lemma normalize_idempotent_counterexample :
  cleanText dashText = js "a  b"
  ∧ cleanText (cleanText dashText) = js "a b"
  ∧ cleanText (cleanText dashText) ≠ cleanText dashText.
Proof. vm_compute. repeat split; discriminate. Qed.

(** C8, amended.  Cleaning a cleaned text only collapses the runs of
    spaces that stripping left behind: it changes nothing when the cleaned
    text has no two adjacent spaces, and a text cleaned twice is a fixed
    point of cleaning. *)
Theorem normalize_idempotent (x : jsstring) :
  cleanText (cleanText x) = collapseSpaces (cleanText x)
  ∧ (includes (cleanText x) [SPACE; SPACE] = false →
     cleanText (cleanText x) = cleanText x)
  ∧ cleanText (cleanText (cleanText x)) = cleanText (cleanText x).
Proof.
  assert (cleanText (cleanText x) = collapseSpaces (cleanText x)) as H1
    by (apply cleanText_of_clean;
        [apply cleanText_clean|apply cleanText_trimmed]).
  split; [done|]. split.
  - intros Hinc. rewrite H1. apply collapseSpaces_from_fixed.
    by apply clean_single_spaced; [apply cleanText_clean|].
  - rewrite cleanText_of_clean
      by (apply cleanText_clean || apply cleanText_trimmed).
    rewrite H1. apply collapseSpaces_idem.
Qed.

Lemma normalize_idempotent_witness :
  includes (cleanText catText) [SPACE; SPACE] = false
  ∧ cleanText (cleanText catText) = cleanText catText.
Proof.
  assert (includes (cleanText catText) [SPACE; SPACE] = false) as H
    by (vm_compute; reflexivity).
  split; [exact H|].
  exact (proj1 (proj2 (normalize_idempotent catText)) H).
Defined.

(** *** Sentences have a word *)

Lemma terminator_not_space (c : N) :
  is_terminator c = true → is_space c = false.
Proof. chars. Qed.

Lemma quote_not_space (c : N) : is_quote c = true → is_space c = false.
Proof. chars. Qed.

Lemma segment_inv_shape (st : segment_state) (cur : jsstring) :
  st ≠ Outside → segment_inv st cur → segment_shape cur.
Proof.
  destruct st; [done| |]; intros _.
  - intros H. exists cur, []. by rewrite app_nil_r.
  - intros (body & terms & -> & Hb & Ht). exists body, terms.
    split; [done|]. split; [done|].
    eapply Forall_impl; [exact Ht|]. apply terminator_not_space.
Qed.

Lemma segment_from_shape (st : segment_state) (cur s : jsstring) :
  segment_inv st cur → Forall segment_shape (segment_from st cur s).
Proof.
  revert st cur. induction s as [|c s IH]; intros st cur Hinv.
  - destruct st; simpl.
    + constructor.
    + constructor; [by apply (segment_inv_shape InBody)|constructor].
    + constructor; [by apply (segment_inv_shape InTerminators)|constructor].
  - destruct st; cbn [segment_from]; destruct (is_terminator c) eqn:Ec.
    + by apply IH.
    + apply IH. simpl. by repeat constructor.
    + apply IH. exists cur, [c]. by repeat constructor.
    + apply IH. simpl in *. apply Forall_app. by repeat constructor.
    + apply IH. destruct Hinv as (body & terms & -> & Hb & Ht).
      exists body, (terms ++ [c]). rewrite app_assoc. split; [done|].
      split; [done|]. apply Forall_app. by repeat constructor.
    + assert (segment_shape cur) as Hcur
        by by apply (segment_inv_shape InTerminators).
      destruct (is_quote c) eqn:Eq.
      * constructor; [|by apply IH].
        destruct Hinv as (body & terms & -> & Hb & Ht).
        exists body, (terms ++ [c]). rewrite app_assoc. split; [done|].
        split; [done|]. apply Forall_app. split.
        -- eapply Forall_impl; [exact Ht|]. apply terminator_not_space.
        -- repeat constructor. by apply quote_not_space.
      * constructor; [done|]. apply IH. simpl. by repeat constructor.
Qed.

Lemma segment_from_alphabet (P : N → Prop) (st : segment_state)
  (cur s : jsstring) :
  Forall P cur → Forall P s → Forall (Forall P) (segment_from st cur s).
Proof.
  intros Hcur Hs. revert st cur Hcur.
  induction Hs as [|c s Hc Hs IH]; intros st cur Hcur.
  - destruct st; simpl; repeat constructor; done.
  - assert (Forall P (cur ++ [c])) by (apply Forall_app; by repeat constructor).
    assert (Forall P [c]) by by repeat constructor.
    destruct st; cbn [segment_from]; destruct (is_terminator c);
      try destruct (is_quote c); try constructor; auto.
Qed.

Lemma split_from_no_space (b : bool) (cur s : jsstring) :
  Forall (λ c, is_space c = false) s → split_from b cur s = [cur ++ s].
Proof.
  intros H. revert b cur. induction H as [|c s Hc Hs IH]; intros b cur; simpl.
  - by rewrite app_nil_r.
  - rewrite Hc, IH. by rewrite <- app_assoc.
Qed.

Lemma words_from_cur (cur s : jsstring) : cur ≠ [] → words_from cur s ≠ [].
Proof.
  revert cur. induction s as [|c s IH]; intros cur Hcur; simpl.
  - by destruct cur.
  - destruct (is_word c); [apply IH; by destruct cur|by destruct cur].
Qed.

Lemma lower_word (c : N) : is_word c = true → is_word (lower c) = true.
Proof.
  unfold lower. destruct (in_range 65 90 c) eqn:E; [|done]. revert E. chars.
Qed.

Lemma clean_nonspace (c : N) :
  is_clean c = true → is_space c = false →
  is_word c = true ∨ is_terminator c = true.
Proof.
  unfold is_clean. intros H Hs.
  destruct (is_word c); [by left|]. destruct (is_terminator c); [by right|].
  simpl in H. rewrite orb_false_r in H. apply N.eqb_eq in H as ->. done.
Qed.

(** A trimmed match over the clean alphabet that the filter keeps starts
    with a word character. *)
Lemma kept_sentence_starts_with_word (seg : jsstring) :
  segment_shape seg → Forall (λ c, is_clean c = true) seg →
  sentenceFilter (trim seg) = true →
  ∃ c rest, trim seg = c :: rest ∧ is_word c = true.
Proof.
  intros (body & tail & Hseg & Hbody & Htail) Hclean Hfilter.
  destruct (trim seg) as [|c rest] eqn:Etrim.
  { apply sentenceFilter_long in Hfilter. simpl in Hfilter. lia. }
  exists c, rest. split; [done|].
  assert (is_space c = false) as Hc by (apply (trim_head seg); by rewrite Etrim).
  destruct (trim_infix seg) as (k1 & k2 & Hk). rewrite Etrim in Hk.
  assert (is_clean c = true) as Hcc.
  { rewrite Forall_forall in Hclean. apply Hclean. rewrite Hk. set_solver. }
  destruct (clean_nonspace c Hcc Hc) as [|Hterm]; [done|]. exfalso.
  assert (Forall (λ c, is_space c = false) rest) as Hrest.
  { rewrite Hseg in Hk. apply app_eq_inv in Hk
      as [(k & -> & Hk)|(k & -> & ->)].
    - destruct k as [|d k].
      + simpl in Hk. subst tail. apply Forall_cons in Htail as [_ Ht].
        by apply Forall_app in Ht as [? _].
      + injection Hk as -> _. apply Forall_app in Hbody as [_ Hb].
        apply Forall_cons in Hb as [Hb _]. congruence.
    - apply Forall_app in Htail as [_ Ht].
      apply Forall_cons in Ht as [_ Ht].
      by apply Forall_app in Ht as [? _]. }
  assert (Forall (λ c, is_space c = false) (c :: rest)) as Hns
    by by constructor.
  unfold sentenceFilter, splitSpaces in Hfilter.
  by rewrite (split_from_no_space false [] _ Hns) in Hfilter.
Qed.

Lemma segment_clean (text seg : jsstring) :
  seg ∈ segment (cleanText text) →
  segment_shape seg ∧ Forall (λ c, is_clean c = true) seg.
Proof.
  intros Hin. split.
  - pose proof (segment_from_shape Outside [] (cleanText text) I) as H.
    rewrite Forall_forall in H. by apply H.
  - pose proof (segment_from_alphabet (λ c, is_clean c = true) Outside []
                  (cleanText text) (Forall_nil_2 _) (cleanText_clean text)) as H.
    rewrite Forall_forall in H. by apply H.
Qed.

(** Every surviving sentence has at least one word, so [words.length] is
    not zero in the scoring callback. *)
Lemma validSentences_words (text s : jsstring) :
  s ∈ validSentences text → wordsOf s ≠ [].
Proof.
  intros Hs. pose proof (validSentences_filter text s Hs) as Hf.
  revert Hs. unfold validSentences.
  rewrite list_elem_of_In, filter_In, in_map_iff.
  intros [(seg & <- & Hseg%list_elem_of_In) _].
  destruct (segment_clean text seg Hseg) as [Hshape Hclean].
  destruct (kept_sentence_starts_with_word seg Hshape Hclean Hf)
    as (c & rest & -> & Hc).
  unfold wordsOf, toLowerCase. simpl. rewrite (lower_word c Hc).
  by apply words_from_cur.
Qed.

(** *** The composite score *)

Lemma ndiv_fin (x y : R) : y ≠ 0%R → (Fin x / Fin y)%js = Fin (x / y).
Proof. intros Hy. unfold ndiv. by destruct (Req_dec_T y 0). Qed.

Lemma nmul_comm (a b : number) : (a * b)%js = (b * a)%js.
Proof. destruct a, b; simpl; try done. f_equal. apply Rmult_comm. Qed.

Lemma INR_positive (n : nat) : n ≠ 0 → (0 < INR n)%R.
Proof. intros Hn. apply lt_0_INR. lia. Qed.

Lemma orOne_positive (n : nat) : n ≠ 0 → orOne n = n.
Proof. by destruct n. Qed.

Lemma toNumber_jsplus (a b : jsvalue) :
  toNumber (jsplus a b) = (toNumber a + toNumber b)%js.
Proof. destruct a, b; simpl; try done. by rewrite plus_INR. Qed.

Lemma toNumber_sumOver (table : gmap jsstring jsvalue) (keys : list jsstring) :
  toNumber (sumOver table keys) = nsum (map (tableValue table) keys).
Proof.
  unfold sumOver, nsum. change (Fin 0) with (toNumber (VNumber 0)).
  generalize (VNumber 0). induction keys as [|k keys IH]; intros acc; [done|].
  simpl. rewrite IH. by rewrite toNumber_jsplus.
Qed.

Lemma uniqueWords_distinct (words : list jsstring) :
  uniqueWords words = length (remove_dups (notStop words)).
Proof.
  unfold uniqueWords.
  rewrite <- (size_list_to_set (C:=gset jsstring) (remove_dups (notStop words)))
    by apply NoDup_remove_dups.
  f_equal. apply set_eq. intros x.
  by rewrite !elem_of_list_to_set, elem_of_remove_dups.
Qed.

(** *** The scenario of the cat text *)

Lemma finalScore_value (wordFreq phraseFreq : gmap jsstring jsvalue)
  (s : jsstring) (index total a na b nw u : nat) :
  sumOver wordFreq (notStop (wordsOf s)) = VNumber a →
  length (notStop (wordsOf s)) = na →
  sumOver phraseFreq (map phraseKey (phrasesOf (wordsOf s))) = VNumber b →
  length (wordsOf s) = nw →
  uniqueWords (wordsOf s) = u →
  nw ≠ 0 → total ≠ 0 →
  finalScore wordFreq phraseFreq s index total
  = Fin (scoreR a na b nw u index total).
Proof.
  intros Ha Hna Hb Hnw Hu Hnw0 Ht.
  unfold finalScore, frequencyScore, phraseScore, lengthScore,
    diversityScore. cbv zeta.
  rewrite Ha, Hna, Hb, Hnw, Hu. unfold ofNat, toNumber.
  assert (0 < INR (orOne na))%R by (apply INR_positive; by destruct na).
  assert (0 < INR (orOne nw))%R by (apply INR_positive; by destruct nw).
  assert (0 < INR nw)%R by by apply INR_positive.
  assert (positionScore index total = Fin (positionR index total)) as ->.
  { apply INR_positive in Ht.
    unfold positionScore, positionR, ofNat. cbn [nmul lift2 nlt nsub].
    destruct (Rlt_dec _ _); [by rewrite ndiv_fin by lra|].
    destruct (Rlt_dec _ _); [by rewrite ndiv_fin by lra|done]. }
  cbn [nsub nabs lift1 lift2]. rewrite !ndiv_fin by lra. reflexivity.
Qed.

Lemma afterByScore_lt (a b : ScoredSentence) (x y : R) :
  score a = Fin x → score b = Fin y → (x < y)%R → afterByScore a b = true.
Proof.
  intros Ha Hb Hxy. unfold afterByScore. rewrite Ha, Hb. simpl.
  destruct (Rlt_dec 0 (y - x)); [done|lra].
Qed.

(** Of three scored sentences the first of which has the lowest score, the
    two others are selected, in their original order. *)
Lemma select_two (s0 s1 s2 : jsstring) (r0 r1 r2 : R) :
  (r0 < r1)%R → (r0 < r2)%R →
  map sentence
      (sortBy afterByIndex
         (slice0 (sortBy afterByScore
                    [scored s0 0 (Fin r0); scored s1 1 (Fin r1);
                     scored s2 2 (Fin r2)]) 2))
  = [s1; s2].
Proof.
  intros H1 H2. cbn [sortBy insertSorted].
  pose proof (afterByScore_lt (scored s0 0 (Fin r0)) (scored s1 1 (Fin r1))
                r0 r1 eq_refl eq_refl H1) as E1.
  pose proof (afterByScore_lt (scored s0 0 (Fin r0)) (scored s2 2 (Fin r2))
                r0 r2 eq_refl eq_refl H2) as E2.
  destruct (afterByScore (scored s1 1 (Fin r1)) (scored s2 2 (Fin r2)));
    cbn [insertSorted]; rewrite ?E1, ?E2; cbn [insertSorted];
    rewrite ?E1, ?E2; reflexivity.
Qed.

Lemma positionR_cat :
  positionR 0 3 = 1%R ∧ positionR 1 3 = 0.2%R ∧ positionR 2 3 = 0.2%R.
Proof.
  unfold positionR. simpl INR.
  repeat split; repeat (destruct (Rlt_dec _ _)); lra.
Qed.

Lemma exp_length_lt (m n : R) :
  (Rabs (n - 20) < Rabs (m - 20))%R →
  (exp (- (Rabs (m - 20) / 20)) < exp (- (Rabs (n - 20) / 20)))%R.
Proof. intros H. apply exp_increasing. lra. Qed.

Lemma scoreR_cat :
  (scoreR 3 3 1 6 3 0 3 < scoreR 12 10 8 14 10 1 3)%R
  ∧ (scoreR 3 3 1 6 3 0 3 < scoreR 13 11 9 13 11 2 3)%R.
Proof.
  destruct positionR_cat as (P0 & P1 & P2).
  unfold scoreR. rewrite P0, P1, P2. cbn [orOne]. simpl INR.
  assert (exp (- (Rabs (1+1+1+1+1+1 - 20) / 20))
          < exp (- (Rabs (1+1+1+1+1+1+1+1+1+1+1+1+1+1 - 20) / 20)))%R as Ha.
  { apply exp_length_lt. rewrite !Rabs_left by lra. lra. }
  assert (exp (- (Rabs (1+1+1+1+1+1 - 20) / 20))
          < exp (- (Rabs (1+1+1+1+1+1+1+1+1+1+1+1+1 - 20) / 20)))%R as Hb.
  { apply exp_length_lt. rewrite !Rabs_left by lra. lra. }
  split; lra.
Qed.

Lemma catText_scores :
  sentenceScores [catFirst; catSecond; catThird]
  = [scored catFirst 0 (Fin (scoreR 3 3 1 6 3 0 3));
     scored catSecond 1 (Fin (scoreR 12 10 8 14 10 1 3));
     scored catThird 2 (Fin (scoreR 13 11 9 13 11 2 3))].
Proof.
  unfold sentenceScores, scored. cbn [imap compose length].
  repeat f_equal; try (vm_compute; reflexivity);
    apply finalScore_value; try (vm_compute; reflexivity); discriminate.
Qed.

(** C2, as stated, fails in one part: the filter does not reject the first
    sentence, which has 23 characters and 6 words. *)
Lemma cat_scenario_counterexample :
  segment (cleanText catText) !! 0 = Some catFirst
  ∧ length catFirst = 23 ∧ length (splitSpaces catFirst) = 6
  ∧ sentenceFilter catFirst = true
  ∧ catFirst ∈ validSentences catText.
Proof.
  do 4 (split; [vm_compute; reflexivity|]).
  rewrite catText_valid. apply list_elem_of_here.
Qed.

(** C2, amended.  For the cat text and a count of 2, cleaning strips the
    citation and the link, all three sentences survive the filter, the
    first one has the lowest composite score and is left out by the
    selection, and the function returns the two long sentences joined by a
    single space, in their original order. *)
Theorem cat_scenario :
  cleanText catText = catCleaned
  ∧ validSentences catText = [catFirst; catSecond; catThird]
  ∧ (∃ r0 r1 r2,
       score <$> sentenceScores (validSentences catText)
       = [Fin r0; Fin r1; Fin r2] ∧ (r0 < r1)%R ∧ (r0 < r2)%R)
  ∧ topSentences (validSentences catText) 2 = [catSecond; catThird]
  ∧ extractiveSummarize catText 2 = catSecond ++ SPACE :: catThird.
Proof.
  split; [vm_compute; reflexivity|]. split; [apply catText_valid|].
  split.
  { rewrite catText_valid, catText_scores. do 3 eexists.
    split; [reflexivity|apply scoreR_cat]. }
  assert (topSentences (validSentences catText) 2 = [catSecond; catThird])
    as Htop.
  { rewrite catText_valid. unfold topSentences, selection.
    rewrite catText_scores. apply select_two; apply scoreR_cat. }
  split; [exact Htop|].
  unfold extractiveSummarize. cbv zeta. rewrite Htop.
  rewrite catText_valid_length. reflexivity.
Qed.

(** *** A word that names a property of [Object.prototype] *)

Lemma constructorText_valid :
  validSentences constructorText = [constructorFirst; constructorSecond].
Proof. vm_compute. reflexivity. Qed.

(** C7 at the text with the word [constructor] (count 1): both sentences
    survive, the word occurs once among their tokens, is not a stop word
    and is longer than 2, and [wordFreq] holds a string under it, not the
    count 1; its entry for [sentence] is the count 1. *)
Theorem frequency_model_at_constructor :
  validSentences constructorText = [constructorFirst; constructorSecond]
  ∧ length (List.filter (λ w, bool_decide (w = js "constructor"))
              (concat (map wordsOf (validSentences constructorText)))) = 1
  ∧ isStopWord (js "constructor") = false
  ∧ wordFreqOf (validSentences constructorText) !! js "constructor"
    = Some VString
  ∧ wordFreqOf (validSentences constructorText) !! js "sentence"
    = Some (VNumber 1).
Proof. vm_compute. repeat split; reflexivity. Qed.

(** C10 at the same text with a count of 1: the function reaches the
    scoring callback (two surviving sentences), the first sentence has 8
    words, and its composite score is [NaN]. *)
Theorem score_at_constructor :
  (Z.of_nat (length (validSentences constructorText)) <=? 1)%Z = false
  ∧ length (wordsOf constructorFirst) = 8
  ∧ ∃ e, sentenceScores (validSentences constructorText) !! 0 = Some e
      ∧ sentence e = constructorFirst
      ∧ score e = NaN.
Proof.
  rewrite constructorText_valid. split; [reflexivity|].
  split; [vm_compute; reflexivity|].
  eexists. split; [reflexivity|]. split; [vm_compute; reflexivity|].
  cbn [score]. unfold finalScore, frequencyScore. cbv zeta.
  assert (sumOver (wordFreqOf [constructorFirst; constructorSecond])
            (notStop (wordsOf constructorFirst)) = VString) as ->
    by (vm_compute; reflexivity).
  reflexivity.
Qed.

(** *** The tables away from the inherited names *)

Lemma increment_lookup_ne (m : gmap jsstring jsvalue) (key k : jsstring) :
  key ≠ k → increment m key !! k = m !! k.
Proof.
  intros Hne. unfold increment, setProperty.
  case_bool_decide; [done|]. by rewrite lookup_insert_ne.
Qed.

Lemma not_inherited_proto (k : jsstring) :
  k ∉ objectPrototype → k ≠ js "__proto__".
Proof.
  intros Hk ->. apply Hk. apply list_elem_of_In. vm_compute. tauto.
Qed.

Lemma getProperty_own (m : gmap jsstring jsvalue) (k : jsstring) :
  k ∉ objectPrototype → getProperty m k = m !! k.
Proof.
  intros Hk. unfold getProperty. destruct (m !! k); [done|].
  by rewrite bool_decide_eq_false_2.
Qed.

Lemma increment_lookup_eq (m : gmap jsstring jsvalue) (k : jsstring) :
  k ∉ objectPrototype →
  increment m k !! k = Some (jsplus (orZero (m !! k)) (VNumber 1)).
Proof.
  intros Hk. unfold increment, setProperty.
  rewrite bool_decide_eq_false_2 by by apply not_inherited_proto.
  by rewrite lookup_insert_eq, getProperty_own.
Qed.

Lemma countOf_cons (k key : jsstring) (keys : list jsstring) :
  countOf k (key :: keys)
  = if bool_decide (key = k) then S (countOf k keys) else countOf k keys.
Proof. unfold countOf. simpl. by destruct (bool_decide (key = k)). Qed.

Lemma fold_increment_number (keys : list jsstring)
  (m : gmap jsstring jsvalue) (k : jsstring) (n : nat) :
  k ∉ objectPrototype → m !! k = Some (VNumber n) →
  fold_left increment keys m !! k = Some (VNumber (n + countOf k keys)).
Proof.
  intros Hk. revert m n. induction keys as [|key keys IH]; intros m n Hm.
  - simpl. by rewrite Nat.add_0_r.
  - cbn [fold_left]. rewrite countOf_cons. case_bool_decide as Hkey.
    + subst key. rewrite (IH _ (n + 1)).
      * f_equal. f_equal. lia.
      * by rewrite increment_lookup_eq, Hm.
    + apply IH. by rewrite increment_lookup_ne.
Qed.

Lemma fold_increment_counts (keys : list jsstring)
  (m : gmap jsstring jsvalue) (k : jsstring) :
  k ∉ objectPrototype → m !! k = None →
  fold_left increment keys m !! k = countsOf keys k.
Proof.
  intros Hk. unfold countsOf. revert m.
  induction keys as [|key keys IH]; intros m Hm; [done|].
  cbn [fold_left]. rewrite countOf_cons. case_bool_decide as Hkey.
  - subst key. rewrite (fold_increment_number _ _ _ 1); [done..|].
    by rewrite increment_lookup_eq, Hm.
  - apply IH. by rewrite increment_lookup_ne.
Qed.

Lemma fold_increment_absent (keys : list jsstring)
  (m : gmap jsstring jsvalue) (k : jsstring) :
  k ∉ keys → fold_left increment keys m !! k = m !! k.
Proof.
  revert m. induction keys as [|key keys IH]; intros m Hk; [done|].
  apply not_elem_of_cons in Hk as [Hne Hk]. cbn [fold_left].
  rewrite IH by done. by apply increment_lookup_ne.
Qed.

Lemma fold_left_filter {A B} (f : A → B → A) (p : B → bool) (l : list B)
  (a : A) :
  fold_left (λ a x, if p x then f a x else a) l a
  = fold_left f (List.filter p l) a.
Proof.
  revert a. induction l as [|x l IH]; intros a; simpl; [done|].
  destruct (p x); simpl; apply IH.
Qed.

Lemma fold_left_concat {A B} (f : A → B → A) (ls : list (list B)) (a : A) :
  fold_left (λ a l, fold_left f l a) ls a = fold_left f (concat ls) a.
Proof.
  revert a. induction ls as [|l ls IH]; intros a; simpl; [done|].
  by rewrite fold_left_app, IH.
Qed.

Lemma wordFreqOf_increments (sentences : list jsstring) :
  wordFreqOf sentences = fold_left increment (eligibleWords sentences) ∅.
Proof.
  unfold wordFreqOf, eligibleWords.
  rewrite <- fold_left_filter, <- fold_left_concat.
  generalize (∅ : gmap jsstring jsvalue).
  induction sentences as [|s l IH]; intros m; simpl; [done|]. apply IH.
Qed.

Lemma phraseFreqOf_increments (sentences : list jsstring) :
  phraseFreqOf sentences = fold_left increment (eligiblePhrases sentences) ∅.
Proof.
  unfold phraseFreqOf, eligiblePhrases.
  assert (∀ keys (m : gmap jsstring jsvalue),
            fold_left increment (map phraseKey keys) m
            = fold_left (λ m p, increment m (phraseKey p)) keys m) as Hmap.
  { induction keys as [|p ps IH]; intros m; simpl; [done|]. apply IH. }
  rewrite Hmap, <- fold_left_filter, <- fold_left_concat.
  generalize (∅ : gmap jsstring jsvalue).
  induction sentences as [|s l IH]; intros m; simpl; [done|]. apply IH.
Qed.

Lemma countOf_absent (k : jsstring) (keys : list jsstring) :
  k ∉ keys → countOf k keys = 0.
Proof.
  induction keys as [|key keys IH]; [done|].
  intros [Hne Hk]%not_elem_of_cons. rewrite countOf_cons.
  by rewrite bool_decide_eq_false_2, IH.
Qed.

Lemma phraseKey_not_inherited (p : jsstring * jsstring) :
  phraseKey p ∉ objectPrototype.
Proof.
  intros Hin.
  assert (Forall (λ name, SPACE ∉ name) objectPrototype) as Hnames.
  { apply (bool_decide_unpack _). by vm_compute. }
  rewrite Forall_forall in Hnames. apply (Hnames _ Hin).
  unfold phraseKey. apply elem_of_app. right. apply list_elem_of_here.
Qed.

(** Under every word that is not a property name of [Object.prototype],
    [wordFreq] holds exactly the number of eligible tokens equal to it. *)
Lemma wordFreq_exact (sentences : list jsstring) (k : jsstring) :
  k ∉ objectPrototype →
  wordFreqOf sentences !! k = countsOf (eligibleWords sentences) k.
Proof.
  intros Hk. rewrite wordFreqOf_increments.
  by apply fold_increment_counts.
Qed.

(** [phraseFreq] holds exactly the counts of the eligible pairs. *)
Lemma phraseFreq_exact (sentences : list jsstring) (k : jsstring) :
  phraseFreqOf sentences !! k = countsOf (eligiblePhrases sentences) k.
Proof.
  rewrite phraseFreqOf_increments.
  destruct (decide (k ∈ objectPrototype)) as [Hin|Hout];
    [|by apply fold_increment_counts].
  assert (k ∉ eligiblePhrases sentences) as Habs.
  { unfold eligiblePhrases. intros (p & -> & _)%list_elem_of_fmap.
    by apply (phraseKey_not_inherited p). }
  rewrite fold_increment_absent by done.
  unfold countsOf. by rewrite countOf_absent.
Qed.

(** A sentence all of whose tokens are stop words adds nothing to
    [wordFreq]. *)
Lemma stop_words_only (s : jsstring) (m : gmap jsstring jsvalue) :
  Forall (λ w, isStopWord w = true) (wordsOf s) →
  fold_left countWord (wordsOf s) m = m.
Proof.
  induction 1 as [|w ws Hw Hws IH]; simpl; [done|].
  unfold countWord at 2. by rewrite Hw.
Qed.

Lemma countsOf_number (keys : list jsstring) (k : jsstring) :
  ∃ n, orZero (countsOf keys k) = VNumber n.
Proof. unfold countsOf. destruct (countOf k keys); by eexists. Qed.

Lemma sumOver_number (table : gmap jsstring jsvalue) (keys : list jsstring) :
  (∀ k, k ∈ keys → ∃ n, orZero (getProperty table k) = VNumber n) →
  ∃ a, sumOver table keys = VNumber a.
Proof.
  unfold sumOver. generalize 0.
  induction keys as [|k keys IH]; intros acc Hkeys; [by eexists|].
  cbn [fold_left]. destruct (Hkeys k) as [n ->]; [set_solver|].
  apply IH. intros k' Hk'. apply Hkeys. set_solver.
Qed.

(** The score of a sentence none of whose tokens names a property of
    [Object.prototype] is a finite number. *)
Lemma score_finite (valid : list jsstring) (s : jsstring) (index : nat) :
  Forall (λ w, w ∉ objectPrototype) (wordsOf s) →
  wordsOf s ≠ [] → valid ≠ [] →
  ∃ r, finalScore (wordFreqOf valid) (phraseFreqOf valid) s index
                  (length valid) = Fin r.
Proof.
  intros Hwords Hne Hvalid.
  destruct (sumOver_number (wordFreqOf valid) (notStop (wordsOf s)))
    as [a Ha].
  { intros k [Hk _]%list_elem_of_In%filter_In.
    rewrite Forall_forall in Hwords.
    rewrite getProperty_own, wordFreq_exact
      by by apply Hwords, list_elem_of_In.
    apply countsOf_number. }
  destruct (sumOver_number (phraseFreqOf valid)
              (map phraseKey (phrasesOf (wordsOf s)))) as [b Hb].
  { intros k (p & -> & _)%list_elem_of_fmap.
    rewrite getProperty_own, phraseFreq_exact
      by apply phraseKey_not_inherited.
    apply countsOf_number. }
  eexists. eapply finalScore_value; try done.
  - by destruct (wordsOf s).
  - by destruct valid.
Qed.

(** *** The composite score and the weighted sum of the specification *)

Lemma words_from_runs (s cur : jsstring) :
  words_from cur s
  = match cur with
    | [] => spec_runs s
    | _ =>
        match spec_runs s with
        | run :: runs =>
            if spec_starts s then (cur ++ run) :: runs else cur :: run :: runs
        | [] => [cur]
        end
    end.
Proof.
  revert cur. induction s as [|c s IH]; intros cur; [by destruct cur|].
  cbn [words_from spec_runs spec_starts].
  destruct (is_word c) eqn:Hc.
  - rewrite IH. destruct cur as [|a cur]; cbn [app].
    + destruct (spec_runs s) as [|run runs]; [done|].
      by destruct (spec_starts s).
    + destruct (spec_runs s) as [|run runs]; [done|].
      destruct (spec_starts s); [|done].
      by rewrite <- app_assoc.
  - destruct cur as [|a cur]; rewrite IH; [done|].
    by destruct (spec_runs s).
Qed.

Lemma wordsOf_spec (sentence : jsstring) :
  wordsOf sentence = spec_tokens sentence.
Proof. apply (words_from_runs _ []). Qed.

Lemma phrasesOf_spec (words : list jsstring) :
  phrasesOf words = spec_bigrams words.
Proof.
  induction words as [|w1 words IH]; [done|].
  destruct words as [|w2 rest]; [done|].
  change (phrasesOf (w1 :: w2 :: rest))
    with ((w1, w2) :: phrasesOf (w2 :: rest)).
  by rewrite IH.
Qed.

Lemma spec_wordFreq_count (sentences : list jsstring) (k : jsstring) :
  spec_wordFreq sentences k = countOf k (eligibleWords sentences).
Proof.
  unfold spec_wordFreq, eligibleWords.
  by rewrite (map_ext wordsOf spec_tokens wordsOf_spec).
Qed.

Lemma spec_phraseFreq_count (sentences : list jsstring) (k : jsstring) :
  spec_phraseFreq sentences k = countOf k (eligiblePhrases sentences).
Proof.
  unfold spec_phraseFreq, eligiblePhrases.
  rewrite (map_ext (λ s, phrasesOf (wordsOf s))
                   (λ s, spec_bigrams (spec_tokens s)))
    by (intros s; by rewrite wordsOf_spec, phrasesOf_spec).
  done.
Qed.

Lemma tableValue_wordFreq (sentences : list jsstring) (k : jsstring) :
  k ∉ objectPrototype →
  tableValue (wordFreqOf sentences) k = ofNat (spec_wordFreq sentences k).
Proof.
  intros Hk. unfold tableValue.
  rewrite getProperty_own, wordFreq_exact, spec_wordFreq_count by done.
  unfold countsOf. by destruct (countOf _ _).
Qed.

Lemma tableValue_phraseFreq (sentences : list jsstring)
  (p : jsstring * jsstring) :
  tableValue (phraseFreqOf sentences) (phraseKey p)
  = ofNat (spec_phraseFreq sentences (spec_key p)).
Proof.
  unfold tableValue.
  rewrite getProperty_own, phraseFreq_exact, spec_phraseFreq_count
    by apply phraseKey_not_inherited.
  change (spec_key p) with (phraseKey p).
  unfold countsOf. by destruct (countOf _ _).
Qed.

Lemma frequencyScore_spec (sentences words : list jsstring) :
  Forall (λ w, w ∉ objectPrototype) words →
  frequencyScore (wordFreqOf sentences) words
  = spec_frequency (spec_wordFreq sentences) words.
Proof.
  intros Hwords. unfold frequencyScore, spec_frequency.
  rewrite toNumber_sumOver.
  change (List.filter (λ t, negb (spec_stop t)) words) with (notStop words).
  rewrite (map_ext_in (tableValue (wordFreqOf sentences))
                      (λ w, ofNat (spec_wordFreq sentences w))).
  - destruct (notStop words) as [|w ws] eqn:E.
    + unfold nsum, ofNat. cbn [map fold_left length orOne].
      rewrite ndiv_fin by (simpl; lra). f_equal. simpl. lra.
    + by rewrite orOne_positive.
  - intros k [Hk _]%filter_In. apply tableValue_wordFreq.
    rewrite Forall_forall in Hwords. by apply Hwords, list_elem_of_In.
Qed.

Lemma phraseScore_spec (sentences words : list jsstring) :
  words ≠ [] →
  phraseScore (phraseFreqOf sentences) words
  = spec_phrase (spec_phraseFreq sentences) words.
Proof.
  intros Hw. unfold phraseScore, spec_phrase.
  rewrite toNumber_sumOver, orOne_positive by by destruct words.
  rewrite map_map, phrasesOf_spec.
  do 2 f_equal. apply map_ext. intros p. apply tableValue_phraseFreq.
Qed.

Lemma positionScore_spec (index total : nat) :
  total ≠ 0 → positionScore index total = spec_position index total.
Proof.
  intros Ht%INR_positive. unfold positionScore, spec_position, ofNat.
  cbv zeta. rewrite (ndiv_fin (INR index) (INR total)) by lra.
  cbn [nmul lift2 nlt].
  assert (INR index / INR total * INR total = INR index)%R as Hdiv
    by (field; lra).
  destruct (Rlt_dec (INR index) (INR total * 0.2)) as [H1|H1];
    destruct (Rlt_dec (INR index / INR total) 0.2) as [H2|H2];
    try done; try (exfalso; nra).
  destruct (Rlt_dec (INR total * 0.8) (INR index)) as [H3|H3];
    destruct (Rlt_dec 0.8 (INR index / INR total)) as [H4|H4];
    try done; exfalso; nra.
Qed.

Lemma lengthScore_spec (words : list jsstring) :
  lengthScore words = spec_length words.
Proof.
  unfold lengthScore, spec_length, ofNat. cbn [nsub nabs nneg lift1 lift2].
  rewrite !ndiv_fin by lra. cbn [nneg nexp lift1]. do 2 f_equal. lra.
Qed.

Lemma diversityScore_spec (words : list jsstring) :
  diversityScore words = spec_diversity words.
Proof.
  unfold diversityScore, spec_diversity. by rewrite uniqueWords_distinct.
Qed.

(** Away from the property names of [Object.prototype] the composite score
    of the code is the weighted sum of the specification over the counts
    of the frequency model. *)
Lemma finalScore_spec (valid : list jsstring) (sentence : jsstring)
  (index : nat) :
  wordsOf sentence ≠ [] → valid ≠ [] →
  Forall (λ w, w ∉ objectPrototype) (wordsOf sentence) →
  finalScore (wordFreqOf valid) (phraseFreqOf valid) sentence index
             (length valid)
  = spec_score (spec_wordFreq valid) (spec_phraseFreq valid) sentence index
               (length valid).
Proof.
  intros Hw Hv Hwords. unfold finalScore, spec_score. cbv zeta.
  rewrite <- wordsOf_spec.
  rewrite frequencyScore_spec, phraseScore_spec, positionScore_spec,
    lengthScore_spec, diversityScore_spec by (done || by destruct valid).
  replace 0.30%R with 0.3%R by lra. replace 0.20%R with 0.2%R by lra.
  by rewrite (nmul_comm (spec_frequency _ _)), (nmul_comm (spec_phrase _ _)),
    (nmul_comm (spec_position _ _)), (nmul_comm (spec_length _)),
    (nmul_comm (spec_diversity _)).
Qed.

Lemma composite_score_elsewhere (text sentence : jsstring) (index : nat) :
  validSentences text !! index = Some sentence →
  Forall (λ w, w ∉ objectPrototype) (spec_tokens sentence) →
  ∃ e, sentenceScores (validSentences text) !! index = Some e
    ∧ originalIndex e = index
    ∧ score e = spec_score (spec_wordFreq (validSentences text))
                           (spec_phraseFreq (validSentences text))
                           sentence index (length (validSentences text)).
Proof.
  intros Hs Hwords. unfold sentenceScores.
  rewrite list_lookup_imap, Hs. simpl.
  eexists. split; [done|]. split; [done|]. simpl.
  assert (sentence ∈ validSentences text) as Hin
    by by eapply list_elem_of_lookup_2.
  apply finalScore_spec.
  - by apply (validSentences_words text).
  - intros Hnil. by rewrite Hnil in Hin; apply elem_of_nil in Hin.
  - by rewrite wordsOf_spec.
Qed.

Lemma nsum_ofNat {A} (f : A → nat) (l : list A) :
  nsum (map (λ x, ofNat (f x)) l) = ofNat (sum_list (map f l)).
Proof.
  unfold nsum, ofNat. rewrite <- (Nat.add_0_l (sum_list _)).
  change 0%R with (INR 0). generalize 0.
  induction l as [|x l IH]; intros acc; cbn [map fold_left sum_list].
  - by rewrite Nat.add_0_r.
  - cbn [nadd lift2]. rewrite <- plus_INR, IH. do 2 f_equal.
    unfold Datatypes.id. lia.
Qed.

Lemma positionScore_value (index total : nat) :
  total ≠ 0 → positionScore index total = Fin (positionR index total).
Proof.
  intros Ht%INR_positive.
  unfold positionScore, positionR, ofNat. cbn [nmul lift2 nlt nsub].
  destruct (Rlt_dec _ _); [by rewrite ndiv_fin by lra|].
  destruct (Rlt_dec _ _); [by rewrite ndiv_fin by lra|done].
Qed.

(** The weighted sum of the specification as a real number, from the
    counts it reads. *)
Lemma spec_score_value (wordFreq phraseFreq : jsstring → nat)
  (s : jsstring) (index total a na b nw u : nat) :
  sum_list (map wordFreq
              (List.filter (λ t, negb (spec_stop t)) (spec_tokens s))) = a →
  length (List.filter (λ t, negb (spec_stop t)) (spec_tokens s)) = na →
  sum_list (map (λ p, phraseFreq (spec_key p))
              (spec_bigrams (spec_tokens s))) = b →
  length (spec_tokens s) = nw →
  length (remove_dups
            (List.filter (λ t, negb (spec_stop t)) (spec_tokens s))) = u →
  nw ≠ 0 → total ≠ 0 →
  spec_score wordFreq phraseFreq s index total
  = Fin (scoreR a na b nw u index total).
Proof.
  intros Ha Hna Hb Hnw Hu Hnw0 Ht.
  assert (0 < INR nw)%R by by apply INR_positive.
  assert (spec_frequency wordFreq (spec_tokens s)
          = Fin (INR a / INR (orOne na))) as Hf.
  { unfold spec_frequency.
    destruct (List.filter _ (spec_tokens s)) as [|w ws] eqn:E.
    - simpl in Ha, Hna. subst a na. simpl. f_equal. lra.
    - rewrite nsum_ofNat, Ha, Hna. unfold ofNat.
      rewrite <- Hna. cbn [length orOne]. rewrite ndiv_fin; [done|].
      apply not_0_INR. lia. }
  assert (spec_phrase phraseFreq (spec_tokens s)
          = Fin (INR b / INR (orOne nw))) as Hp.
  { unfold spec_phrase. rewrite nsum_ofNat, Hb, Hnw. unfold ofNat.
    rewrite orOne_positive by done. rewrite ndiv_fin by lra. done. }
  assert (spec_length (spec_tokens s)
          = Fin (exp (- (Rabs (INR nw - 20) / 20)))) as Hl.
  { rewrite <- lengthScore_spec. unfold lengthScore, ofNat. rewrite Hnw.
    cbn [nsub nabs lift1 lift2]. rewrite ndiv_fin by lra. done. }
  assert (spec_diversity (spec_tokens s) = Fin (INR u / INR nw)) as Hd.
  { unfold spec_diversity, ofNat. rewrite Hu, Hnw.
    rewrite ndiv_fin by lra. done. }
  unfold spec_score. cbv zeta.
  rewrite Hf, Hp, Hl, Hd, <- positionScore_spec, positionScore_value by done.
  cbn [nmul nadd lift2]. unfold scoreR. f_equal. lra.
Qed.

Lemma constructorSecond_tokens :
  Forall (λ w, w ∉ objectPrototype) (spec_tokens constructorSecond).
Proof. apply (bool_decide_unpack _). by vm_compute. Qed.

(** C6 at the text with the word [constructor] (count 1).  Both sentences
    survive; the frequency model of the specification counts the token
    [constructor] of the first sentence once, and the weighted sum of the
    specification for that sentence (8 tokens, 5 of them not stop words and
    distinct, counts that sum to 5 for the words and to 3 for the pairs) is
    a finite number; the composite score of the code for it is [NaN].  For
    the second sentence the score of the code is the weighted sum of the
    specification. *)
Theorem composite_score :
  validSentences constructorText = [constructorFirst; constructorSecond]
  ∧ spec_wordFreq (validSentences constructorText) (js "constructor") = 1
  ∧ spec_score (spec_wordFreq (validSentences constructorText))
               (spec_phraseFreq (validSentences constructorText))
               constructorFirst 0 2
    = Fin (scoreR 5 5 3 8 5 0 2)
  ∧ (∃ e, sentenceScores (validSentences constructorText) !! 0 = Some e
       ∧ sentence e = constructorFirst
       ∧ score e = NaN)
  ∧ (∃ e, sentenceScores (validSentences constructorText) !! 1 = Some e
       ∧ sentence e = constructorSecond
       ∧ score e
         = spec_score (spec_wordFreq (validSentences constructorText))
                      (spec_phraseFreq (validSentences constructorText))
                      constructorSecond 1 2).
Proof.
  split; [apply constructorText_valid|].
  split; [vm_compute; reflexivity|].
  split.
  { apply spec_score_value; try (vm_compute; reflexivity); lia. }
  split.
  - rewrite constructorText_valid.
    eexists. split; [reflexivity|]. split; [vm_compute; reflexivity|].
    cbn [score]. unfold finalScore, frequencyScore. cbv zeta.
    assert (sumOver (wordFreqOf [constructorFirst; constructorSecond])
              (notStop (wordsOf constructorFirst)) = VString) as ->
      by (vm_compute; reflexivity).
    reflexivity.
  - destruct (composite_score_elsewhere constructorText constructorSecond 1)
      as (e & He & _ & Hscore).
    + by rewrite constructorText_valid.
    + apply constructorSecond_tokens.
    + exists e. split; [done|]. split.
      * rewrite constructorText_valid in He. vm_compute in He.
        by injection He as <-.
      * by rewrite Hscore, constructorText_valid.
Qed.

(** *** More about the summary *)

Lemma segment_from_infix (st : segment_state) (cur s seg : jsstring) :
  seg ∈ segment_from st cur s →
  ∃ before after, cur ++ s = before ++ seg ++ after.
Proof.
  revert st cur. induction s as [|c s IH]; intros st cur.
  - destruct st; simpl; rewrite ?elem_of_nil, ?list_elem_of_singleton;
      [done|intros ->; by exists [], []..].
  - assert (∀ st', seg ∈ segment_from st' (cur ++ [c]) s →
              ∃ before after, cur ++ c :: s = before ++ seg ++ after) as Hgrow.
    { intros st' (b & a & Hba)%IH. exists b, a.
      by rewrite <- Hba, <- app_assoc. }
    assert (∀ st', seg ∈ segment_from st' [c] s →
              ∃ before after, cur ++ c :: s = before ++ seg ++ after) as Hnew.
    { intros st' (b & a & Hba)%IH. exists (cur ++ b), a.
      rewrite <- app_assoc. f_equal. exact Hba. }
    assert (seg ∈ segment_from Outside [] s →
              ∃ before after, cur ++ c :: s = before ++ seg ++ after) as Hskip.
    { intros (b & a & Hba)%IH. exists (cur ++ c :: b), a.
      rewrite <- app_assoc. simpl. do 2 f_equal. exact Hba. }
    destruct st; cbn [segment_from]; destruct (is_terminator c);
      try destruct (is_quote c); rewrite ?elem_of_cons; eauto.
    + intros [->|Hin]; [|by apply Hskip].
      exists [], s. by rewrite <- app_assoc.
    + intros [->|Hin]; [|by eapply Hnew]. by exists [], (c :: s).
Qed.

Lemma validSentences_infix (text s : jsstring) :
  s ∈ validSentences text →
  ∃ before after, cleanText text = before ++ s ++ after.
Proof.
  unfold validSentences. rewrite list_elem_of_In, filter_In, in_map_iff.
  intros [(seg & <- & Hseg%list_elem_of_In) _].
  apply segment_from_infix in Hseg as (b & a & Hba). simpl in Hba.
  destruct (trim_infix seg) as (k1 & k2 & Hk).
  exists (b ++ k1), (k2 ++ a). rewrite Hba, Hk at 1.
  by rewrite <- !app_assoc.
Qed.

Lemma validSentences_clean (text s : jsstring) :
  s ∈ validSentences text → Forall (λ c, is_clean c = true) s.
Proof.
  intros (b & a & Hba)%validSentences_infix.
  pose proof (cleanText_clean text) as H. rewrite Hba in H.
  by apply Forall_app in H as [_ [? _]%Forall_app].
Qed.

Lemma join_Forall (P : N → Prop) (parts : list jsstring) :
  P SPACE → Forall (Forall P) parts → Forall P (join parts).
Proof.
  intros Hsp. induction 1 as [|p [|q rest] Hp Hrest IH]; simpl;
    [constructor|done|].
  apply Forall_app. split; [done|]. by constructor.
Qed.

Lemma join_nil (parts : list jsstring) :
  Forall (λ p, p ≠ []) parts → join parts = [] → parts = [].
Proof.
  destruct 1 as [|p [|q rest] Hp Hrest]; simpl; [done|done|].
  by intros [-> _]%app_eq_nil.
Qed.

(** X1.  The summary is extractive: each of its sentences occurs in the
    cleaned text as a contiguous run of characters. *)
Theorem summary_extractive (text : jsstring) (n : Z) (s : jsstring) :
  s ∈ summarySentences text n →
  ∃ before after, cleanText text = before ++ s ++ after.
Proof. intros Hs%summarySentences_valid. by apply validSentences_infix. Qed.

Lemma summary_extractive_witness :
  catThird ∈ summarySentences catText 3
  ∧ ∃ before after, cleanText catText = before ++ catThird ++ after.
Proof.
  assert (catThird ∈ summarySentences catText 3) as H.
  { unfold summarySentences. rewrite catText_valid. simpl.
    do 2 apply list_elem_of_further. apply list_elem_of_here. }
  split; [exact H|]. exact (summary_extractive catText 3 catThird H).
Defined.

(** X2.  The returned string holds only word characters, spaces and the
    terminators [. ! ?], whatever the text and the count: no comma, quote,
    bracket, brace or other symbol of the text reaches the summary. *)
Theorem summary_alphabet (text : jsstring) (n : Z) :
  Forall (λ c, is_word c = true ∨ c = SPACE ∨ is_terminator c = true)
         (extractiveSummarize text n).
Proof.
  rewrite extractiveSummarize_join. apply join_Forall; [by right; left|].
  apply Forall_forall. intros s Hs%summarySentences_valid%validSentences_clean.
  eapply Forall_impl; [exact Hs|]. intros c. unfold is_clean.
  rewrite !orb_true_iff, N.eqb_eq. tauto.
Qed.

(** X3.  For a count of at least 1 the summary is the empty string exactly
    when no sentence survives the filter. *)
Theorem summary_empty_iff (text : jsstring) (n : Z) :
  (1 ≤ n)%Z →
  extractiveSummarize text n = [] ↔ validSentences text = [].
Proof.
  intros Hn. rewrite extractiveSummarize_join.
  pose proof (summarySentences_length text n) as Hlen. split.
  - intros Hjoin. apply join_nil in Hjoin.
    + rewrite Hjoin in Hlen. simpl in Hlen.
      apply length_zero_iff_nil.
      destruct (Z.leb_spec (Z.of_nat (length (validSentences text))) n);
        destruct (Z.ltb_spec n 0); lia.
    + apply Forall_forall.
      intros s Hs%summarySentences_valid%validSentences_filter ->.
      apply sentenceFilter_long in Hs. simpl in Hs. lia.
  - intros Hnil. rewrite Hnil in Hlen. cbn [length] in Hlen.
    change (Z.of_nat 0) with 0%Z in Hlen.
    destruct (Z.leb_spec 0 n); [|lia].
    destruct (summarySentences text n); [done|]. simpl in Hlen. lia.
Qed.

Lemma summary_empty_iff_witness :
  (1 ≤ 2)%Z ∧ (extractiveSummarize catText 2 = [] ↔ validSentences catText = []).
Proof.
  assert (1 ≤ 2)%Z as H by lia. split; [exact H|].
  exact (summary_empty_iff catText 2 H).
Defined.

(** *** The content script's [cleanText] *)

Example content_cleanText_examples :
  Content.removeMentions (js "a @bob_1! @@x @ y@") = js "a ! @ @ y@"
  ∧ Content.removeMentions (js "@a@b c") = js " c"
  ∧ Content.collapsePeriods (js "a...b. .") = js "a.b. ."
  ∧ Content.cleanText (js " See [1] @ref  the end... ") = js "See the end."
  ∧ Content.cleanText [] = [].
Proof. vm_compute. repeat split; reflexivity. Qed.

Lemma existsb_sublist (p : N → bool) (t s : jsstring) :
  t `sublist_of` s → existsb p t = true → existsb p s = true.
Proof.
  induction 1 as [|c t s Hts IH|c t s Hts IH]; simpl; [done| |].
  - intros [->|H]%orb_true_iff; [done|]. by rewrite IH, orb_true_r.
  - intros H. by rewrite IH, orb_true_r.
Qed.

Lemma has_citation_sublist (t s : jsstring) :
  t `sublist_of` s → has_citation s = false → has_citation t = false.
Proof.
  induction 1 as [|c t s Hts IH|c t s Hts IH]; simpl; [done| |].
  - intros [Hc Hs]%orb_false_iff. rewrite (IH Hs), orb_false_r.
    destruct (c =? 91)%N; [|done]. simpl in *.
    apply not_true_is_false. intros Ht.
    by rewrite (existsb_sublist _ t s Hts Ht) in Hc.
  - intros [_ Hs]%orb_false_iff. by apply IH.
Qed.

Lemma removeCitations_from_sublist (b : bool) (s : jsstring) :
  removeCitations_from b s `sublist_of` s.
Proof.
  revert b. induction s as [|c s IH]; intros b; simpl; [done|].
  destruct b; [destruct (c =? 93)%N; by apply sublist_cons|].
  destruct ((c =? 91)%N && existsb (N.eqb 93) s);
    [by apply sublist_cons|by apply sublist_skip].
Qed.

Lemma removeCitations_from_no_citation (b : bool) (s : jsstring) :
  has_citation (removeCitations_from b s) = false.
Proof.
  revert b. induction s as [|c s IH]; intros b; simpl; [done|].
  destruct b; [destruct (c =? 93)%N; apply IH|].
  destruct ((c =? 91)%N && existsb (N.eqb 93) s) eqn:E; [apply IH|].
  simpl. rewrite IH, orb_false_r.
  destruct (c =? 91)%N; [|done]. simpl in *.
  apply not_true_is_false. intros Ht.
  by rewrite (existsb_sublist _ _ s (removeCitations_from_sublist false s) Ht)
    in E.
Qed.

Lemma removeCitations_fixed (s : jsstring) :
  has_citation s = false → removeCitations s = s.
Proof.
  unfold removeCitations. induction s as [|c s IH]; simpl; [done|].
  intros [-> Hs]%orb_false_iff. by rewrite IH.
Qed.

Lemma existsb_collapseSpaces (p : N → bool) (b : bool) (s : jsstring) :
  (∀ c, is_space c = true → p c = false) →
  existsb p (collapseSpaces_from b s) = existsb p s.
Proof.
  intros Hp. revert b. induction s as [|c s IH]; intros b; simpl; [done|].
  destruct (is_space c) eqn:E.
  - rewrite (Hp c E). destruct b; simpl; [apply IH|].
    rewrite (Hp SPACE) by done. apply IH.
  - simpl. by rewrite IH.
Qed.

Lemma has_citation_collapseSpaces (b : bool) (s : jsstring) :
  has_citation (collapseSpaces_from b s) = has_citation s.
Proof.
  assert (∀ c, is_space c = true → (c =? 91)%N = false) as H91 by chars.
  assert (∀ c, is_space c = true → (93 =? c)%N = false) as H93 by chars.
  revert b. induction s as [|c s IH]; intros b; simpl; [done|].
  destruct (is_space c) eqn:E.
  - rewrite (H91 c E). destruct b; simpl; apply IH.
  - simpl. by rewrite IH, existsb_collapseSpaces.
Qed.

Lemma removeMentions_from_sublist (b : bool) (s : jsstring) :
  Content.removeMentions_from b s `sublist_of` s.
Proof.
  revert b. induction s as [|c s IH]; intros b; [done|].
  cbn [Content.removeMentions_from].
  destruct (b && is_word c); [by apply sublist_cons|].
  destruct (Content.mention_at (c :: s));
    [by apply sublist_cons|by apply sublist_skip].
Qed.

Lemma collapsePeriods_from_sublist (b : bool) (s : jsstring) :
  Content.collapsePeriods_from b s `sublist_of` s.
Proof.
  revert b. induction s as [|c s IH]; intros b; simpl; [done|].
  destruct (c =? 46)%N; [destruct b|];
    (by apply sublist_cons) || (by apply sublist_skip).
Qed.

Lemma trim_sublist (s : jsstring) : trim s `sublist_of` s.
Proof.
  destruct (trim_infix s) as (k1 & k2 & Hk). rewrite Hk at 2.
  by apply sublist_inserts_l, sublist_inserts_r.
Qed.

Lemma no_pair_cons (bad : N → N → bool) (c : N) (s : jsstring) :
  no_pair bad (c :: s)
  = match head s with
    | Some d => negb (bad c d)
    | None => true
    end && no_pair bad s.
Proof. by destruct s. Qed.

Lemma no_pair_app (bad : N → N → bool) (l1 l2 : jsstring) :
  no_pair bad (l1 ++ l2) = true →
  no_pair bad l1 = true ∧ no_pair bad l2 = true.
Proof.
  induction l1 as [|c l1 IH]; [done|].
  rewrite <- app_comm_cons, !no_pair_cons.
  intros [Hc [H1 H2]%IH]%andb_true_iff. split; [|done].
  rewrite H1, andb_true_r. destruct l1; [done|]. exact Hc.
Qed.

Lemma no_pair_trim (bad : N → N → bool) (s : jsstring) :
  no_pair bad s = true → no_pair bad (trim s) = true.
Proof.
  destruct (trim_infix s) as (k1 & k2 & Hk). rewrite Hk at 1.
  by intros [_ [? _]%no_pair_app]%no_pair_app.
Qed.

Lemma mention_at_pair (c : N) (s : jsstring) :
  Content.mention_at (c :: s)
  = match head s with
    | Some d => mention_pair c d
    | None => false
    end.
Proof. by destruct s. Qed.

Lemma removeMentions_from_head (s : jsstring) :
  word_head (Content.removeMentions_from true s) = false
  ∧ (word_head s = false →
     word_head (Content.removeMentions_from false s) = false).
Proof.
  induction s as [|c s [IH1 IH2]]; [done|].
  cbn [Content.removeMentions_from andb word_head].
  destruct (is_word c) eqn:Ec.
  - split; [exact IH1|done].
  - destruct (Content.mention_at (c :: s)); simpl; by rewrite ?Ec.
Qed.

Lemma removeMentions_from_no_mention (b : bool) (s : jsstring) :
  no_pair mention_pair (Content.removeMentions_from b s) = true.
Proof.
  revert b. induction s as [|c s IH]; intros b; [done|].
  cbn [Content.removeMentions_from].
  destruct (b && is_word c); [apply IH|].
  destruct (Content.mention_at (c :: s)) eqn:E; [apply IH|].
  rewrite no_pair_cons, IH, andb_true_r.
  destruct (head (Content.removeMentions_from false s)) as [d|] eqn:Ed;
    [|done].
  unfold mention_pair. destruct (c =? 64)%N eqn:Ec; [|done]. simpl.
  rewrite mention_at_pair in E. unfold mention_pair in E. rewrite Ec in E.
  destruct (removeMentions_from_head s) as [_ H].
  assert (word_head s = false) as Hs by (destruct s; [done|exact E]).
  specialize (H Hs). destruct (Content.removeMentions_from false s);
    [done|]. injection Ed as ->. simpl in H. by rewrite H.
Qed.

Lemma removeMentions_fixed (s : jsstring) :
  no_pair mention_pair s = true → Content.removeMentions s = s.
Proof.
  unfold Content.removeMentions. induction s as [|c s IH]; [done|].
  rewrite no_pair_cons. intros [Hc Hs]%andb_true_iff.
  cbn [Content.removeMentions_from andb]. rewrite mention_at_pair.
  destruct (head s); [apply negb_true_iff in Hc; rewrite Hc|];
    by rewrite IH.
Qed.

Lemma space_not_word (c : N) : is_space c = true → is_word c = false.
Proof. chars. Qed.

Lemma collapseSpaces_word_head (s : jsstring) :
  word_head (collapseSpaces_from false s) = word_head s.
Proof.
  destruct s as [|c s]; [done|]. simpl.
  destruct (is_space c) eqn:E; [|done]. simpl.
  by rewrite (space_not_word c E).
Qed.

Lemma head_word_head (s : jsstring) (c : N) :
  match head s with
  | Some d => negb (mention_pair c d)
  | None => true
  end = negb ((c =? 64)%N && word_head s).
Proof. destruct s; simpl; by rewrite ?andb_false_r. Qed.

Lemma collapseSpaces_no_mention (b : bool) (s : jsstring) :
  no_pair mention_pair s = true →
  no_pair mention_pair (collapseSpaces_from b s) = true.
Proof.
  revert b. induction s as [|c s IH]; intros b; [done|].
  rewrite no_pair_cons, head_word_head. intros [Hc Hs]%andb_true_iff.
  cbn [collapseSpaces_from]. destruct (is_space c) eqn:E.
  - destruct b; [by apply IH|].
    rewrite no_pair_cons, head_word_head. by rewrite IH.
  - rewrite no_pair_cons, head_word_head, collapseSpaces_word_head.
    by rewrite Hc, IH.
Qed.

Lemma collapsePeriods_word_head (s : jsstring) :
  word_head (Content.collapsePeriods_from false s) = word_head s.
Proof. destruct s as [|c s]; [done|]. simpl. by destruct (c =? 46)%N. Qed.

Lemma collapsePeriods_no_mention (b : bool) (s : jsstring) :
  no_pair mention_pair s = true →
  no_pair mention_pair (Content.collapsePeriods_from b s) = true.
Proof.
  revert b. induction s as [|c s IH]; intros b; [done|].
  rewrite no_pair_cons, head_word_head. intros [Hc Hs]%andb_true_iff.
  cbn [Content.collapsePeriods_from]. destruct (c =? 46)%N eqn:E.
  - destruct b; [by apply IH|].
    rewrite no_pair_cons, head_word_head, IH by done.
    apply N.eqb_eq in E as ->. done.
  - rewrite no_pair_cons, head_word_head, collapsePeriods_word_head.
    by rewrite Hc, IH.
Qed.

Lemma single_spaced_no_pair (b : bool) (s : jsstring) :
  single_spaced b s = true → no_pair space_pair s = true.
Proof.
  revert b. induction s as [|c s IH]; intros b; [done|].
  rewrite no_pair_cons. cbn [single_spaced]. destruct (is_space c) eqn:E.
  - intros [_ Hs]%andb_true_iff. rewrite (IH _ Hs), andb_true_r.
    destruct s as [|d s]; [done|]. simpl in *. unfold space_pair.
    rewrite E. destruct (is_space d); [|done].
    by rewrite andb_false_r in Hs.
  - intros Hs. rewrite (IH _ Hs), andb_true_r.
    destruct s; [done|]. simpl. unfold space_pair. by rewrite E.
Qed.

Lemma no_pair_single_spaced (s : jsstring) :
  Forall (λ c, is_space c = true → c = SPACE) s →
  no_pair space_pair s = true →
  single_spaced false s = true
  ∧ (word_head s = true ∨ (∀ c, head s = Some c → is_space c = false) →
     single_spaced true s = true).
Proof.
  induction 1 as [|c s Hc Hs IH]; [done|].
  rewrite no_pair_cons. intros [Hpair Hrest]%andb_true_iff.
  destruct (IH Hrest) as [IH1 IH2]. cbn [single_spaced].
  destruct (is_space c) eqn:E.
  - assert (single_spaced true s = true) as Ht.
    { apply IH2. right. intros d Hd. rewrite Hd in Hpair.
      unfold space_pair in Hpair. rewrite E in Hpair.
      by apply negb_true_iff in Hpair. }
    rewrite Ht, (Hc eq_refl). split; [done|].
    intros [Hw|Hh]; [by vm_compute in Hw|].
    specialize (Hh _ eq_refl). by vm_compute in Hh.
  - by split.
Qed.

Lemma collapseSpaces_normal_fixed (s : jsstring) :
  Forall (λ c, is_space c = true → c = SPACE) s →
  no_pair space_pair s = true → collapseSpaces s = s.
Proof.
  intros H1 H2. apply collapseSpaces_from_fixed.
  by apply no_pair_single_spaced.
Qed.

Lemma collapsePeriods_head (s : jsstring) :
  head (Content.collapsePeriods_from false s) = head s.
Proof. destruct s as [|c s]; [done|]. simpl. by destruct (c =? 46)%N. Qed.

Lemma period_not_space (c : N) : (c =? 46)%N = true → is_space c = false.
Proof. chars. Qed.

Lemma collapsePeriods_no_double_space (b : bool) (s : jsstring) :
  no_pair space_pair s = true →
  no_pair space_pair (Content.collapsePeriods_from b s) = true.
Proof.
  revert b. induction s as [|c s IH]; intros b; [done|].
  rewrite no_pair_cons. intros [Hc Hs]%andb_true_iff.
  cbn [Content.collapsePeriods_from]. destruct (c =? 46)%N eqn:E.
  - destruct b; [by apply IH|]. rewrite no_pair_cons, IH by done.
    unfold space_pair. rewrite (period_not_space c E).
    by destruct (head (Content.collapsePeriods_from true s)).
  - by rewrite no_pair_cons, collapsePeriods_head, Hc, IH.
Qed.

Lemma collapsePeriods_from_single (b : bool) (s : jsstring) :
  no_pair period_pair (Content.collapsePeriods_from b s) = true
  ∧ (b = true → head (Content.collapsePeriods_from b s) ≠ Some 46%N).
Proof.
  revert b. induction s as [|c s IH]; intros b; [done|].
  cbn [Content.collapsePeriods_from]. destruct (c =? 46)%N eqn:E.
  - destruct b; [apply IH|]. split; [|done].
    destruct (IH true) as [IH1 IH2]. rewrite no_pair_cons, IH1, andb_true_r.
    destruct (head _) as [d|] eqn:Ed; [|done].
    unfold period_pair. rewrite E. simpl. apply negb_true_iff.
    apply N.eqb_neq. intros ->. by apply IH2.
  - destruct (IH false) as [IH1 _]. split.
    + rewrite no_pair_cons, IH1, andb_true_r. unfold period_pair.
      rewrite E. by destruct (head (Content.collapsePeriods_from false s)).
    + intros _. simpl. intros [= ->]. done.
Qed.

Lemma collapsePeriods_fixed (s : jsstring) :
  no_pair period_pair s = true →
  Content.collapsePeriods_from false s = s
  ∧ (head s ≠ Some 46%N → Content.collapsePeriods_from true s = s).
Proof.
  induction s as [|c s IH]; [done|].
  rewrite no_pair_cons. intros [Hc Hs]%andb_true_iff.
  destruct (IH Hs) as [IH1 IH2]. cbn [Content.collapsePeriods_from].
  destruct (c =? 46)%N eqn:E.
  - assert (head s ≠ Some 46%N) as Hh.
    { intros Hd. rewrite Hd in Hc. unfold period_pair in Hc.
      by rewrite E in Hc. }
    split; [by rewrite IH2|]. apply N.eqb_eq in E as ->. done.
  - by rewrite IH1.
Qed.

Lemma Forall_sublist (P : N → Prop) (t s : jsstring) :
  t `sublist_of` s → Forall P s → Forall P t.
Proof.
  intros Hts Hs. apply Forall_forall. intros c Hc.
  rewrite Forall_forall in Hs. eapply Hs, elem_of_sublist; done.
Qed.

Lemma content_normal_fixed (s : jsstring) :
  content_normal s → Content.cleanText s = s.
Proof.
  intros (Hcit & Hmen & Hsp & Hdsp & Hper & Htrim). unfold Content.cleanText.
  rewrite removeCitations_fixed, removeMentions_fixed,
    collapseSpaces_normal_fixed by done.
  unfold Content.collapsePeriods.
  by rewrite (proj1 (collapsePeriods_fixed s Hper)).
Qed.

Lemma content_clean_no_citation (x : jsstring) :
  has_citation (Content.cleanText x) = false.
Proof.
  unfold Content.cleanText, Content.collapsePeriods, Content.removeMentions,
    collapseSpaces, removeCitations.
  eapply has_citation_sublist; [apply trim_sublist|].
  eapply has_citation_sublist; [apply collapsePeriods_from_sublist|].
  rewrite has_citation_collapseSpaces.
  eapply has_citation_sublist; [apply removeMentions_from_sublist|].
  apply removeCitations_from_no_citation.
Qed.

Lemma content_clean_no_mention (x : jsstring) :
  no_pair mention_pair (Content.cleanText x) = true.
Proof.
  apply no_pair_trim, collapsePeriods_no_mention, collapseSpaces_no_mention,
    removeMentions_from_no_mention.
Qed.

Lemma content_clean_spaces (x : jsstring) :
  Forall (λ c, is_space c = true → c = SPACE) (Content.cleanText x)
  ∧ no_pair space_pair (Content.cleanText x) = true.
Proof.
  unfold Content.cleanText, Content.collapsePeriods, collapseSpaces. split.
  - eapply Forall_sublist; [apply trim_sublist|].
    eapply Forall_sublist; [apply collapsePeriods_from_sublist|].
    apply collapseSpaces_from_spaces.
  - apply no_pair_trim, collapsePeriods_no_double_space.
    eapply single_spaced_no_pair, collapseSpaces_from_single_spaced.
Qed.

Lemma content_clean_periods (x : jsstring) :
  no_pair period_pair (Content.cleanText x) = true.
Proof. apply no_pair_trim, collapsePeriods_from_single. Qed.

Lemma cleanText_is_normal (x : jsstring) :
  content_normal (Content.cleanText x).
Proof.
  destruct (content_clean_spaces x) as [Hsp Hdsp].
  split; [apply content_clean_no_citation|].
  split; [apply content_clean_no_mention|].
  split; [exact Hsp|]. split; [exact Hdsp|].
  split; [apply content_clean_periods|].
  apply trim_idem.
Qed.

(** X4.  Whatever the text, [cleanText] of the content script returns a
    text in normal form: no opening bracket has a closing bracket after
    it, no [@] is followed by a word character, every white-space
    character is a space and no two are adjacent, no two periods are
    adjacent, and the text neither starts nor ends with white space. *)
Theorem content_clean_normal_form (x : jsstring) :
  has_citation (Content.cleanText x) = false
  ∧ no_pair mention_pair (Content.cleanText x) = true
  ∧ Forall (λ c, is_space c = true → c = SPACE) (Content.cleanText x)
  ∧ no_pair space_pair (Content.cleanText x) = true
  ∧ no_pair period_pair (Content.cleanText x) = true
  ∧ (∀ c, head (Content.cleanText x) = Some c → is_space c = false)
  ∧ (∀ c, last (Content.cleanText x) = Some c → is_space c = false).
Proof.
  destruct (content_clean_spaces x) as [Hsp Hdsp].
  split; [apply content_clean_no_citation|].
  split; [apply content_clean_no_mention|].
  split; [exact Hsp|]. split; [exact Hdsp|].
  split; [apply content_clean_periods|].
  apply trimmed_ends. unfold Content.cleanText. apply trim_idem.
Qed.

(** X5.  [cleanText] of the content script is idempotent: cleaning a
    cleaned text changes nothing. *)
Theorem content_clean_idempotent (x : jsstring) :
  Content.cleanText (Content.cleanText x) = Content.cleanText x.
Proof. apply content_normal_fixed, cleanText_is_normal. Qed.

(** X6.  On a text that the content script has cleaned, the first pass of
    the summarizer's own cleaning (the removal of bracketed citations)
    finds nothing to remove. *)
Theorem citations_already_removed (x : jsstring) :
  removeCitations (Content.cleanText x) = Content.cleanText x.
Proof. apply removeCitations_fixed, content_clean_no_citation. Qed.

(** *** The click handler *)

Example parseInt_examples :
  map parseInt [js "5"; js " 12px"; js "-3"; js "+7"; js "0x1F"; js "0x";
                js "abc"; []; js "-"; js "08"; js "-0"; js "3.9"]
  = [Some 5; Some 12; Some (-3); Some 7; Some 31; None;
     None; None; None; Some 8; Some 0; Some 3]%Z.
Proof. vm_compute. reflexivity. Qed.

Example numberToString_examples :
  map numberToString [0; 7; 42; 120] = [js "0"; js "7"; js "42"; js "120"].
Proof. vm_compute. reflexivity. Qed.

Example click_examples :
  run (sortBy afterByScore) (aloneClick 0 catPage) blankWorld
  = Some {| shown := catShown; calls := [Finished] |}
  ∧ run (sortBy afterByScore) (aloneClick 0 silentPage) blankWorld
    = Some {| shown := silentShown; calls := [Finished] |}
  ∧ (shown <$> run (sortBy afterByScore)
                   [Click; TabsQueried 0 (Fulfilled None)] blankWorld)
    = Some {| loaderHidden := true; summaryHidden := true;
              errorHidden := false; summaryText := []; wordCountText := [];
              errorText := js "No active tab found"; status := None |}
  ∧ run (sortBy afterByScore)
        [Click; TabsQueried 0 (Fulfilled None); ScriptsInjected 0] blankWorld
    = None.
Proof. vm_compute. repeat split; reflexivity. Qed.

(** Two clicks that overlap, the later of which gets a summary and the
    earlier a timeout: in the end no call is at an [await], and both the
    summary container and the error box are visible. *)
Example overlapping_clicks :
  run (sortBy afterByScore) overlappingClicks blankWorld = Some overlapped
  ∧ idle overlapped = true
  ∧ loaderHidden (shown overlapped) = true
  ∧ summaryHidden (shown overlapped) = false
  ∧ errorHidden (shown overlapped) = false.
Proof. vm_compute. repeat split; reflexivity. Qed.

Lemma errorMessageFor_nonempty (message : jsstring) :
  errorMessageFor message ≠ [].
Proof.
  unfold errorMessageFor. repeat case_match; try done; by vm_compute.
Qed.

Lemma afterQuery_outcome (tabs : settled (option tabInfo)) (ui : popup) :
  (∃ url, tabs = Fulfilled (Some {| tabUrl := Some url |})
          ∧ startsWith url (js "http") = true
          ∧ afterQuery tabs ui = (ui, inr ()))
  ∨ (∃ message, afterQuery tabs ui = (ui, inl message)).
Proof.
  unfold afterQuery.
  destruct tabs as [[[url]|]|m]; cbn [await bind ret throw];
    [|right; by eexists..].
  destruct url as [url|]; cbn [missing tabUrl present orb];
    [|right; by eexists].
  destruct url as [|c url]; [right; by eexists|]. cbn [orb].
  destruct (startsWith (c :: url) (js "http")) eqn:Eurl; cbn [negb];
    [|right; by eexists].
  left. by exists (c :: url).
Qed.

Lemma catchBlock_fields (message : jsstring) (ui : popup) :
  loaderHidden (catchBlock message ui) = true
  ∧ errorHidden (catchBlock message ui) = false
  ∧ errorText (catchBlock message ui) ≠ []
  ∧ summaryHidden (catchBlock message ui) = summaryHidden ui
  ∧ summaryText (catchBlock message ui) = summaryText ui
  ∧ wordCountText (catchBlock message ui) = wordCountText ui.
Proof.
  repeat split. apply errorMessageFor_nonempty.
Qed.

Section HandlerFacts.
Variable byScore : list ScoredSentence → list ScoredSentence.

(** What the last part of the [try] block has done when it ends without an
    error, and what it has left alone when it throws. *)
Lemma afterReply_outcome (reply : settled (option response))
  (selected : jsstring) (ui : popup) :
  (∃ text ui',
      reply = Fulfilled (Some {| content := Some text |})
      ∧ 50 ≤ length text
      ∧ afterReply byScore reply selected ui = (ui', inr ())
      ∧ summaryText ui'
        = summarizeSorting byScore text (sentenceCountOr5 (parseInt selected))
      ∧ trim (summaryText ui') ≠ []
      ∧ wordCountText ui'
        = numberToString (length (splitSpaces (summaryText ui')))
          ++ js " words"
      ∧ loaderHidden ui' = true
      ∧ summaryHidden ui' = false
      ∧ errorHidden ui' = errorHidden ui
      ∧ errorText ui' = errorText ui)
  ∨ (∃ message ui',
        afterReply byScore reply selected ui = (ui', inl message)
        ∧ summaryHidden ui' = summaryHidden ui
        ∧ errorHidden ui' = errorHidden ui
        ∧ summaryText ui' = summaryText ui
        ∧ wordCountText ui' = wordCountText ui
        ∧ errorText ui' = errorText ui).
Proof.
  unfold afterReply.
  destruct reply as [[[text]|]|m]; cbn [await bind ret throw];
    [|right; by eexists _, _..].
  destruct text as [text|]; cbn [missing content present orb];
    [|right; by eexists _, _].
  destruct text as [|d text]; [right; by eexists _, _|]. cbn [orb].
  destruct (length (d :: text) <? 50) eqn:Elen; [right; by eexists _, _|].
  apply Nat.ltb_ge in Elen. cbn [change bind]. cbv zeta.
  set (summary := summarizeSorting byScore (d :: text)
                    (sentenceCountOr5 (parseInt selected))).
  destruct summary as [|e rest] eqn:Esum; cbn [missing orb];
    [right; by eexists _, _|].
  destruct (length (trim (e :: rest)) =? 0) eqn:Etrim; cbn [throw];
    [right; by eexists _, _|].
  cbn [change bind]. left. eexists (d :: text), _.
  apply Nat.eqb_neq in Etrim.
  repeat split; try done.
  cbn [summaryText setSummaryHidden setWordCountText setSummaryText].
  intros Hnil. by rewrite Hnil in Etrim.
Qed.

Lemma run_snoc (events : list event) (e : event) (w : world) :
  run byScore (events ++ [e]) w
  = match run byScore events w with
    | Some w' => deliver byScore e w'
    | None => None
    end.
Proof.
  revert w. induction events as [|e' events IH]; intros w; simpl.
  - by destruct (deliver byScore e w).
  - destruct (deliver byScore e' w); [apply IH|done].
Qed.

(** What one turn of the event loop does. *)
Lemma deliver_effect (e : event) (w w' : world) :
  deliver byScore e w = Some w' →
  match e with
  | Click =>
      shown w' = clickStarted (shown w) ∧ calls w' = calls w ++ [AwaitTabs]
  | TabsQueried i tabs =>
      calls w !! i = Some AwaitTabs
      ∧ ((∃ url, tabs = Fulfilled (Some {| tabUrl := Some url |})
                 ∧ startsWith url (js "http") = true
                 ∧ shown w' = shown w
                 ∧ calls w' = <[i := AwaitScripts]> (calls w))
         ∨ (∃ message, shown w' = catchBlock message (shown w)
                       ∧ calls w' = <[i := Finished]> (calls w)))
  | ScriptsInjected i =>
      calls w !! i = Some AwaitScripts
      ∧ shown w' = shown w ∧ calls w' = <[i := AwaitDelay]> (calls w)
  | DelayOver i =>
      calls w !! i = Some AwaitDelay
      ∧ shown w' = shown w ∧ calls w' = <[i := AwaitReply]> (calls w)
  | Replied i reply selected =>
      calls w !! i = Some AwaitReply
      ∧ calls w' = <[i := Finished]> (calls w)
      ∧ ((∃ text,
             reply = Fulfilled (Some {| content := Some text |})
             ∧ 50 ≤ length text
             ∧ summaryText (shown w')
               = summarizeSorting byScore text
                   (sentenceCountOr5 (parseInt selected))
             ∧ trim (summaryText (shown w')) ≠ []
             ∧ wordCountText (shown w')
               = numberToString
                   (length (splitSpaces (summaryText (shown w'))))
                 ++ js " words"
             ∧ loaderHidden (shown w') = true
             ∧ summaryHidden (shown w') = false
             ∧ errorHidden (shown w') = errorHidden (shown w)
             ∧ errorText (shown w') = errorText (shown w))
         ∨ (loaderHidden (shown w') = true
            ∧ errorHidden (shown w') = false
            ∧ errorText (shown w') ≠ []
            ∧ summaryHidden (shown w') = summaryHidden (shown w)
            ∧ summaryText (shown w') = summaryText (shown w)
            ∧ wordCountText (shown w') = wordCountText (shown w)))
  end.
Proof.
  destruct e as [|i tabs|i|i|i reply selected]; cbn [deliver].
  - by intros [= <-].
  - destruct (calls w !! i) as [[]|] eqn:Ei; try done. intros [= <-].
    split; [done|].
    destruct (afterQuery_outcome tabs (shown w))
      as [(url & -> & Hurl & ->)|(message & ->)]; cbn [resumed shown calls].
    + left. by exists url.
    + right. by exists message.
  - destruct (calls w !! i) as [[]|] eqn:Ei; try done. by intros [= <-].
  - destruct (calls w !! i) as [[]|] eqn:Ei; try done. by intros [= <-].
  - destruct (calls w !! i) as [[]|] eqn:Ei; try done. intros [= <-].
    split; [done|].
    destruct (afterReply_outcome reply selected (shown w))
      as [(text & ui' & -> & Hlen & -> & H)|(message & ui' & -> & H)];
      cbn [resumed shown calls]; (split; [done|]).
    + left. by exists text.
    + right. destruct H as (Hs & He & Hst & Hwt & Het).
      destruct (catchBlock_fields message ui') as (? & ? & ? & Hs' & Hst' & Hwt').
      rewrite Hs', Hst', Hwt'. by repeat split.
Qed.

Lemma idle_lookup (w : world) (i : nat) (st : stage) :
  idle w = true → calls w !! i = Some st → st = Finished.
Proof.
  unfold idle. rewrite forallb_forall.
  intros Hall Hi%list_elem_of_lookup_2%list_elem_of_In.
  specialize (Hall st Hi). by destruct st.
Qed.

Lemma busy_insert (l : list stage) (i : nat) (st : stage) :
  i < length l → isFinished st = false →
  forallb isFinished (<[i := st]> l) = false.
Proof.
  intros Hi Hst. apply not_true_is_false. rewrite forallb_forall.
  intros Hall. rewrite (Hall st) in Hst; [done|].
  apply list_elem_of_In, (list_elem_of_lookup_2 _ i).
  by apply list_lookup_insert_eq.
Qed.

Lemma clicks_cons (e : event) (events : list event) :
  clicks (e :: events) = (if isClick e then 1 else 0) + clicks events.
Proof. unfold clicks. simpl. by destruct (isClick e). Qed.

(** When no call is at an [await], only a click can come. *)
Lemma idle_stuck (events : list event) (w w' : world) :
  idle w = true → clicks events = 0 → run byScore events w = Some w' →
  events = [].
Proof.
  destruct events as [|e events]; [done|]. intros Hidle Hclicks.
  rewrite clicks_cons in Hclicks.
  destruct e as [|i tabs|i|i|i reply selected]; cbn [isClick] in Hclicks;
    [lia|..]; cbn [run deliver];
    (destruct (calls w !! i) as [st|] eqn:Ei; [|done]);
    apply (idle_lookup w i st Hidle) in Ei; by subst st.
Qed.

(** A world whose only call at an [await] is the last one. *)
Lemma sole_lookup (hs : list stage) (st st' : stage) (i : nat) :
  forallb isFinished hs = true →
  (hs ++ [st]) !! i = Some st' → isFinished st' = false →
  i = length hs ∧ st' = st.
Proof.
  intros Hhs Hi Hst. apply lookup_app_Some in Hi as [Hi|[Hge Hi]].
  - rewrite forallb_forall in Hhs.
    apply list_elem_of_lookup_2, list_elem_of_In, Hhs in Hi. congruence.
  - destruct (i - length hs) as [|k] eqn:Ek; simpl in Hi.
    + injection Hi as <-. split; [lia|done].
    + by rewrite lookup_nil in Hi.
Qed.

Lemma sole_insert (hs : list stage) (st x : stage) :
  <[length hs := x]> (hs ++ [st]) = hs ++ [x].
Proof. by rewrite insert_app_r_alt, Nat.sub_diag by lia. Qed.

Lemma sole_step (hs : list stage) (st : stage) (ui : popup) (e : event)
  (w1 : world) :
  forallb isFinished hs = true → isClick e = false →
  deliver byScore e {| shown := ui; calls := hs ++ [st] |} = Some w1 →
  match st with
  | AwaitTabs =>
      ∃ tabs, e = TabsQueried (length hs) tabs
        ∧ ((afterQuery tabs ui = (ui, inr ())
            ∧ w1 = {| shown := ui; calls := hs ++ [AwaitScripts] |})
           ∨ (∃ message, afterQuery tabs ui = (ui, inl message)
                ∧ w1 = {| shown := catchBlock message ui;
                          calls := hs ++ [Finished] |}))
  | AwaitScripts =>
      e = ScriptsInjected (length hs)
      ∧ w1 = {| shown := ui; calls := hs ++ [AwaitDelay] |}
  | AwaitDelay =>
      e = DelayOver (length hs)
      ∧ w1 = {| shown := ui; calls := hs ++ [AwaitReply] |}
  | AwaitReply =>
      ∃ reply selected, e = Replied (length hs) reply selected
        ∧ w1 = {| shown := match afterReply byScore reply selected ui with
                           | (ui', inr _) => ui'
                           | (ui', inl message) => catchBlock message ui'
                           end;
                  calls := hs ++ [Finished] |}
  | Finished => False
  end.
Proof.
  intros Hhs Hclick.
  destruct e as [|i tabs|i|i|i reply selected]; [done|..];
    cbn [deliver calls shown];
    (destruct ((hs ++ [st]) !! i) as [st'|] eqn:Ei; [|done]);
    destruct st'; try done;
    (apply (sole_lookup hs st _ i Hhs) in Ei as [-> <-]; [|done]);
    intros [= <-].
  - exists tabs. split; [done|].
    destruct (afterQuery_outcome tabs ui) as [(url & _ & _ & H)|(m & H)];
      rewrite H; cbn [resumed calls]; rewrite sole_insert.
    + by left.
    + right. by exists m.
  - unfold moved. cbn [calls shown]. by rewrite sole_insert.
  - unfold moved. cbn [calls shown]. by rewrite sole_insert.
  - exists reply, selected. split; [done|].
    destruct (afterReply byScore reply selected ui) as [ui' [m|[]]];
      cbn [resumed calls]; by rewrite sole_insert.
Qed.

Lemma sole_ended (hs : list stage) (ui : popup) (events : list event)
  (w' : world) :
  forallb isFinished hs = true → clicks events = 0 →
  run byScore events {| shown := ui; calls := hs ++ [Finished] |} = Some w' →
  shown w' = ui.
Proof.
  intros Hhs Hclicks Hrun.
  assert (events = []) as ->.
  { eapply idle_stuck; [|done..]. unfold idle. cbn [calls].
    by rewrite forallb_app, Hhs. }
  by injection Hrun as <-.
Qed.

Lemma sole_busy (hs : list stage) (st : stage) (ui : popup) :
  isFinished st = false →
  idle {| shown := ui; calls := hs ++ [st] |} = false.
Proof.
  intros Hst. unfold idle. cbn [calls]. rewrite forallb_app. simpl.
  rewrite Hst. by rewrite andb_false_r.
Qed.

Lemma sole_reply (hs : list stage) (ui : popup) (events : list event)
  (w' : world) :
  forallb isFinished hs = true → clicks events = 0 →
  run byScore events {| shown := ui; calls := hs ++ [AwaitReply] |}
  = Some w' →
  idle w' = true →
  ∃ reply selected,
    shown w' = match afterReply byScore reply selected ui with
               | (ui', inr _) => ui'
               | (ui', inl message) => catchBlock message ui'
               end.
Proof.
  intros Hhs Hclicks Hrun Hidle. destruct events as [|e events].
  - injection Hrun as <-. by rewrite sole_busy in Hidle.
  - rewrite clicks_cons in Hclicks. cbn [run] in Hrun.
    destruct (deliver byScore e _) as [w1|] eqn:Ed; [|done].
    apply sole_step in Ed as (reply & selected & -> & ->);
      [|done|by destruct e].
    exists reply, selected.
    apply (sole_ended hs _ events w' Hhs); [simpl in *; lia|exact Hrun].
Qed.

Lemma sole_delay (hs : list stage) (ui : popup) (events : list event)
  (w' : world) :
  forallb isFinished hs = true → clicks events = 0 →
  run byScore events {| shown := ui; calls := hs ++ [AwaitDelay] |}
  = Some w' →
  idle w' = true →
  ∃ reply selected,
    shown w' = match afterReply byScore reply selected ui with
               | (ui', inr _) => ui'
               | (ui', inl message) => catchBlock message ui'
               end.
Proof.
  intros Hhs Hclicks Hrun Hidle. destruct events as [|e events].
  - injection Hrun as <-. by rewrite sole_busy in Hidle.
  - rewrite clicks_cons in Hclicks. cbn [run] in Hrun.
    destruct (deliver byScore e _) as [w1|] eqn:Ed; [|done].
    apply sole_step in Ed as (-> & ->); [|done|by destruct e].
    apply (sole_reply hs ui events w' Hhs); [simpl in *; lia|done..].
Qed.

Lemma sole_scripts (hs : list stage) (ui : popup) (events : list event)
  (w' : world) :
  forallb isFinished hs = true → clicks events = 0 →
  run byScore events {| shown := ui; calls := hs ++ [AwaitScripts] |}
  = Some w' →
  idle w' = true →
  ∃ reply selected,
    shown w' = match afterReply byScore reply selected ui with
               | (ui', inr _) => ui'
               | (ui', inl message) => catchBlock message ui'
               end.
Proof.
  intros Hhs Hclicks Hrun Hidle. destruct events as [|e events].
  - injection Hrun as <-. by rewrite sole_busy in Hidle.
  - rewrite clicks_cons in Hclicks. cbn [run] in Hrun.
    destruct (deliver byScore e _) as [w1|] eqn:Ed; [|done].
    apply sole_step in Ed as (-> & ->); [|done|by destruct e].
    apply (sole_delay hs ui events w' Hhs); [simpl in *; lia|done..].
Qed.

(** A click that comes when no call is at an [await], and whose call ends
    before the next click, leaves the popup that the listener gives when
    it runs from its first line to its last. *)
Lemma single_click (events : list event) (w w' : world) :
  idle w = true → clicks events = 1 →
  run byScore events w = Some w' → idle w' = true →
  ∃ env, shown w' = onSummarizeClick byScore env (shown w).
Proof.
  intros Hidle Hclicks Hrun Hidle'. destruct events as [|e events]; [done|].
  rewrite clicks_cons in Hclicks.
  destruct (isClick e) eqn:Ee.
  2:{ exfalso. assert (clicks (e :: events) = 1) as Hc
        by (rewrite clicks_cons, Ee; lia).
      destruct e as [|i tabs|i|i|i reply selected]; [done|..];
        cbn [run deliver] in Hrun;
        (destruct (calls w !! i) as [st|] eqn:Ei; [|done]);
        apply (idle_lookup w i st Hidle) in Ei; by subst st. }
  destruct e; try done. cbn [run deliver] in Hrun.
  assert (clicks events = 0) as Hc by lia. clear Hclicks.
  unfold idle in Hidle. destruct events as [|e events].
  { injection Hrun as <-. by rewrite sole_busy in Hidle'. }
  rewrite clicks_cons in Hc. cbn [run] in Hrun.
  destruct (deliver byScore e _) as [w1|] eqn:Ed; [|done].
  apply sole_step in Ed as (tabs & -> & [[Hq ->]|(m & Hq & ->)]);
    [| |done|by destruct e].
  - assert (clicks events = 0) as Hc' by (simpl in Hc; lia).
    destruct (sole_scripts _ _ _ _ Hidle Hc' Hrun Hidle')
      as (reply & selected & ->).
    exists {| queried := tabs; replied := reply; selectValue := selected |}.
    unfold onSummarizeClick, tryBlock, bind.
    cbn [queried replied selectValue]. by rewrite Hq.
  - exists {| queried := tabs; replied := Rejected []; selectValue := [] |}.
    unfold onSummarizeClick, tryBlock, bind.
    cbn [queried replied selectValue]. rewrite Hq.
    apply (sole_ended (calls w) _ events w' Hidle); [simpl in Hc; lia|done].
Qed.

Lemma alone_outcome (env : surroundings) (ui : popup) :
  loaderHidden (onSummarizeClick byScore env ui) = true
  ∧ summaryHidden (onSummarizeClick byScore env ui)
    = negb (errorHidden (onSummarizeClick byScore env ui))
  ∧ (errorHidden (onSummarizeClick byScore env ui) = false →
     summaryText (onSummarizeClick byScore env ui) = summaryText ui
     ∧ wordCountText (onSummarizeClick byScore env ui) = wordCountText ui).
Proof.
  unfold onSummarizeClick, tryBlock, bind.
  destruct (afterQuery_outcome (queried env) (clickStarted ui))
    as [(url & _ & _ & ->)|(m & ->)]; [|by repeat split].
  destruct (afterReply_outcome (replied env) (selectValue env)
              (clickStarted ui))
    as [(text & ui' & _ & _ & -> & _ & _ & _ & Hl & Hs & He & _)
       |(m & ui' & -> & Hs & He & Hst & Hwt & _)].
  - simpl in He. rewrite Hl, Hs, He. by repeat split.
  - simpl in *. rewrite Hs, Hst, Hwt. by repeat split.
Qed.

(** What the events so far tell, whatever the clicks and the order in
    which the promises settle: a call that stands after its first [await]
    has got a web page, and a visible summary comes from a reply. *)
Lemma history (events : list event) (w w' : world) :
  idle w = true → summaryHidden (shown w) = true →
  run byScore events w = Some w' →
  (∀ i st, calls w' !! i = Some st →
           st = AwaitScripts ∨ st = AwaitDelay ∨ st = AwaitReply →
           passedQuery events i)
  ∧ (summaryHidden (shown w') = false →
     summaryFrom byScore events (shown w')).
Proof.
  intros Hidle Hhidden. revert w'.
  induction events as [|e events IH] using rev_ind; intros w' Hrun.
  { injection Hrun as <-. split; [|congruence].
    intros i st Hi Hst. apply (idle_lookup w i st Hidle) in Hi.
    subst st. by destruct Hst as [|[|]]. }
  rewrite run_snoc in Hrun.
  destruct (run byScore events w) as [w0|]; [|done].
  destruct (IH w0 eq_refl) as [IHcalls IHshown]. clear IH.
  assert (∀ i, passedQuery events i → passedQuery (events ++ [e]) i)
    as Hpassed.
  { intros i (url & Hin & Hurl). exists url. split; [|done].
    apply elem_of_app. by left. }
  assert (∀ ui, summaryHidden ui = summaryHidden (shown w0) →
                summaryText ui = summaryText (shown w0) →
                wordCountText ui = wordCountText (shown w0) →
                summaryHidden ui = false →
                summaryFrom byScore (events ++ [e]) ui) as Hcarried.
  { intros ui Hs Hst Hwt Hvisible. rewrite Hs in Hvisible.
    destruct (IHshown Hvisible)
      as (i & text & selected & Hq & Hin & Hlen & Hsum & Htrim & Hwords).
    exists i, text, selected. rewrite Hst, Hwt.
    split; [by apply Hpassed|]. split; [apply elem_of_app; by left|done]. }
  assert (∀ i k st st', calls w0 !! i = Some st →
            (st' = AwaitScripts ∨ st' = AwaitDelay ∨ st' = AwaitReply →
             passedQuery (events ++ [e]) i) →
            ∀ st'', <[i := st']> (calls w0) !! k = Some st'' →
              st'' = AwaitScripts ∨ st'' = AwaitDelay ∨ st'' = AwaitReply →
              passedQuery (events ++ [e]) k) as Hinsert.
  { intros i k st st' Hi Hnew st'' Hk Hst''.
    destruct (decide (i = k)) as [<-|Hne].
    - rewrite list_lookup_insert_eq in Hk by by eapply lookup_lt_Some.
      injection Hk as <-. by apply Hnew.
    - rewrite list_lookup_insert_ne in Hk by done.
      by apply Hpassed, (IHcalls k st''). }
  apply deliver_effect in Hrun.
  destruct e as [|i tabs|i|i|i reply selected].
  - destruct Hrun as [Hshown Hcalls]. split.
    + intros i st Hi Hst. rewrite Hcalls in Hi.
      apply lookup_app_Some in Hi as [Hi|[_ Hi]].
      * by apply Hpassed, (IHcalls i st).
      * destruct (i - length (calls w0)) as [|k]; simpl in Hi.
        -- injection Hi as <-. by destruct Hst as [|[|]].
        -- by rewrite lookup_nil in Hi.
    + by rewrite Hshown.
  - destruct Hrun as (Hi & [(url & -> & Hurl & Hshown & Hcalls)
                           |(m & Hshown & Hcalls)]);
      rewrite Hcalls, Hshown.
    + split; [|by apply Hcarried].
      intros k. apply (Hinsert i k AwaitTabs AwaitScripts Hi).
      intros _. exists url. split; [|done].
      apply elem_of_app. right. apply list_elem_of_here.
    + split; [|by apply Hcarried].
      intros k. apply (Hinsert i k AwaitTabs Finished Hi).
      by intros [|[|]].
  - destruct Hrun as (Hi & Hshown & Hcalls). rewrite Hcalls, Hshown.
    split; [|by apply Hcarried].
    intros k. apply (Hinsert i k AwaitScripts AwaitDelay Hi).
    intros _. apply Hpassed, (IHcalls i AwaitScripts Hi). by left.
  - destruct Hrun as (Hi & Hshown & Hcalls). rewrite Hcalls, Hshown.
    split; [|by apply Hcarried].
    intros k. apply (Hinsert i k AwaitDelay AwaitReply Hi).
    intros _. apply Hpassed, (IHcalls i AwaitDelay Hi). right. by left.
  - destruct Hrun as (Hi & Hcalls & Hshown). rewrite Hcalls. split.
    { intros k. apply (Hinsert i k AwaitReply Finished Hi). by intros [|[|]]. }
    destruct Hshown
      as [(text & -> & Hlen & Hsum & Htrim & Hwords & _)
         |(_ & _ & _ & Hs & Hst & Hwt)]; [|by apply Hcarried].
    intros _. exists i, text, selected.
    split; [apply Hpassed, (IHcalls i AwaitReply Hi); by right; right|].
    split; [apply elem_of_app; right; apply list_elem_of_here|done].
Qed.

(** A visible error box has a message, whatever the clicks and the order
    in which the promises settle. *)
Lemma error_has_message (events : list event) (w w' : world) :
  (errorHidden (shown w) = false → errorText (shown w) ≠ []) →
  run byScore events w = Some w' →
  errorHidden (shown w') = false → errorText (shown w') ≠ [].
Proof.
  intros Hstart. revert w'.
  induction events as [|e events IH] using rev_ind; intros w' Hrun.
  { by injection Hrun as <-. }
  rewrite run_snoc in Hrun.
  destruct (run byScore events w) as [w0|]; [|done].
  specialize (IH w0 eq_refl). apply deliver_effect in Hrun.
  destruct e as [|i tabs|i|i|i reply selected].
  - destruct Hrun as [-> _]. done.
  - destruct Hrun as (_ & [(url & _ & _ & -> & _)|(m & -> & _)]); [done|].
    intros _. apply errorMessageFor_nonempty.
  - by destruct Hrun as (_ & -> & _).
  - by destruct Hrun as (_ & -> & _).
  - destruct Hrun as (_ & _ & [(text & _ & _ & _ & _ & _ & _ & _ & He & Het)
                              |(_ & _ & Het & _)]); [|done].
    by rewrite He, Het.
Qed.

End HandlerFacts.

(** X7.  When the last of the calls of the listener that were at an
    [await] has ended, whatever the clicks before and the order in which
    the promises settled, the loader is hidden and the summary container
    or the error box is visible.  When there was a single click, which
    came when no call was at an [await], exactly one of the two is
    visible; with clicks that overlap both can be. *)
Theorem click_panels (byScore : list ScoredSentence → list ScoredSentence)
  (events : list event) (w w' : world) :
  events ≠ [] → run byScore events w = Some w' → idle w' = true →
  loaderHidden (shown w') = true
  ∧ (summaryHidden (shown w') = false ∨ errorHidden (shown w') = false)
  ∧ (idle w = true → clicks events = 1 →
     summaryHidden (shown w') = negb (errorHidden (shown w'))).
Proof.
  intros Hne Hrun Hidle. split; [|split].
  3:{ intros Hidle0 Hclicks.
      destruct (single_click byScore events w w' Hidle0 Hclicks Hrun Hidle)
        as [env ->].
      apply alone_outcome. }
  all: destruct (exists_last Hne) as (events0 & e & ->);
    rewrite run_snoc in Hrun;
    destruct (run byScore events0 w) as [w0|]; [|done];
    apply deliver_effect in Hrun; unfold idle in Hidle;
    destruct e as [|i tabs|i|i|i reply selected].
  - destruct Hrun as [_ Hcalls]. rewrite Hcalls, forallb_app in Hidle.
    simpl in Hidle. by rewrite andb_false_r in Hidle.
  - destruct Hrun as (Hi%lookup_lt_Some
                      & [(url & _ & _ & _ & Hcalls)|(m & -> & _)]); [|done].
    by rewrite Hcalls, busy_insert in Hidle.
  - destruct Hrun as (Hi%lookup_lt_Some & _ & Hcalls).
    by rewrite Hcalls, busy_insert in Hidle.
  - destruct Hrun as (Hi%lookup_lt_Some & _ & Hcalls).
    by rewrite Hcalls, busy_insert in Hidle.
  - by destruct Hrun as (_ & _ & [(text & _ & _ & _ & _ & _ & Hl & _)
                                 |(Hl & _)]).
  - destruct Hrun as [_ Hcalls]. rewrite Hcalls, forallb_app in Hidle.
    simpl in Hidle. by rewrite andb_false_r in Hidle.
  - destruct Hrun as (Hi%lookup_lt_Some
                      & [(url & _ & _ & _ & Hcalls)|(m & -> & _)]);
      [|by right].
    by rewrite Hcalls, busy_insert in Hidle.
  - destruct Hrun as (Hi%lookup_lt_Some & _ & Hcalls).
    by rewrite Hcalls, busy_insert in Hidle.
  - destruct Hrun as (Hi%lookup_lt_Some & _ & Hcalls).
    by rewrite Hcalls, busy_insert in Hidle.
  - destruct Hrun as (_ & _ & [(text & _ & _ & _ & _ & _ & _ & Hs & _)
                              |(_ & He & _)]); [by left|by right].
Qed.

Lemma click_panels_witness :
  aloneClick 0 catPage ≠ []
  ∧ run (sortBy afterByScore) (aloneClick 0 catPage) blankWorld
    = Some {| shown := catShown; calls := [Finished] |}
  ∧ loaderHidden catShown = true
  ∧ (summaryHidden catShown = false ∨ errorHidden catShown = false).
Proof.
  assert (aloneClick 0 catPage ≠ []) as Hne by discriminate.
  assert (run (sortBy afterByScore) (aloneClick 0 catPage) blankWorld
          = Some {| shown := catShown; calls := [Finished] |}) as Hrun
    by (vm_compute; reflexivity).
  assert (idle {| shown := catShown; calls := [Finished] |} = true) as Hidle
    by reflexivity.
  split; [exact Hne|]. split; [exact Hrun|].
  pose proof (click_panels (sortBy afterByScore) _ _ _ Hne Hrun Hidle)
    as (Hloader & Hpanel & _).
  exact (conj Hloader Hpanel).
Defined.

(** X8.  From a popup with the summary container hidden and no call at an
    [await], whatever the clicks and the order in which the promises
    settle: when the summary container is visible, a call that had got a
    tab with a URL that starts with [http] has been answered with a
    content of at least 50 characters, the text shown is the summary of
    that content for the count selected at that time, it is not blank,
    and the word count shown is the number of pieces the summary splits
    into at white space. *)
Theorem click_summary_shown
  (byScore : list ScoredSentence → list ScoredSentence)
  (events : list event) (w w' : world) :
  idle w = true → summaryHidden (shown w) = true →
  run byScore events w = Some w' →
  summaryHidden (shown w') = false →
  ∃ i url text selected,
    TabsQueried i (Fulfilled (Some {| tabUrl := Some url |})) ∈ events
    ∧ startsWith url (js "http") = true
    ∧ Replied i (Fulfilled (Some {| content := Some text |})) selected
      ∈ events
    ∧ 50 ≤ length text
    ∧ summaryText (shown w')
      = summarizeSorting byScore text (sentenceCountOr5 (parseInt selected))
    ∧ trim (summaryText (shown w')) ≠ []
    ∧ wordCountText (shown w')
      = numberToString (length (splitSpaces (summaryText (shown w'))))
        ++ js " words".
Proof.
  intros Hidle Hhidden Hrun Hvisible.
  destruct (history byScore events w w' Hidle Hhidden Hrun) as [_ Hshown].
  destruct (Hshown Hvisible)
    as (i & text & selected & (url & Hq & Hurl) & Hin & Hrest).
  by exists i, url, text, selected.
Qed.

Lemma click_summary_shown_witness :
  idle blankWorld = true
  ∧ summaryHidden (shown blankWorld) = true
  ∧ run (sortBy afterByScore) overlappingClicks blankWorld = Some overlapped
  ∧ summaryHidden (shown overlapped) = false
  ∧ ∃ i url text selected,
      TabsQueried i (Fulfilled (Some {| tabUrl := Some url |}))
        ∈ overlappingClicks
      ∧ startsWith url (js "http") = true
      ∧ Replied i (Fulfilled (Some {| content := Some text |})) selected
        ∈ overlappingClicks
      ∧ 50 ≤ length text
      ∧ summaryText (shown overlapped)
        = summarizeSorting (sortBy afterByScore) text
            (sentenceCountOr5 (parseInt selected)).
Proof.
  assert (idle blankWorld = true) as Hidle by reflexivity.
  assert (summaryHidden (shown blankWorld) = true) as Hhidden by reflexivity.
  assert (run (sortBy afterByScore) overlappingClicks blankWorld
          = Some overlapped) as Hrun
    by (vm_compute; reflexivity).
  assert (summaryHidden (shown overlapped) = false) as Hvisible
    by reflexivity.
  do 4 (split; [assumption|]).
  destruct (click_summary_shown (sortBy afterByScore) _ _ _
              Hidle Hhidden Hrun Hvisible)
    as (i & url & text & selected & H1 & H2 & H3 & H4 & H5 & _).
  exists i, url, text, selected.
  exact (conj H1 (conj H2 (conj H3 (conj H4 H5)))).
Defined.

(** X9.  Whatever the clicks and the order in which the promises settle,
    a visible error box has a message that is not empty, when that was so
    at the start.  When the error box is visible after a single click,
    which came when no call was at an [await], the summary text and the
    word count are those the popup had before the click. *)
Theorem click_error_shown
  (byScore : list ScoredSentence → list ScoredSentence)
  (events : list event) (w w' : world) :
  run byScore events w = Some w' →
  errorHidden (shown w') = false →
  ((errorHidden (shown w) = false → errorText (shown w) ≠ []) →
   errorText (shown w') ≠ [])
  ∧ (idle w = true → idle w' = true → clicks events = 1 →
     summaryText (shown w') = summaryText (shown w)
     ∧ wordCountText (shown w') = wordCountText (shown w)).
Proof.
  intros Hrun Hvisible. split.
  - intros Hstart. by apply (error_has_message byScore events w w').
  - intros Hidle Hidle' Hclicks.
    destruct (single_click byScore events w w' Hidle Hclicks Hrun Hidle')
      as [env Heq].
    rewrite Heq in *. by apply alone_outcome.
Qed.

Lemma click_error_shown_witness :
  run (sortBy afterByScore) (aloneClick 0 silentPage) blankWorld
  = Some {| shown := silentShown; calls := [Finished] |}
  ∧ errorText silentShown ≠ []
  ∧ summaryText silentShown = summaryText blankPopup
  ∧ wordCountText silentShown = wordCountText blankPopup.
Proof.
  assert (run (sortBy afterByScore) (aloneClick 0 silentPage) blankWorld
          = Some {| shown := silentShown; calls := [Finished] |}) as Hrun
    by (vm_compute; reflexivity).
  split; [exact Hrun|].
  destruct (click_error_shown (sortBy afterByScore) _ _ _ Hrun eq_refl)
    as [Hmessage Htexts].
  split; [apply Hmessage; discriminate|].
  by apply Htexts.
Defined.

Lemma validSentences_starts_with_word (text s : jsstring) :
  s ∈ validSentences text → ∃ c rest, s = c :: rest ∧ is_word c = true.
Proof.
  intros Hs. pose proof (validSentences_filter text s Hs) as Hf.
  revert Hs. unfold validSentences.
  rewrite list_elem_of_In, filter_In, in_map_iff.
  intros [(seg & <- & Hseg%list_elem_of_In) _].
  destruct (segment_clean text seg Hseg) as [Hshape Hclean].
  by apply kept_sentence_starts_with_word.
Qed.

Lemma word_not_space (c : N) : is_word c = true → is_space c = false.
Proof. chars. Qed.

Lemma trimStart_nil (s : jsstring) :
  trimStart s = [] → Forall (λ c, is_space c = true) s.
Proof.
  induction s as [|c s IH]; simpl; [constructor|].
  destruct (is_space c) eqn:E; [|done]. intros H. constructor; auto.
Qed.

Lemma trim_nonempty (c : N) (rest : jsstring) :
  is_space c = false → trim (c :: rest) ≠ [].
Proof.
  intros Hc. unfold trim. simpl. rewrite Hc. unfold trimEnd.
  intros Hnil. apply (f_equal (@rev N)) in Hnil.
  rewrite rev_involutive in Hnil. simpl in Hnil.
  apply trimStart_nil in Hnil. apply Forall_app in Hnil as [_ Hlast].
  apply Forall_cons in Hlast as [Hsp _]. congruence.
Qed.

Lemma summarySentences_nil_iff (text : jsstring) (n : Z) :
  (1 ≤ n)%Z → summarySentences text n = [] ↔ validSentences text = [].
Proof.
  intros Hn. pose proof (summarySentences_length text n) as Hlen.
  rewrite <- !length_zero_iff_nil.
  destruct (Z.leb_spec (Z.of_nat (length (validSentences text))) n);
    destruct (Z.ltb_spec n 0); lia.
Qed.

Lemma summary_head (text : jsstring) (n : Z) (c : N) (rest : jsstring) :
  extractiveSummarize text n = c :: rest → is_word c = true.
Proof.
  rewrite extractiveSummarize_join.
  destruct (summarySentences text n) as [|s l] eqn:E; [done|].
  assert (s ∈ validSentences text) as Hs.
  { apply (summarySentences_valid text n). rewrite E. apply list_elem_of_here. }
  apply validSentences_starts_with_word in Hs as (d & t & -> & Hd).
  destruct l; simpl; by intros [= <- _].
Qed.

Lemma split_from_length (b : bool) (cur s : jsstring) :
  1 ≤ length (split_from b cur s).
Proof.
  revert b cur. induction s as [|c s IH]; intros b cur; simpl; [lia|].
  destruct (is_space c); [destruct b|]; simpl; auto.
Qed.

Lemma split_from_app_length (b : bool) (cur s t : jsstring) :
  length (split_from b cur s) ≤ length (split_from b cur (s ++ t)).
Proof.
  revert b cur. induction s as [|c s IH]; intros b cur; simpl.
  - apply split_from_length.
  - destruct (is_space c); [destruct b|]; simpl;
      try apply le_n_S; apply IH.
Qed.

(** With the insertion sort for the sort by score, [summarizeSorting] is
    [extractiveSummarize]. *)
Lemma extractiveSummarize_sorting (text : jsstring) (n : Z) :
  extractiveSummarize text n = summarizeSorting (sortBy afterByScore) text n.
Proof.
  unfold extractiveSummarize, summarizeSorting, summarySentencesSorting.
  cbv zeta. by destruct (_ <=? _)%Z.
Qed.

(** A join of surviving sentences is blank only when there are none. *)
Lemma join_blank_iff (text : jsstring) (l : list jsstring) :
  Forall (λ s, s ∈ validSentences text) l →
  missing (Some (join l)) || (length (trim (join l)) =? 0) = true
  ↔ l = [].
Proof.
  intros Hl. destruct l as [|s l]; [done|].
  apply Forall_cons in Hl as [Hs _].
  apply validSentences_starts_with_word in Hs as (c & rest & -> & Hc).
  assert (∀ t, missing (Some (c :: t)) || (length (trim (c :: t)) =? 0) = true
               ↔ (c :: rest) :: l = []) as Hhead.
  { intros t. cbn [missing orb]. split; [|done].
    intros H%Nat.eqb_eq%nil_length_inv.
    by apply (trim_nonempty c t (word_not_space c Hc)) in H. }
  destruct l as [|s l]; apply Hhead.
Qed.

Section Sorting.
Variable byScore : list ScoredSentence → list ScoredSentence.
Hypothesis byScore_perm : ∀ l, byScore l ≡ₚ l.

Lemma sorting_valid (text : jsstring) (n : Z) (s : jsstring) :
  s ∈ summarySentencesSorting byScore text n → s ∈ validSentences text.
Proof.
  unfold summarySentencesSorting. cbv zeta. destruct (_ <=? _)%Z; [done|].
  intros (e & -> & He)%list_elem_of_fmap.
  rewrite (sortBy_perm afterByIndex) in He.
  apply (elem_of_submseteq _ (sentenceScores (validSentences text))) in He.
  - apply sentenceScores_sentence in He as (s & Hs & ->).
    apply list_elem_of_lookup_2 in Hs.
    by rewrite (validSentences_trimmed text s Hs).
  - etrans; [apply sublist_submseteq, slice0_sublist|].
    by rewrite byScore_perm.
Qed.

Lemma sorting_nil_iff (text : jsstring) (n : Z) :
  (1 ≤ n)%Z →
  summarySentencesSorting byScore text n = [] ↔ validSentences text = [].
Proof.
  intros Hn. unfold summarySentencesSorting. cbv zeta.
  destruct (Z.leb_spec (Z.of_nat (length (validSentences text))) n)
    as [_|Hlt]; [done|].
  rewrite <- !length_zero_iff_nil, length_map, sortBy_length.
  pose proof (slice0_length (byScore (sentenceScores (validSentences text))) n)
    as Hlen.
  assert (length (sentenceScores (validSentences text))
          = length (validSentences text)) as Hscores
    by apply length_imap.
  rewrite (Permutation_length (byScore_perm _)), Hscores in Hlen.
  destruct (Z.ltb_spec n 0); lia.
Qed.

Lemma sorting_blank_iff (text : jsstring) (n : Z) :
  (1 ≤ n)%Z →
  missing (Some (summarizeSorting byScore text n))
  || (length (trim (summarizeSorting byScore text n)) =? 0) = true
  ↔ validSentences text = [].
Proof.
  intros Hn. rewrite <- (sorting_nil_iff text n Hn).
  unfold summarizeSorting. apply (join_blank_iff text), Forall_forall.
  intros s. apply sorting_valid.
Qed.

Lemma run_tabs (hs : list stage) (ui : popup)
  (tabs : settled (option tabInfo)) (events : list event) :
  run byScore (TabsQueried (length hs) tabs :: events)
      {| shown := ui; calls := hs ++ [AwaitTabs] |}
  = run byScore events
        match afterQuery tabs ui with
        | (ui', inr _) => {| shown := ui'; calls := hs ++ [AwaitScripts] |}
        | (ui', inl message) =>
            {| shown := catchBlock message ui'; calls := hs ++ [Finished] |}
        end.
Proof.
  cbn [run deliver calls shown]. rewrite list_lookup_middle by done.
  destruct (afterQuery tabs ui) as [ui' [m|[]]];
    cbn [resumed calls]; by rewrite sole_insert.
Qed.

Lemma run_scripts (hs : list stage) (ui : popup) (events : list event) :
  run byScore (ScriptsInjected (length hs) :: events)
      {| shown := ui; calls := hs ++ [AwaitScripts] |}
  = run byScore events {| shown := ui; calls := hs ++ [AwaitDelay] |}.
Proof.
  cbn [run deliver calls shown]. rewrite list_lookup_middle by done.
  unfold moved. cbn [calls shown]. by rewrite sole_insert.
Qed.

Lemma run_delay (hs : list stage) (ui : popup) (events : list event) :
  run byScore (DelayOver (length hs) :: events)
      {| shown := ui; calls := hs ++ [AwaitDelay] |}
  = run byScore events {| shown := ui; calls := hs ++ [AwaitReply] |}.
Proof.
  cbn [run deliver calls shown]. rewrite list_lookup_middle by done.
  unfold moved. cbn [calls shown]. by rewrite sole_insert.
Qed.

Lemma run_reply (hs : list stage) (ui : popup)
  (reply : settled (option response)) (selected : jsstring)
  (events : list event) :
  run byScore (Replied (length hs) reply selected :: events)
      {| shown := ui; calls := hs ++ [AwaitReply] |}
  = run byScore events
        {| shown := match afterReply byScore reply selected ui with
                    | (ui', inr _) => ui'
                    | (ui', inl message) => catchBlock message ui'
                    end;
           calls := hs ++ [Finished] |}.
Proof.
  cbn [run deliver calls shown]. rewrite list_lookup_middle by done.
  destruct (afterReply byScore reply selected ui) as [ui' [m|[]]];
    cbn [resumed calls]; by rewrite sole_insert.
Qed.

(** The events of a click alone on a web page, one after the other. *)
Lemma run_alone (w : world) (url text selected : jsstring) :
  startsWith url (js "http") = true → 50 ≤ length text →
  let summary :=
    summarizeSorting byScore text (sentenceCountOr5 (parseInt selected)) in
  let ui := showExtracted (clickStarted (shown w)) in
  run byScore
      (aloneClick (length (calls w))
         {| queried := Fulfilled (Some {| tabUrl := Some url |});
            replied := Fulfilled (Some {| content := Some text |});
            selectValue := selected |}) w
  = Some {| shown :=
              if missing (Some summary) || (length (trim summary) =? 0)
              then catchBlock (js "No meaningful summary could be generated. The content might be too short or not in a readable format.")
                              (setLoaderHidden true ui)
              else setSummaryHidden false
                     (setWordCountText
                        (numberToString (length (splitSpaces summary))
                         ++ js " words")
                        (setSummaryText summary (setLoaderHidden true ui)));
            calls := calls w ++ [Finished] |}.
Proof.
  intros Hurl Hlen. cbv zeta. unfold aloneClick.
  cbn [queried replied selectValue].
  change (run byScore (Click :: ?events) w)
    with (run byScore events
              {| shown := clickStarted (shown w);
                 calls := calls w ++ [AwaitTabs] |}).
  rewrite run_tabs.
  assert (afterQuery (Fulfilled (Some {| tabUrl := Some url |}))
                     (clickStarted (shown w))
          = (clickStarted (shown w), inr ())) as ->.
  { unfold afterQuery. cbn [await bind ret throw].
    destruct url as [|c url]; [done|].
    cbn [missing tabUrl present orb]. by rewrite Hurl. }
  rewrite run_scripts, run_delay, run_reply. cbn [run]. do 2 f_equal.
  unfold afterReply. cbn [await bind ret throw].
  destruct text as [|d text]; [simpl in Hlen; lia|].
  cbn [missing content present orb].
  apply Nat.ltb_ge in Hlen. rewrite Hlen. cbn [change bind]. cbv zeta.
  set (summary := summarizeSorting byScore (d :: text)
                    (sentenceCountOr5 (parseInt selected))).
  destruct summary as [|e rest]; cbn [missing orb]; [done|].
  by destruct (length (trim (e :: rest)) =? 0).
Qed.

End Sorting.

(** X10.  When a click comes while no call of the listener is at an
    [await], the tab is a web page, the page answers with a content of at
    least 50 characters, the count selected is at least 1 after the
    fallback to 5, and no other click comes in between, the call runs to
    its end, and the summary container is shown exactly when some sentence
    of the content survives the filter; otherwise the error box is shown.
    This holds whatever order the sort by score gives. *)
Theorem click_summary_iff
  (byScore : list ScoredSentence → list ScoredSentence) (w : world)
  (url text selected : jsstring) :
  (∀ l, byScore l ≡ₚ l) →
  idle w = true →
  startsWith url (js "http") = true →
  50 ≤ length text →
  (1 ≤ sentenceCountOr5 (parseInt selected))%Z →
  ∃ w',
    run byScore
        (aloneClick (length (calls w))
           {| queried := Fulfilled (Some {| tabUrl := Some url |});
              replied := Fulfilled (Some {| content := Some text |});
              selectValue := selected |}) w
    = Some w'
    ∧ idle w' = true
    ∧ (summaryHidden (shown w') = false ↔ validSentences text ≠ [])
    ∧ (errorHidden (shown w') = false ↔ validSentences text = []).
Proof.
  intros Hperm Hidle Hurl Hlen Hcount. eexists.
  split; [by apply run_alone|]. cbv zeta.
  split; [unfold idle in *; cbn [calls]; by rewrite forallb_app, Hidle|].
  pose proof (sorting_blank_iff byScore Hperm text _ Hcount) as Hblank.
  cbn [shown].
  destruct (missing (Some _) || _); simpl.
  - destruct Hblank as [Hnil _]. rewrite (Hnil eq_refl). by split.
  - assert (validSentences text ≠ []) as Hne
      by (intros Hnil; by apply Hblank in Hnil).
    split; split; try done.
Qed.

Lemma click_summary_iff_witness :
  ∃ w',
    run (sortBy afterByScore) (aloneClick 0 catPage) blankWorld = Some w'
    ∧ idle w' = true
    ∧ (summaryHidden (shown w') = false ↔ validSentences catCleaned ≠ [])
    ∧ (errorHidden (shown w') = false ↔ validSentences catCleaned = []).
Proof.
  assert (∀ l, sortBy afterByScore l ≡ₚ l) as Hperm
    by apply sortBy_perm.
  assert (idle blankWorld = true) as Hidle by reflexivity.
  assert (startsWith (js "https://a.b") (js "http") = true) as Hurl
    by reflexivity.
  assert (50 ≤ length catCleaned) as Hlen by (vm_compute; lia).
  assert (1 ≤ sentenceCountOr5 (parseInt (js "7")))%Z as Hcount
    by (vm_compute; discriminate).
  exact (click_summary_iff (sortBy afterByScore) blankWorld
           (js "https://a.b") catCleaned (js "7")
           Hperm Hidle Hurl Hlen Hcount).
Defined.

(** X11.  A summary that is not empty splits at white space into at least
    four pieces, so the word count the popup shows with a summary is never
    below 4. *)
Theorem summary_word_count (text : jsstring) (n : Z) :
  extractiveSummarize text n ≠ [] →
  4 ≤ length (splitSpaces (extractiveSummarize text n)).
Proof.
  rewrite extractiveSummarize_join.
  destruct (summarySentences text n) as [|s l] eqn:E; [done|]. intros _.
  assert (4 ≤ length (splitSpaces s)) as Hs.
  { assert (s ∈ summarySentences text n) as Hin
      by (rewrite E; apply list_elem_of_here).
    apply summarySentences_valid, validSentences_filter in Hin.
    unfold sentenceFilter in Hin.
    destruct (length (splitSpaces s) <? 4) eqn:E4; [done|].
    by apply Nat.ltb_ge in E4. }
  destruct l as [|s' l]; [done|].
  change (join (s :: s' :: l)) with (s ++ SPACE :: join (s' :: l)).
  etrans; [exact Hs|]. apply split_from_app_length.
Qed.

Lemma summary_word_count_witness :
  extractiveSummarize catText 3 ≠ []
  ∧ 4 ≤ length (splitSpaces (extractiveSummarize catText 3)).
Proof.
  assert (extractiveSummarize catText 3 ≠ []) as H
    by (vm_compute; discriminate).
  split; [exact H|]. exact (summary_word_count catText 3 H).
Defined.

(** *** The content script's extraction *)

(** X12.  Whatever the document, the content [extractMainContent] returns
    has been through [cleanText]: it is in the normal form of [cleanText],
    and cleaning it again changes nothing. *)
Theorem extracted_content_clean (doc : Page.document) :
  content_normal (Page.content (Page.extractMainContent doc))
  ∧ Content.cleanText (Page.content (Page.extractMainContent doc))
    = Page.content (Page.extractMainContent doc).
Proof.
  assert (∃ raw, Page.content (Page.extractMainContent doc)
                 = Content.cleanText raw) as [raw ->].
  { unfold Page.extractMainContent, Page.fromReadability, Page.fromSelectors,
      Page.fromLargestBlock, Page.fromParagraphs, Page.fromBody.
    repeat case_match; simplify_eq; simpl; by eexists. }
  split; [apply cleanText_is_normal|].
  apply content_normal_fixed, cleanText_is_normal.
Qed.

Section HeadOfSort.
Context {A : Type} (after : A → A → bool) (rank : A → R).
Hypothesis after_rank : ∀ a b, after a b = true ↔ (rank a < rank b)%R.

Lemma insertSorted_head (x : A) (l : list A) :
  head (insertSorted after x l)
  = match head l with
    | Some h => if after x h then Some h else Some x
    | None => Some x
    end.
Proof. destruct l as [|h l]; simpl; [done|]. by destruct (after x h). Qed.

(** The first element of the sorted array is the first element of the
    array that no element outranks. *)
Lemma sortBy_head_first_max (l : list A) (x : A) :
  head (sortBy after l) = Some x →
  ∃ i, l !! i = Some x
     ∧ (∀ j y, l !! j = Some y → (rank y <= rank x)%R)
     ∧ (∀ j y, j < i → l !! j = Some y → (rank y < rank x)%R).
Proof.
  revert x. induction l as [|a l IH]; intros x; [done|].
  cbn [sortBy]. rewrite insertSorted_head.
  destruct (head (sortBy after l)) as [h|] eqn:Eh.
  - destruct (IH h eq_refl) as (i & Hi & Hmax & Hfirst).
    destruct (after a h) eqn:Ea; intros [= <-].
    + apply after_rank in Ea. exists (S i). split; [done|]. split.
      * intros [|j] y; simpl; [intros [= <-]; lra|apply Hmax].
      * intros [|j] y Hj; simpl; [intros [= <-]; done|].
        apply Hfirst. lia.
    + assert (¬ (rank a < rank h)%R) as Hge
        by (intros Hlt%after_rank; congruence).
      exists 0. split; [done|]. split; [|intros j y Hj; lia].
      intros [|j] y; simpl; [intros [= <-]; lra|].
      intros Hy. specialize (Hmax j y Hy). lra.
  - intros [= <-]. exists 0. split; [done|].
    assert (l = []) as ->.
    { apply length_zero_iff_nil. rewrite <- (sortBy_length after l).
      by destruct (sortBy after l). }
    split; [|intros j y Hj; lia].
    intros [|j] y; simpl; [intros [= <-]; lra|done].
Qed.
End HeadOfSort.

Lemma round53_positive (x : Z) : (0 < x)%Z → (0 < Double.round53 x)%Z.
Proof.
  intros Hx. unfold Double.round53. cbv zeta.
  destruct (Z.leb_spec (Z.log2 x + 1) 53) as [_|Hbits]; [done|].
  assert (0 < 2 ^ (Z.log2 x + 1 - 53))%Z as Hpow
    by (apply Z.pow_pos_nonneg; lia).
  assert (2 ^ (Z.log2 x + 1 - 53) <= x)%Z as Hle.
  { etrans; [|apply Z.log2_spec, Hx]. apply Z.pow_le_mono_r; lia. }
  assert (0 < x / 2 ^ (Z.log2 x + 1 - 53))%Z as Hq
    by (apply Z.div_str_pos; lia).
  destruct (_ || _); apply Z.mul_pos_pos; lia.
Qed.

(** The difference of two doubles is positive exactly when the first is
    the greater. *)
Lemma minus_positive (x y : Z) :
  (0 <? Double.minus x y)%Z = true ↔ (y < x)%Z.
Proof.
  unfold Double.minus. rewrite Z.ltb_lt.
  destruct (Z.lt_trichotomy (x - y) 0) as [Hlt|[Heq|Hgt]].
  - pose proof (round53_positive (Z.abs (x - y))) as Hr.
    rewrite Z.sgn_neg by done. lia.
  - rewrite Heq. simpl. lia.
  - pose proof (round53_positive (Z.abs (x - y))) as Hr.
    rewrite Z.sgn_pos by done. lia.
Qed.

Lemma afterByBlockScore_rank (a b : Page.candidate) :
  Page.afterByBlockScore a b = true
  ↔ (IZR (Page.blockScore a) < IZR (Page.blockScore b))%R.
Proof.
  unfold Page.afterByBlockScore. rewrite minus_positive.
  split; [apply IZR_lt|apply lt_IZR].
Qed.

(** On these lengths and counts the rounding of [Double.blockScore] is
    that of the binary64 arithmetic of the kernel. *)
Example blockScore_binary64 :
  Forall (λ '(l, p, i),
            Double.scaled (Double.binary64 l p i)
            = Some (Double.blockScore l p i))
         [(0, 0, 0); (1, 0, 0); (301, 3, 0); (551, 3, 0); (301, 3, 3);
          (1234, 7, 2); (4321, 12, 5); (4999, 250, 40); (7, 1000, 1000)].
Proof. repeat constructor; vm_compute; reflexivity. Qed.

(** X13.  When neither the article of the library nor a selector gives the
    content and there are candidate blocks, the content is the cleaned text
    of the first candidate, in document order, that no candidate outscores:
    every candidate scores at most as much, and every earlier one scores
    less.  The scores are the doubles the comparison function computes. *)
Theorem largest_block_chosen (doc : Page.document) :
  Page.fromReadability doc = None →
  Page.fromSelectors doc = None →
  Page.candidates doc ≠ [] →
  ∃ i best,
    Page.candidates doc !! i = Some best
    ∧ Page.content (Page.extractMainContent doc)
      = Content.cleanText (Page.candidateText best)
    ∧ (∀ j c, Page.candidates doc !! j = Some c →
              (Page.blockScore c ≤ Page.blockScore best)%Z)
    ∧ (∀ j c, j < i → Page.candidates doc !! j = Some c →
              (Page.blockScore c < Page.blockScore best)%Z).
Proof.
  intros Hr Hs Hc. unfold Page.extractMainContent, Page.fromLargestBlock.
  rewrite Hr, Hs.
  destruct (sortBy Page.afterByBlockScore (Page.candidates doc))
    as [|best rest] eqn:E.
  - exfalso. apply Hc, length_zero_iff_nil.
    by rewrite <- (sortBy_length Page.afterByBlockScore), E.
  - destruct (sortBy_head_first_max Page.afterByBlockScore
                (λ a, IZR (Page.blockScore a))
                afterByBlockScore_rank (Page.candidates doc) best)
      as (i & Hi & Hmax & Hfirst); [by rewrite E|].
    exists i, best. split; [done|]. split; [done|]. split.
    + intros j c Hj. apply le_IZR. by apply (Hmax j).
    + intros j c Hlt Hj. apply lt_IZR. by apply (Hfirst j).
Qed.

Lemma plainBlock_visible (size paragraphs images : nat) :
  Page.isVisible (plainBlock size paragraphs images) = true.
Proof.
  unfold Page.isVisible. cbn [Page.opacity plainBlock nlt].
  destruct (Rlt_dec 0 1) as [_|Hn]; [reflexivity|lra].
Qed.

Lemma twoBlocks_candidates :
  map Page.candidateText (Page.candidates twoBlocks)
  = [replicate 551 120%N; replicate 301 120%N]
  ∧ map Page.blockScore (Page.candidates twoBlocks)
    = [Double.blockScore 551 3 0; Double.blockScore 301 3 3].
Proof.
  unfold Page.candidates, twoBlocks. cbn [Page.blocks List.filter].
  unfold Page.isCandidate. rewrite !plainBlock_visible.
  split; vm_compute; reflexivity.
Qed.

(** Two blocks whose scores are equal as real numbers, 630.6 both: as
    doubles the first is the smaller, and the second block is chosen. *)
Example rounding_decides :
  (551 * 6 + 3 * 1000 = 301 * 6 + 3 * 1000 + 3 * 500)%Z
  ∧ (Double.blockScore 551 3 0 < Double.blockScore 301 3 3)%Z
  ∧ Page.content (Page.extractMainContent twoBlocks)
    = Content.cleanText (replicate 301 120%N).
Proof.
  split; [reflexivity|]. split; [by vm_compute|].
  unfold Page.extractMainContent, Page.fromLargestBlock, Page.candidates,
    twoBlocks.
  cbn [Page.fromReadability Page.readable Page.blocks List.filter].
  unfold Page.isCandidate. rewrite !plainBlock_visible.
  vm_compute. reflexivity.
Qed.

Lemma largest_block_chosen_witness :
  Page.candidates twoBlocks ≠ []
  ∧ ∃ i best,
      Page.candidates twoBlocks !! i = Some best
      ∧ Page.content (Page.extractMainContent twoBlocks)
        = Content.cleanText (Page.candidateText best)
      ∧ (∀ j c, Page.candidates twoBlocks !! j = Some c →
                (Page.blockScore c ≤ Page.blockScore best)%Z)
      ∧ (∀ j c, j < i → Page.candidates twoBlocks !! j = Some c →
                (Page.blockScore c < Page.blockScore best)%Z).
Proof.
  assert (Page.fromReadability twoBlocks = None) as Hr by reflexivity.
  assert (Page.fromSelectors twoBlocks = None) as Hs by reflexivity.
  assert (Page.candidates twoBlocks ≠ []) as Hc.
  { unfold Page.candidates, twoBlocks. cbn [Page.blocks List.filter].
    unfold Page.isCandidate. rewrite plainBlock_visible.
    vm_compute. discriminate. }
  split; [exact Hc|]. exact (largest_block_chosen twoBlocks Hr Hs Hc).
Defined.

(** X14.  In the interval callback of [waitForContentStabilization] the
    maximum wait decides nothing when it is at least 1000 ms (the default
    is 5000) and the two readings of the clock are no further apart than
    the maximum wait exceeds 1000 ms: the wait ends at a check exactly
    when more than 1000 ms have passed since the last change; a check
    within 1000 ms of the last change never ends the wait, however long
    the wait has lasted. *)
Theorem max_wait_decides_nothing (lastChangeTime maxWaitTime now1 now2 : Z) :
  (1000 ≤ maxWaitTime)%Z → (now1 ≤ now2)%Z →
  (now2 - now1 ≤ maxWaitTime - 1000)%Z →
  Page.waitEnds lastChangeTime maxWaitTime now1 now2
  = (1000 <? now1 - lastChangeTime)%Z.
Proof.
  intros Hmax Hle Hgap. unfold Page.waitEnds.
  destruct (Z.ltb_spec 1000 (now1 - lastChangeTime)); [done|].
  destruct (Z.ltb_spec maxWaitTime (now2 - lastChangeTime)); [lia|done].
Qed.

Lemma max_wait_decides_nothing_witness :
  (1000 ≤ 5000)%Z ∧ (6900 ≤ 6900)%Z ∧ (6900 - 6900 ≤ 5000 - 1000)%Z
  ∧ Page.waitEnds 6000 5000 6900 6900 = false.
Proof.
  assert (1000 ≤ 5000)%Z as H1 by lia.
  assert (6900 ≤ 6900)%Z as H2 by lia.
  assert (6900 - 6900 ≤ 5000 - 1000)%Z as H3 by lia.
  do 3 (split; [assumption|]).
  exact (max_wait_decides_nothing 6000 5000 6900 6900 H1 H2 H3).
Defined.

(** *** More about the sentences and their scores *)

Lemma join_last (parts : list jsstring) (c : N) :
  Forall (λ p, p ≠ []) parts →
  last (join parts) = Some c → ∃ p, p ∈ parts ∧ last p = Some c.
Proof.
  induction 1 as [|p [|q rest] Hp Hrest IH]; [done| |].
  - simpl. intros Hl. exists p. split; [apply list_elem_of_here|done].
  - change (join (p :: q :: rest)) with (p ++ SPACE :: join (q :: rest)).
    assert (join (q :: rest) ≠ []) as Hne.
    { intros Hnil%join_nil; done. }
    rewrite last_app_cons, last_cons.
    destruct (last (join (q :: rest))) as [d|] eqn:El;
      [|by apply last_None in El].
    intros [= ->]. destruct (IH eq_refl) as (s & Hs & Hls).
    exists s. split; [by apply list_elem_of_further|done].
Qed.

(** X15.  The summary neither starts nor ends with white space: trimming
    it changes nothing. *)
Theorem summary_trimmed (text : jsstring) (n : Z) :
  trim (extractiveSummarize text n) = extractiveSummarize text n.
Proof.
  apply trimmed_ends. split.
  - intros c Hc. apply word_not_space.
    destruct (extractiveSummarize text n) as [|d rest] eqn:E; [done|].
    injection Hc as ->. by apply (summary_head text n c rest).
  - rewrite extractiveSummarize_join. intros c Hc.
    apply join_last in Hc as (s & Hs & Hl).
    + apply summarySentences_valid, validSentences_trimmed in Hs.
      apply trimmed_ends in Hs as [_ Hs]. by apply Hs.
    + apply Forall_forall.
      intros s Hs%summarySentences_valid%validSentences_filter ->.
      apply sentenceFilter_long in Hs. simpl in Hs. lia.
Qed.

(** X16.  The score of a surviving sentence is a finite number whenever
    none of its tokens is the name of a property of [Object.prototype]
    (such as [constructor]). *)
Theorem scores_finite (text : jsstring) (e : ScoredSentence) :
  e ∈ sentenceScores (validSentences text) →
  Forall (λ w, w ∉ objectPrototype) (wordsOf (sentence e)) →
  ∃ r, score e = Fin r.
Proof.
  unfold sentenceScores. intros (i & s & -> & Hs)%elem_of_lookup_imap.
  cbn [sentence score].
  assert (s ∈ validSentences text) as Hin by by eapply list_elem_of_lookup_2.
  rewrite (validSentences_trimmed text s Hin). intros Hwords.
  apply score_finite; [done| |].
  - by apply (validSentences_words text).
  - intros Hnil. by rewrite Hnil in Hin; apply elem_of_nil in Hin.
Qed.

Lemma scores_finite_witness :
  scored catSecond 1 (Fin (scoreR 12 10 8 14 10 1 3))
    ∈ sentenceScores (validSentences catText)
  ∧ ∃ r, score (scored catSecond 1 (Fin (scoreR 12 10 8 14 10 1 3))) = Fin r.
Proof.
  assert (scored catSecond 1 (Fin (scoreR 12 10 8 14 10 1 3))
            ∈ sentenceScores (validSentences catText)) as H.
  { rewrite catText_valid, catText_scores.
    apply list_elem_of_further, list_elem_of_here. }
  assert (Forall (λ w, w ∉ objectPrototype)
            (wordsOf (sentence (scored catSecond 1
                                  (Fin (scoreR 12 10 8 14 10 1 3)))))) as Hw.
  { apply (bool_decide_unpack _). by vm_compute. }
  split; [exact H|]. exact (scores_finite catText _ H Hw).
Defined.

Lemma includes_infix (s p : jsstring) :
  includes s p = true → ∃ k1 k2, s = k1 ++ p ++ k2.
Proof.
  induction s as [|c s IH]; cbn [includes].
  - rewrite orb_false_r. intros [k ->]%startsWith_prefix. by exists [], k.
  - intros [[k ->]%startsWith_prefix|(k1 & k2 & ->)%IH]%orb_true_iff.
    + by exists [], k.
    + by exists (c :: k1), k2.
Qed.

Lemma clean_excludes (s p : jsstring) (c : N) :
  Forall (λ c, is_clean c = true) s → c ∈ p → is_clean c = false →
  includes s p = false ∧ startsWith s p = false.
Proof.
  intros Hs Hc Hn.
  assert (c ∉ s) as Hout.
  { intros Hin. rewrite Forall_forall in Hs. specialize (Hs c Hin).
    congruence. }
  split; apply not_true_is_false.
  - intros (k1 & k2 & ->)%includes_infix. apply Hout.
    apply elem_of_app. right. apply elem_of_app. by left.
  - intros [k ->]%startsWith_prefix. apply Hout. apply elem_of_app. by left.
Qed.

Lemma skipDigits_split (t : jsstring) :
  ∃ ds, t = ds ++ skipDigits t ∧ Forall (λ c, is_digit c = true) ds.
Proof.
  induction t as [|c t (ds & Ht & Hds)]; [by exists []|]. simpl.
  destruct (is_digit c) eqn:E; [|by exists []].
  exists (c :: ds). split; [by rewrite Ht at 1|by constructor].
Qed.

Lemma digit_not_space (c : N) : is_digit c = true → is_space c = false.
Proof. chars. Qed.

(** A trimmed match that starts with a number and a period has no white
    space, so it is a single piece. *)
Lemma numbered_single_piece (seg : jsstring) :
  segment_shape seg → numbered (trim seg) = true →
  length (splitSpaces (trim seg)) = 1.
Proof.
  intros (body & tail & Hseg & Hbody & Htail). unfold numbered.
  rewrite trimStart_id by apply trim_head.
  destruct (trim_infix seg) as (k1 & k2 & Hk).
  destruct (trim seg) as [|c t] eqn:Etrim; [done|].
  intros [Hc Hd]%andb_true_iff.
  destruct (skipDigits_split t) as (ds & Ht & Hds).
  destruct (skipDigits t) as [|d r]; [done|]. apply N.eqb_eq in Hd as ->.
  assert (Forall (λ c, is_space c = false) r) as Hr.
  { rewrite Ht, Hseg in Hk.
    replace (k1 ++ (c :: ds ++ 46%N :: r) ++ k2)
      with ((k1 ++ c :: ds) ++ 46%N :: (r ++ k2)) in Hk
      by (rewrite <- !app_assoc; simpl; by rewrite <- app_assoc).
    apply app_eq_inv in Hk as [(k & -> & Hk)|(k & Hk & ->)].
    - destruct k as [|e k].
      + simpl in Hk. subst tail. apply Forall_cons in Htail as [_ Ht'].
        by apply Forall_app in Ht' as [? _].
      + injection Hk as <- _. apply Forall_app in Hbody as [_ Hb].
        apply Forall_cons in Hb as [Hb _]. by vm_compute in Hb.
    - apply Forall_app in Htail as [_ Ht'].
      apply Forall_cons in Ht' as [_ Ht'].
      by apply Forall_app in Ht' as [? _]. }
  unfold splitSpaces. rewrite split_from_no_space; [done|].
  rewrite Ht. constructor; [by apply digit_not_space|].
  apply Forall_app. split.
  - eapply Forall_impl; [exact Hds|]. apply digit_not_space.
  - by constructor.
Qed.

(** X17.  On the sentences of a cleaned text four tests of the filter
    never decide: the tests for [= ], for a brace and for a leading caret
    find nothing, because cleaning has stripped these characters, and a
    sentence that starts with a number and a period has already been
    rejected as too short.  The filter rejects a sentence exactly for its
    length, for [import ] or [def ], for a leading [http], or for
    [click here] or [next page]. *)
Theorem filter_live_tests (text seg : jsstring) :
  seg ∈ segment (cleanText text) →
  sentenceFilter (trim seg) = liveFilter (trim seg).
Proof.
  intros [Hshape Hclean%(Forall_trim _ seg)]%segment_clean.
  unfold sentenceFilter, liveFilter.
  destruct (clean_excludes (trim seg) (js "= ") 61 Hclean) as [-> _];
    [apply list_elem_of_here|done|].
  destruct (clean_excludes (trim seg) (js "{") 123 Hclean) as [-> _];
    [apply list_elem_of_here|done|].
  destruct (clean_excludes (trim seg) (js "}") 125 Hclean) as [-> _];
    [apply list_elem_of_here|done|].
  destruct (clean_excludes (trim seg) (js "^") 94 Hclean) as [_ ->];
    [apply list_elem_of_here|done|].
  rewrite !orb_false_r. cbn [orb].
  destruct (numbered (trim seg)) eqn:Enum.
  - rewrite (numbered_single_piece seg Hshape Enum). done.
  - by rewrite orb_false_r.
Qed.

Lemma filter_live_tests_witness :
  SPACE :: catSecond ∈ segment (cleanText (js "x = {1}. " ++ catSecond))
  ∧ sentenceFilter (trim (SPACE :: catSecond))
    = liveFilter (trim (SPACE :: catSecond)).
Proof.
  assert (SPACE :: catSecond
            ∈ segment (cleanText (js "x = {1}. " ++ catSecond))) as H.
  { apply list_elem_of_In. vm_compute. tauto. }
  split; [exact H|]. exact (filter_live_tests _ _ H).
Defined.
